(** * Practica 2, 4 and 5: linear regression, logistic regression and the
      two-layer network

    Shallow embedding of [src/Practica5/p5/nn.py] (feed_forward, cost,
    backprop, gradient, backprop_min), of [src/Practica4/p4/logistic_reg.py]
    (sigmoid, compute_cost, compute_gradient, compute_cost_reg,
    compute_gradient_reg, gradient_descent, predict) and of
    [src/Practica2/p2/multi_linear_reg.py] (zscore_normalize_features,
    compute_cost, compute_gradient, gradient_descent).

    Conventions of the embedding.
    - numpy floats are real numbers ([R]); rounding and overflow are not
      modelled.  The one scalar that can leave the finite reals from finite
      operands, the cost [J] (logarithm of a non-positive number, division by
      an empty batch), has type [float]: a real or [nonfin] (inf or nan).
      A sum or a power that overflows to inf in float64 is a real number
      here: [nonfin] in the model shows that the float64 result is not
      finite, [fin] alone does not show that it is finite.
    - a 2-D ndarray is a [matrix]: its column count and its rows.  The column
      count is kept next to the rows so that arrays with no row keep their
      shape, as in numpy.
    - numpy exceptions are outcomes of the [result] monad.
    - ndarrays that the caller owns or that are updated in place live in a
      heap indexed by locations; [+=], [/=], [-=] and slice assignment write
      to the heap cell of their target.  Every location is an array that
      owns its memory: two locations share no memory, and views of one
      buffer are not modelled.  What is said of "the other arrays" of a heap
      is said of arrays that share no memory with the one written. *)

From Stdlib Require Import Reals Lra Lia ZArith.
From stdpp Require Import base option list gmap.

Local Open Scope R_scope.

(** ** Outcomes *)

Inductive exn : Type :=
| ShapeMismatch     (* operand shapes disagree: numpy raises ValueError, or
                       broadcasts when a dimension is 1; not followed further *)
| IndexError        (* index out of bounds *)
| UnboundLocalError (* a local name is read before any assignment *)
| NonFiniteArray    (* not an exception: an array was divided by m = 0, all
                       its entries are inf or nan; not followed further *)
| BadRef.           (* a location outside the heap; no Python run reaches it *)

Inductive result (A : Type) : Type :=
| Ok (a : A)
| Raise (e : exn).
Arguments Ok {A} a.
Arguments Raise {A} e.

#[global] Instance result_ret : MRet result := fun A a => Ok a.
#[global] Instance result_bind : MBind result := fun A B k r =>
  match r with
  | Ok a => k a
  | Raise e => Raise e
  end.

(** The cost is a float that may be inf or nan. *)
Inductive float : Type :=
| fin (r : R)
| nonfin.

(** ** Vectors and matrices *)

Record matrix : Type := Mat { ncols : nat; rows : list (list R) }.

Definition nrows (A : matrix) : nat := length (rows A).

(** Every row has [ncols] entries. *)
Definition wf (A : matrix) : Prop :=
  Forall (fun r => length r = ncols A) (rows A).

Definition has_shape (r c : nat) (A : matrix) : Prop :=
  nrows A = r /\ ncols A = c /\ wf A.

Definition same_shape (A B : matrix) : bool :=
  (nrows A =? nrows B)%nat && (ncols A =? ncols B)%nat.

Definition vsum (v : list R) : R := foldr Rplus 0 v.

Definition dot (u v : list R) : R := vsum (zip_with Rmult u v).

(** Column [j] of [A]. *)
Definition col (j : nat) (A : matrix) : list R :=
  map (fun r => nth j r 0) (rows A).

(** [A.T] *)
Definition transpose (A : matrix) : matrix :=
  Mat (nrows A) (map (fun j => col j A) (seq 0 (ncols A))).

(** The value of [A @ B]: entry (i, j) is the dot product of row i of [A]
    and column j of [B]. *)
Definition matmul_val (A B : matrix) : matrix :=
  Mat (ncols B)
    (map (fun a => map (fun j => dot a (col j B)) (seq 0 (ncols B))) (rows A)).

(** [A @ B] *)
Definition matmul (A B : matrix) : result matrix :=
  if (ncols A =? nrows B)%nat then Ok (matmul_val A B)
  else Raise ShapeMismatch.

(** Element-wise operation with a scalar, or a ufunc. *)
Definition mmap (f : R -> R) (A : matrix) : matrix :=
  Mat (ncols A) (map (map f) (rows A)).

(** The value of an element-wise operation on two arrays of one shape. *)
Definition mzip_val (f : R -> R -> R) (A B : matrix) : matrix :=
  Mat (ncols A) (zip_with (zip_with f) (rows A) (rows B)).

(** Element-wise operation on two arrays. *)
Definition mzip (f : R -> R -> R) (A B : matrix) : result matrix :=
  if same_shape A B then Ok (mzip_val f A B) else Raise ShapeMismatch.

(** Element-wise operation on two 1-D arrays. *)
Definition vzip (f : R -> R -> R) (u v : list R) : result (list R) :=
  if (length u =? length v)%nat
  then Ok (zip_with f u v)
  else Raise ShapeMismatch.

(** The value of [A * v] for a 2-D [A] and a 1-D [v]: [v] multiplies every
    row. *)
Definition mul_bcast_val (A : matrix) (v : list R) : matrix :=
  Mat (ncols A) (map (fun r => zip_with Rmult r v) (rows A)).

(** [A * v] for a 2-D [A] and a 1-D [v]. *)
Definition mul_bcast (A : matrix) (v : list R) : result matrix :=
  if (ncols A =? length v)%nat then Ok (mul_bcast_val A v)
  else Raise ShapeMismatch.

(** [np.sum(A)] *)
Definition np_sum (A : matrix) : R := vsum (map vsum (rows A)).

(** [np.ones((m, 1))] *)
Definition np_ones_col (m : nat) : matrix := Mat 1 (replicate m [1]).

(** [np.zeros(A.shape)] *)
Definition np_zeros_like (A : matrix) : matrix :=
  Mat (ncols A) (replicate (nrows A) (replicate (ncols A) 0)).

(** [np.column_stack([A, B])] *)
Definition column_stack (A B : matrix) : result matrix :=
  if (nrows A =? nrows B)%nat
  then Ok (Mat (ncols A + ncols B) (zip_with app (rows A) (rows B)))
  else Raise ShapeMismatch.

(** [A[:, 1:]] *)
Definition drop_col0 (A : matrix) : matrix :=
  Mat (ncols A - 1) (map (drop 1) (rows A)).

(** [A[i]], a 1-D array. *)
Definition row (i : nat) (A : matrix) : result (list R) :=
  match rows A !! i with
  | Some r => Ok r
  | None => Raise IndexError
  end.

(** [v[np.newaxis]]: the 1-D array as a matrix of one row. *)
Definition newaxis (v : list R) : matrix := Mat (length v) [v].

(** [A / m] for the batch size [m].  Dividing by [m = 0] turns every entry
    into inf or nan; an array without entries is left as it is. *)
Definition div_scalar (A : matrix) (m : nat) : result matrix :=
  if (m =? 0)%nat && negb (nrows A =? 0)%nat && negb (ncols A =? 0)%nat
  then Raise NonFiniteArray
  else Ok (mmap (fun x => x / INR m) A).

(** [np.ravel(A)] *)
Definition ravel (A : matrix) : list R := concat (rows A).

(** The rows of [np.reshape(v, (r, c))]. *)
Fixpoint chunks (r c : nat) (v : list R) : list (list R) :=
  match r with
  | O => []
  | S r' => take c v :: chunks r' c (drop c v)
  end.

(** [np.reshape(v, (r, c))] of a 1-D array. *)
Definition reshape (v : list R) (r c : nat) : result matrix :=
  if (length v =? r * c)%nat
  then Ok (Mat c (chunks r c v))
  else Raise ShapeMismatch.

#[global] Instance Rlt_decision (x y : R) : Decision (x < y) := Rlt_dec x y.

(** Every entry is positive: [np.log] of the array is finite. *)
Definition all_pos (A : matrix) : bool :=
  forallb (forallb (fun x => bool_decide (0 < x))) (rows A).

(** ** Practica 4: the sigmoid *)

(** [np.e] *)
Definition np_e : R := exp 1.

(** [sigmoid], logistic_reg.py: [g = 1 / (1 + (np.e ** -z))]. *)
Definition sigmoid (z : R) : R := 1 / (1 + Rpower np_e (- z)).

(** ** Practica 5: the heap of ndarrays *)

Definition loc := nat.
Abbreviation heap := (gmap nat matrix).

(** Computations on the heap that may raise. *)
Definition M (A : Type) : Type := heap -> result (A * heap).

#[global] Instance M_ret : MRet M := fun A a σ => Ok (a, σ).
#[global] Instance M_bind : MBind M := fun A B k c σ =>
  match c σ with
  | Ok (a, σ') => k a σ'
  | Raise e => Raise e
  end.

Definition lift {A} (r : result A) : M A := fun σ =>
  match r with
  | Ok a => Ok (a, σ)
  | Raise e => Raise e
  end.

Definition raise {A} (e : exn) : M A := fun _ => Raise e.

(** Read the array a name designates. *)
Definition deref (l : loc) : M matrix := fun σ =>
  match σ !! l with
  | Some A => Ok (A, σ)
  | None => Raise BadRef
  end.

(** A new array object. *)
Definition alloc (A : matrix) : M loc := fun σ =>
  let l := fresh (dom σ) in Ok (l, <[l := A]> σ).

(** Overwrite the contents of an existing array object. *)
Definition store (l : loc) (A : matrix) : M unit := fun σ =>
  match σ !! l with
  | Some _ => Ok (tt, <[l := A]> σ)
  | None => Raise BadRef
  end.

(** [a += E] *)
Definition iadd (a : loc) (E : matrix) : M unit :=
  A ← deref a;
  A' ← lift (mzip Rplus A E);
  store a A'.

(** [a -= E]: written into the memory of [a], which no other location of
    the heap shares. *)
Definition isub (a : loc) (E : matrix) : M unit :=
  A ← deref a;
  A' ← lift (mzip Rminus A E);
  store a A'.

(** [A] with column 0 divided by [m]. *)
Definition div_col0_val (A : matrix) (m : nat) : matrix :=
  Mat (ncols A)
    (map (fun r => match r with
                   | x :: t => x / INR m :: t
                   | [] => []
                   end) (rows A)).

(** [a[:, 0] /= m] *)
Definition idiv_col0 (a : loc) (m : nat) : M unit :=
  A ← deref a;
  if (ncols A =? 0)%nat then raise IndexError
  else if (m =? 0)%nat && negb (nrows A =? 0)%nat then raise NonFiniteArray
  else store a (div_col0_val A m).

(** [A] with the columns from 1 on replaced by [E]. *)
Definition set_cols1_val (A E : matrix) : matrix :=
  Mat (ncols A) (zip_with (fun r e => take 1 r ++ e) (rows A) (rows E)).

(** [a[:, 1:] = E] *)
Definition set_cols1 (a : loc) (E : matrix) : M unit :=
  A ← deref a;
  if same_shape (drop_col0 A) E then store a (set_cols1_val A E)
  else raise ShapeMismatch.

(** [for i in range(m): body i] *)
Fixpoint for_range (body : nat -> M unit) (i n : nat) : M unit :=
  match n with
  | O => mret tt
  | S n' => body i;; for_range body (S i) n'
  end.

Section nn.

(** [ut.sigmoid]: the module [utils] is not part of the sources; the
    activation is a parameter of the network functions. *)
Variable ut_sigmoid : R -> R.

(** [feed_forward], nn.py lines 6-18. *)
Definition feed_forward (theta1 theta2 X : matrix)
  : result (matrix * matrix * matrix) :=
  let m := nrows X in
  a1 ← column_stack (np_ones_col m) X;
  z2 ← matmul a1 (transpose theta1);
  let a2 := mmap ut_sigmoid z2 in
  a2 ← column_stack (np_ones_col m) a2;
  z3 ← matmul a2 (transpose theta2);
  let a3 := mmap ut_sigmoid z3 in
  mret (a3, a2, a1).

(** [cost], nn.py lines 50-58.  [np.log] is [ln] where its argument is
    positive; a non-positive argument makes the sum, and so [J], inf or nan,
    and so does the division by [m = 0]. *)
Definition cost (theta1 theta2 X y : matrix) (lambda_ : R) : result float :=
  let m := nrows X in
  '(h0, _, _) ← feed_forward theta1 theta2 X;
  let h0' := mmap (fun h => 1 - h) h0 in
  t1 ← mzip Rmult y (mmap ln h0);
  t0 ← mzip Rmult (mmap (fun v => 1 - v) y) (mmap ln h0');
  s ← mzip Rplus t1 t0;
  let cost := np_sum s in
  let reg_factor := np_sum (mmap (fun t => t ^ 2) (drop_col0 theta1))
                    + np_sum (mmap (fun t => t ^ 2) (drop_col0 theta2)) in
  mret (if all_pos h0 && all_pos h0' && negb (m =? 0)%nat
        then fin ((- cost / INR m) + (lambda_ * reg_factor / (2 * INR m)))
        else nonfin).

(** The body of the loop of [backprop], nn.py lines 109-116. *)
Definition backprop_body (theta2 y grad1 grad2 : loc) (a3 a2 a1 : matrix)
    (i : nat) : M unit :=
  a3i ← lift (row i a3);
  Y ← deref y;
  yi ← lift (row i Y);
  d ← lift (vzip Rminus a3i yi);
  let d3 := newaxis d in
  a2i ← lift (row i a2);
  gZ ← lift (vzip Rmult a2i (map (fun a => 1 - a) a2i));
  T2 ← deref theta2;
  p ← lift (matmul d3 T2);
  d2 ← lift (mul_bcast p gZ);
  let d2 := drop_col0 d2 in
  a1i ← lift (row i a1);
  u1 ← lift (matmul (transpose d2) (newaxis a1i));
  iadd grad1 u1;;
  u2 ← lift (matmul (transpose d3) (newaxis a2i));
  iadd grad2 u2.

(** [a[:, 1:] = (a[:, 1:] + lambda_ * t[:, 1:]) / m], nn.py lines 121-122. *)
Definition regularize (a t : loc) (lambda_ : R) (m : nat) : M unit :=
  A ← deref a;
  T ← deref t;
  s ← lift (mzip Rplus (drop_col0 A) (mmap (Rmult lambda_) (drop_col0 T)));
  E ← lift (div_scalar s m);
  set_cols1 a E.

(** [backprop], nn.py lines 100-124. *)
Definition backprop (theta1 theta2 X y : loc) (lambda_ : R)
  : M (float * loc * loc) :=
  X_ ← deref X;
  let m := nrows X_ in
  T1 ← deref theta1;
  T2 ← deref theta2;
  Y ← deref y;
  J ← lift (cost T1 T2 X_ Y lambda_);
  grad1 ← alloc (np_zeros_like T1);
  grad2 ← alloc (np_zeros_like T2);
  '(a3, a2, a1) ← lift (feed_forward T1 T2 X_);
  for_range (backprop_body theta2 y grad1 grad2 a3 a2 a1) 0 m;;
  idiv_col0 grad1 m;;
  idiv_col0 grad2 m;;
  regularize grad1 theta1 lambda_ m;;
  regularize grad2 theta2 lambda_ m;;
  mret (J, grad1, grad2).

(** The loop of [gradient], nn.py lines 128-132; [J] is the local variable,
    unbound until the first iteration assigns it. *)
Fixpoint gradient_loop (n : nat) (theta1 theta2 X y : loc) (alpha lambda_ : R)
    (J : option float) : M (option float) :=
  match n with
  | O => mret J
  | S n' =>
      '(J', grad1, grad2) ← backprop theta1 theta2 X y lambda_;
      G1 ← deref grad1;
      isub theta1 (mmap (Rmult alpha) G1);;
      G2 ← deref grad2;
      isub theta2 (mmap (Rmult alpha) G2);;
      gradient_loop n' theta1 theta2 X y alpha lambda_ (Some J')
  end.

(** [gradient], nn.py lines 127-134.  [range(num_iters)] is empty for a
    non-positive [num_iters]. *)
Definition gradient (theta1 theta2 X y : loc) (num_iters : Z)
    (alpha lambda_ : R) : M (float * loc * loc) :=
  J ← gradient_loop (Z.to_nat num_iters) theta1 theta2 X y alpha lambda_ None;
  match J with
  | Some j => mret (j, theta1, theta2)
  | None => raise UnboundLocalError
  end.

(** nn.py lines 139-140: the two matrices cut out of the flat vector. *)
Definition unflatten (theta : list R) (t1_s t2_s : nat * nat)
  : result (matrix * matrix) :=
  theta1 ← reshape (take (t1_s.1 * t1_s.2) theta) t1_s.1 t1_s.2;
  theta2 ← reshape (drop (t1_s.1 * t1_s.2) theta) t2_s.1 t2_s.2;
  mret (theta1, theta2).

(** nn.py line 146: [np.concatenate([np.ravel(grad1), np.ravel(grad2)])]. *)
Definition flatten (grad1 grad2 : matrix) : list R :=
  ravel grad1 ++ ravel grad2.

(** [backprop_min], nn.py lines 137-146. *)
Definition backprop_min (theta : list R) (X y : loc) (t1_s t2_s : nat * nat)
    (lambda_ : R) : M (float * list R) :=
  '(T1, T2) ← lift (unflatten theta t1_s t2_s);
  theta1 ← alloc T1;
  theta2 ← alloc T2;
  '(J, grad1, grad2) ← backprop theta1 theta2 X y lambda_;
  G1 ← deref grad1;
  G2 ← deref grad2;
  mret (J, flatten G1 G2).

End nn.

(** * The specification's formulas

    Written from the specification's words, to be compared with the functions
    above. *)

(** "prepend a column of ones" *)
Definition prepend_ones_spec (A : matrix) : matrix :=
  Mat (S (ncols A)) (map (fun r => 1 :: r) (rows A)).

(** "A . B^T": entry (i, j) is the dot product of row i of A and row j of B. *)
Definition matmul_T_spec (A B : matrix) : matrix :=
  Mat (nrows B) (map (fun a => map (fun b => dot a b) (rows B)) (rows A)).

(** Entry (i, j) of a matrix. *)
Definition entry (A : matrix) (i j : nat) : R := nth j (nth i (rows A) []) 0.

(** The sum of [f i] for [i] from 0 to [n - 1]. *)
Definition sum_n (n : nat) (f : nat -> R) : R := vsum (map f (seq 0 n)).

(** "sum over i, j of [Y_ij ln(h_ij) + (1 - Y_ij) ln(1 - h_ij)]" *)
Definition cross_entropy_spec (Y H : matrix) (m k : nat) : R :=
  sum_n m (fun i => sum_n k (fun j =>
    entry Y i j * ln (entry H i j)
    + (1 - entry Y i j) * ln (1 - entry H i j))).

(** "sum of squares of theta[:,1:]" for [theta] of shape r x (c+1): the
    bias column, column 0, is left out. *)
Definition sq_nobias_spec (T : matrix) (r c : nat) : R :=
  sum_n r (fun i => sum_n c (fun j => (entry T i (S j)) ^ 2)).

(** The regularized cost of the specification, for a final-layer output [H]
    of shape m x k, [theta1] of shape h x (n+1), [theta2] of shape
    k x (h+1). *)
Definition cost_spec (theta1 theta2 Y H : matrix) (lambda_ : R)
    (h n k m : nat) : R :=
  - (1 / INR m) * cross_entropy_spec Y H m k
  + (lambda_ / (2 * INR m))
    * (sq_nobias_spec theta1 h n + sq_nobias_spec theta2 k h).

(** [keeps σ0 c]: run from any heap that extends [σ0], [c] ends, when it
    returns, in a heap that still extends [σ0]: no object of [σ0] is
    modified. *)
Definition keeps {A} (σ0 : heap) (c : M A) : Prop :=
  forall σ a σ', σ0 ⊆ σ -> c σ = Ok (a, σ') -> σ0 ⊆ σ'.

(** The matrix of shape r x c whose entry (i, j) is [f i j]. *)
Definition mk_matrix (r c : nat) (f : nat -> nat -> R) : matrix :=
  Mat c (map (fun i => map (fun j => f i j) (seq 0 c)) (seq 0 r)).

Section backprop_spec.

(** Activations [a3], [a2], [a1] for m examples, targets [Y], weights
    [theta] of the layer, output size k. *)
Variables (a3 a2 a1 Y : matrix) (k m : nat) (lambda_ : R).

(** "d3 = a3[i] - Y[i]" *)
Definition d3_spec (i j : nat) : R := entry a3 i j - entry Y i j.

(** "gZ = a2[i] * (1 - a2[i])" *)
Definition gZ_spec (i c : nat) : R := entry a2 i c * (1 - entry a2 i c).

(** "d2 = (d3 . theta2) * gZ, then drop its first (bias) column": entry [c]
    of the result is entry [c + 1] of the product. *)
Definition d2_spec (theta2 : matrix) (i c : nat) : R :=
  sum_n k (fun j => d3_spec i j * entry theta2 j (S c)) * gZ_spec i (S c).

(** "grad1 += d2^T . a1[i]", summed over the examples. *)
Definition acc1_spec (theta2 : matrix) (r c : nat) : R :=
  sum_n m (fun i => d2_spec theta2 i r * entry a1 i c).

(** "grad2 += d3^T . a2[i]", summed over the examples. *)
Definition acc2_spec (r c : nat) : R :=
  sum_n m (fun i => d3_spec i r * entry a2 i c).

(** "grad[:,0] = grad[:,0] / m,
     grad[:,1:] = (grad[:,1:] + lambda * theta[:,1:]) / m" *)
Definition finalize_spec (acc : nat -> nat -> R) (theta : matrix)
    (r c : nat) : R :=
  match c with
  | O => acc r 0%nat / INR m
  | S _ => (acc r c + lambda_ * entry theta r c) / INR m
  end.

(** The gradients of the specification, for [theta1] of shape h x (n+1) and
    [theta2] of shape k x (h+1). *)
Definition grad1_spec (theta1 theta2 : matrix) (h n : nat) : matrix :=
  mk_matrix h (S n) (finalize_spec (acc1_spec theta2) theta1).

Definition grad2_spec (theta2 : matrix) (h : nat) : matrix :=
  mk_matrix k (S h) (finalize_spec acc2_spec theta2).

End backprop_spec.

(** ** Values computed by one iteration of the loop of [backprop]

    For example [i], with the activations [a3], [a2], [a1], the targets [Y]
    and the weights [T2] of the second layer. *)

(** [d3], nn.py line 109 *)
Definition body_d3 (a3 Y : matrix) (i : nat) : matrix :=
  newaxis (zip_with Rminus (nth i (rows a3) []) (nth i (rows Y) [])).

(** [gZ], nn.py line 111 *)
Definition body_gZ (a2 : matrix) (i : nat) : list R :=
  zip_with Rmult (nth i (rows a2) [])
    (map (fun a => 1 - a) (nth i (rows a2) [])).

(** [d2], nn.py lines 112-113 *)
Definition body_d2 (a3 a2 Y T2 : matrix) (i : nat) : matrix :=
  drop_col0 (mul_bcast_val (matmul_val (body_d3 a3 Y i) T2) (body_gZ a2 i)).

(** [d2.T @ a1[i, np.newaxis]], nn.py line 115 *)
Definition body_u1 (a3 a2 a1 Y T2 : matrix) (i : nat) : matrix :=
  matmul_val (transpose (body_d2 a3 a2 Y T2 i))
    (newaxis (nth i (rows a1) [])).

(** [d3.T @ a2[i, np.newaxis]], nn.py line 116 *)
Definition body_u2 (a3 a2 Y : matrix) (i : nat) : matrix :=
  matmul_val (transpose (body_d3 a3 Y i)) (newaxis (nth i (rows a2) [])).

(** The heap [σ] with the two gradient arrays set to [G1] and [G2]. *)
Definition with_grads (σ : heap) (g1 g2 : loc) (G1 G2 : matrix) : heap :=
  <[g2 := G2]> (<[g1 := G1]> σ).

(** "a1, a2, a3" of forward propagation, as the specification describes
    them. *)
Definition forward_spec (sg : R -> R) (theta1 theta2 X : matrix)
  : matrix * matrix * matrix :=
  let a1 := prepend_ones_spec X in
  let a2 := prepend_ones_spec (mmap sg (matmul_T_spec a1 theta1)) in
  let a3 := mmap sg (matmul_T_spec a2 theta2) in
  (a3, a2, a1).

(** "theta <- theta - alpha * grad" for both matrices, with the gradients of
    the specification. *)
Definition gd_step (sg : R -> R) (X Y : matrix) (alpha lambda_ : R)
    (h n k m : nat) (P : matrix * matrix) : matrix * matrix :=
  let '(a3, a2, a1) := forward_spec sg P.1 P.2 X in
  (mzip_val Rminus P.1
     (mmap (Rmult alpha) (grad1_spec a3 a2 a1 Y k m lambda_ P.1 P.2 h n)),
   mzip_val Rminus P.2
     (mmap (Rmult alpha) (grad2_spec a3 a2 Y k m lambda_ P.2 h))).

(** ** A concrete network

    The scenario of the specification: [theta1] a 2 x 3 matrix of zeros,
    [theta2] a 1 x 3 matrix of zeros, [X = [[1, 1]]], [Y = [[1]]]. *)
Definition ex_theta1 : matrix := Mat 3 [[0; 0; 0]; [0; 0; 0]].
Definition ex_theta2 : matrix := Mat 3 [[0; 0; 0]].
Definition ex_X : matrix := Mat 2 [[1; 1]].
Definition ex_Y : matrix := Mat 1 [[1]].

(** The four arrays at locations 0, 1, 2, 3. *)
Definition ex_heap : heap :=
  <[0%nat := ex_theta1]> (<[1%nat := ex_theta2]>
    (<[2%nat := ex_X]> (<[3%nat := ex_Y]> ∅))).

(** What the loop of [gradient] maintains: the four names designate the
    current weights [P] and the data. *)
Definition gd_inv (theta1 theta2 X y : loc) (X_ Y : matrix)
    (σ : heap) (P : matrix * matrix) : Prop :=
  σ !! theta1 = Some P.1 /\ σ !! theta2 = Some P.2 /\
  σ !! X = Some X_ /\ σ !! y = Some Y.

(** The weights have the shapes h x (n+1) and k x (h+1). *)
Definition weights_shape (h n k : nat) (P : matrix * matrix) : Prop :=
  has_shape h (S n) P.1 /\ has_shape k (S h) P.2.

(** Modelled from the spec: [utils.sigmoid] is not in the sources.  The
    specification (section 4.1) has the activation compute
    [1 / (1 + e^-z)] and lets extreme values saturate to exactly 0 or 1 in
    floating point.  In float64, for [z < -710] the power [e^-z] overflows
    to inf and [1 / (1 + inf)] is 0.0; for [z > 37] it is below half an ulp
    of 1, [1 + e^-z] rounds to 1.0 and the quotient is 1.0.  Between the two
    the rounding is left out. *)
Definition sigmoid_fp64 (z : R) : R :=
  if Rlt_dec z (-710) then 0
  else if Rlt_dec 37 z then 1
  else sigmoid z.

(** Output weights with a bias of -1000. *)
Definition ex_theta2_sat : matrix := Mat 3 [[-1000; 0; 0]].

(** The output weights of the concrete network after one update with
    [alpha = 1], [lambda_ = 0]. *)
Definition ex_theta2_next : matrix := Mat 3 [[1 / 2; 1 / 4; 1 / 4]].

(** A flat parameter vector for the concrete network: 2 x 3 and 1 x 3. *)
Definition ex_flat : list R := [0; 0; 0; 0; 0; 0; 0; 0; 0].

(** * Practica 4: logistic regression, logistic_reg.py

    The targets [y] are an array of dtype int64, numpy's default for
    integers: [~] is the bitwise complement, which numpy defines on integer
    arrays only (on a float array [~y] raises TypeError, which the type of
    [y] leaves out), and the arithmetic of the array wraps around.  An
    entry of [y] is an integer from [-2^63] to [2^63 - 1]. *)
Module LogReg.

(** The int64 value of an integer: arithmetic on int64 arrays wraps. *)
Definition wrap64 (z : Z) : Z := ((z + 2 ^ 63) mod 2 ^ 64 - 2 ^ 63)%Z.

(** [X @ w] for a 2-D [X] and a 1-D [w]. *)
Definition matvec (X : matrix) (w : list R) : result (list R) :=
  if (ncols X =? length w)%nat then Ok (map (fun r => dot r w) (rows X))
  else Raise ShapeMismatch.

(** [u @ v] for two 1-D arrays. *)
Definition vdot (u v : list R) : result R :=
  if (length u =? length v)%nat then Ok (dot u v) else Raise ShapeMismatch.

(** [compute_cost], logistic_reg.py lines 23-43; [lambda_] is the unused
    placeholder.  [~y] stays within int64, [1 - y] wraps. *)
Definition compute_cost (X : matrix) (y : list Z) (w : list R) (b : R)
    (lambda_ : option R) : result float :=
  let m := nrows X in
  z ← matvec X w;
  let f_wb := map (fun t => sigmoid (t + b)) z in
  s1 ← vdot (map IZR (map Z.lnot y)) (map ln f_wb);
  s0 ← vdot (map (fun v => IZR (wrap64 (1 - v))) y)
         (map (fun f => ln (1 - f)) f_wb);
  let loss := s1 - s0 in
  mret (if (m =? 0)%nat then nonfin else fin (loss / INR m)).

(** [compute_gradient], logistic_reg.py lines 46-70.  For an empty batch
    [dj_db] is 0/0 and so is every entry of [dj_dw]. *)
Definition compute_gradient (X : matrix) (y : list Z) (w : list R) (b : R)
    (lambda_ : option R) : result (list R * R) :=
  let m := nrows X in
  z ← matvec X w;
  d ← vzip Rminus (map (fun t => sigmoid (t + b)) z) (map IZR y);
  dj_dw ← matvec (transpose X) d;
  z' ← matvec X w;
  d' ← vzip Rminus (map (fun t => sigmoid (t + b)) z') (map IZR y);
  let dj_db := vsum d' in
  if (m =? 0)%nat then Raise NonFiniteArray
  else mret (map (fun g => g / INR m) dj_dw, dj_db / INR m).

(** [compute_cost_reg], logistic_reg.py lines 75-94.  [lambda_] is taken as
    a numpy float; with a Python number [lambda_ / (2 * m)] raises
    ZeroDivisionError for an empty batch, where this function returns
    [nonfin]. *)
Definition compute_cost_reg (X : matrix) (y : list Z) (w : list R) (b : R)
    (lambda_ : R) : result float :=
  let m := nrows X in
  let reg_factor := (lambda_ / (2 * INR m)) * vsum (map (fun t => t ^ 2) w) in
  c ← compute_cost X y w b None;
  mret (match c with
        | fin c => fin (c + reg_factor)
        | nonfin => nonfin
        end).

(** [compute_gradient_reg], logistic_reg.py lines 96-118. *)
Definition compute_gradient_reg (X : matrix) (y : list Z) (w : list R) (b : R)
    (lambda_ : R) : result (list R * R) :=
  let m := nrows X in
  let reg_factor := map (fun t => lambda_ * t / INR m) w in
  '(dj_dw, dj_db) ← compute_gradient X y w b None;
  dj_dw ← vzip Rplus dj_dw reg_factor;
  mret (dj_dw, dj_db).

(** [np.round]: to the nearest integer, a tie to the even one. *)
Definition np_round (x : R) : R :=
  let f := Int_part x in
  let d := frac_part x in
  if Rlt_dec d (1 / 2) then IZR f
  else if Rlt_dec (1 / 2) d then IZR (f + 1)
  else if Z.even f then IZR f else IZR (f + 1).

(** [predict], logistic_reg.py lines 165-182. *)
Definition predict (X : matrix) (w : list R) (b : R) : result (list R) :=
  z ← matvec X w;
  let f_wb := map (fun t => sigmoid (t + b)) z in
  mret (map np_round f_wb).

(** ** The heap of 1-D arrays of gradient_descent *)

Abbreviation vheap := (gmap nat (list R)).

Definition VM (A : Type) : Type := vheap -> result (A * vheap).

#[global] Instance VM_ret : MRet VM := fun A a σ => Ok (a, σ).
#[global] Instance VM_bind : MBind VM := fun A B k c σ =>
  match c σ with
  | Ok (a, σ') => k a σ'
  | Raise e => Raise e
  end.

Definition vlift {A} (r : result A) : VM A := fun σ =>
  match r with
  | Ok a => Ok (a, σ)
  | Raise e => Raise e
  end.

Definition vderef (l : loc) : VM (list R) := fun σ =>
  match σ !! l with
  | Some v => Ok (v, σ)
  | None => Raise BadRef
  end.

Definition valloc (v : list R) : VM loc := fun σ =>
  let l := fresh (dom σ) in Ok (l, <[l := v]> σ).

Definition vstore (l : loc) (v : list R) : VM unit := fun σ =>
  match σ !! l with
  | Some _ => Ok (tt, <[l := v]> σ)
  | None => Raise BadRef
  end.

(** The loop of [gradient_descent], logistic_reg.py lines 151-158.  The two
    functions read the arrays they are given and modify none of them; [X],
    [y] and [lambda_] are only handed on to them. *)
Fixpoint gd_loop {XT YT LT : Type} (n : nat) (X : XT) (y : YT) (w : loc)
    (b : R) (cost_function : XT -> YT -> list R -> R -> result float)
    (gradient_function : XT -> YT -> list R -> R -> LT -> result (list R * R))
    (alpha : R) (lambda_ : LT) (J_history : list float)
  : VM (R * list float) :=
  match n with
  | O => mret (b, J_history)
  | S n' =>
      W ← vderef w;
      '(dj_dw, dj_db) ← vlift (gradient_function X y W b lambda_);
      W' ← vlift (vzip Rminus W (map (Rmult alpha) dj_dw));
      vstore w W';;
      let b := b - alpha * dj_db in
      W ← vderef w;
      cost ← vlift (cost_function X y W b);
      gd_loop n' X y w b cost_function gradient_function alpha lambda_
        (J_history ++ [cost])
  end.

(** [gradient_descent], logistic_reg.py lines 123-160: [w] is a deep copy of
    [w_in], a new array. *)
Definition gradient_descent {XT YT LT : Type} (X : XT) (y : YT) (w_in : loc)
    (b_in : R) (cost_function : XT -> YT -> list R -> R -> result float)
    (gradient_function : XT -> YT -> list R -> R -> LT -> result (list R * R))
    (alpha : R) (num_iters : Z) (lambda_ : LT)
  : VM (loc * R * list float) :=
  let J_history := [] in
  W0 ← vderef w_in;
  w ← valloc W0;
  let b := b_in in
  '(b, J_history) ← gd_loop (Z.to_nat num_iters) X y w b cost_function
                      gradient_function alpha lambda_ J_history;
  mret (w, b, J_history).

End LogReg.

(** Reference formulas for the logistic model. *)
Module LogRegSpec.

(** The model output [sigmoid(X_i . w + b)] of every example. *)
Definition f_wb (X : matrix) (w : list R) (b : R) : list R :=
  map (fun r => sigmoid (dot r w + b)) (rows X).

(** The cross-entropy sum [sum_i (- y_i ln f_i - (1 - y_i) ln (1 - f_i))]. *)
Definition xent (y : list Z) (f : list R) : R :=
  vsum (zip_with (fun yi fi => - IZR yi * ln fi - (1 - IZR yi) * ln (1 - fi))
          y f).

(** The sum that [compute_cost] forms on the int64 array [y]. *)
Definition xent_int64 (y : list Z) (f : list R) : R :=
  vsum (zip_with (fun yi fi => IZR (Z.lnot yi) * ln fi
                               - IZR (LogReg.wrap64 (1 - yi)) * ln (1 - fi))
          y f).

(** The same sum when [1 - y] does not wrap: [~y] is [-(y + 1)]. *)
Definition xent_lnot (y : list Z) (f : list R) : R :=
  vsum (zip_with (fun yi fi => - (IZR yi + 1) * ln fi
                               - (1 - IZR yi) * ln (1 - fi)) y f).

(** The label of a model output: 1 when the output is above one half. *)
Definition label (f : R) : R := if Rlt_dec (1 / 2) f then 1 else 0.

End LogRegSpec.

(** A heap with one weight vector, at location 0. *)
Definition ex_wheap : LogReg.vheap := {[0%nat := [0; 0]]}.

(** Two examples: one off the decision boundary, one on it for [b = 0]. *)
Definition ex_X2 : matrix := Mat 2 [[1; 1]; [0; 0]].

(** The concrete network with the output weights after one update. *)
Definition ex_heap_next : heap := <[1%nat := ex_theta2_next]> ex_heap.

(** ** Practica 2: linear regression with several features *)

(** The functions of multi_linear_reg.py.  [y] is an array of floats here. *)
Module LinReg.

(** [np.mean] of the entries of an array. *)
Definition np_mean (v : list R) : R := vsum v / INR (length v).

(** [np.std] of the entries of an array: the square root of the mean of the
    squared deviations from the mean. *)
Definition np_std (v : list R) : R :=
  sqrt (np_mean (map (fun x => (x - np_mean v) ^ 2) v)).

(** [zscore_normalize_features], multi_linear_reg.py lines 4-21.  [np.mean]
    and [np.std] are called without an axis: [mu] and [sigma] are scalars,
    taken over all the entries of [X].  For an array without entries both are
    nan and there is no entry to change; for [sigma = 0] every entry of
    [X_norm] is 0/0.  Over the reals [sigma] is 0 exactly when the entries
    are all equal; the rounding of float64, which can decide otherwise, is
    not modelled. *)
Definition zscore_normalize_features (X : matrix)
  : result (matrix * float * float) :=
  if (length (ravel X) =? 0)%nat then Ok (X, nonfin, nonfin)
  else
    let mu := np_mean (ravel X) in
    let sigma := np_std (ravel X) in
    if Req_dec_T sigma 0 then Raise NonFiniteArray
    else Ok (mmap (fun x => (x - mu) / sigma) X, fin mu, fin sigma).

(** [compute_cost], multi_linear_reg.py lines 24-52. *)
Definition compute_cost (X : matrix) (y w : list R) (b : R) : result float :=
  let m := nrows X in
  z ← LogReg.matvec X w;
  let f_wb := map (fun t => t + b) z in
  e ← vzip Rminus f_wb y;
  let cost := vsum (map (fun t => t ^ 2) e) in
  mret (if (m =? 0)%nat then nonfin else fin (cost / (2 * INR m))).

(** [compute_gradient], multi_linear_reg.py lines 55-90.  For an empty batch
    [dj_db] is 0/0 and so is every entry of [dj_dw]. *)
Definition compute_gradient (X : matrix) (y w : list R) (b : R)
  : result (list R * R) :=
  let m := nrows X in
  z ← LogReg.matvec X w;
  let f_wb := map (fun t => t + b) z in
  e ← vzip Rminus f_wb y;
  dj_dw ← LogReg.matvec (transpose X) e;
  e' ← vzip Rminus f_wb y;
  let dj_db := vsum e' in
  if (m =? 0)%nat then Raise NonFiniteArray
  else mret (map (fun g => g / INR m) dj_dw, dj_db / INR m).

(** The loop of [gradient_descent], multi_linear_reg.py lines 121-128. *)
Fixpoint gd_loop {XT YT : Type} (n : nat) (X : XT) (y : YT) (w : loc)
    (b : R) (cost_function : XT -> YT -> list R -> R -> result float)
    (gradient_function : XT -> YT -> list R -> R -> result (list R * R))
    (alpha : R) (J_history : list float)
  : LogReg.VM (R * list float) :=
  match n with
  | O => mret (b, J_history)
  | S n' =>
      W ← LogReg.vderef w;
      '(dj_dw, dj_db) ← LogReg.vlift (gradient_function X y W b);
      W' ← LogReg.vlift (vzip Rminus W (map (Rmult alpha) dj_dw));
      LogReg.vstore w W';;
      let b := b - alpha * dj_db in
      W ← LogReg.vderef w;
      cost ← LogReg.vlift (cost_function X y W b);
      gd_loop n' X y w b cost_function gradient_function alpha
        (J_history ++ [cost])
  end.

(** [gradient_descent], multi_linear_reg.py lines 93-130: [w] is a deep copy
    of [w_in], a new array. *)
Definition gradient_descent {XT YT : Type} (X : XT) (y : YT) (w_in : loc)
    (b_in : R) (cost_function : XT -> YT -> list R -> R -> result float)
    (gradient_function : XT -> YT -> list R -> R -> result (list R * R))
    (alpha : R) (num_iters : Z)
  : LogReg.VM (loc * R * list float) :=
  let J_history := [] in
  W0 ← LogReg.vderef w_in;
  w ← LogReg.valloc W0;
  let b := b_in in
  '(b, J_history) ← gd_loop (Z.to_nat num_iters) X y w b cost_function
                      gradient_function alpha J_history;
  mret (w, b, J_history).

End LinReg.

(** Reference formulas for the linear model. *)
Module LinRegSpec.

(** The model output [X_i . w + b] of every example. *)
Definition f_wb (X : matrix) (w : list R) (b : R) : list R :=
  map (fun r => dot r w + b) (rows X).

(** The residuals [X_i . w + b - y_i]. *)
Definition resid (X : matrix) (y w : list R) (b : R) : list R :=
  zip_with Rminus (f_wb X w b) y.

End LinRegSpec.

(** A feature array whose two columns have different means. *)
Definition ex_features : matrix := Mat 2 [[0; 2]].

(** * Properties *)

(** ** The sigmoid *)

Lemma np_e_power (x : R) : Rpower np_e x = exp x.
Proof.
  unfold Rpower, np_e. rewrite ln_exp. f_equal. lra.
Qed.

Lemma sigmoid_exp (z : R) : sigmoid z = 1 / (1 + exp (- z)).
Proof. unfold sigmoid. now rewrite np_e_power. Qed.

Lemma sigmoid_pos (z : R) : 0 < sigmoid z.
Proof.
  rewrite sigmoid_exp. pose proof (exp_pos (- z)).
  apply Rdiv_lt_0_compat; lra.
Qed.

Lemma sigmoid_lt_1 (z : R) : sigmoid z < 1.
Proof.
  rewrite sigmoid_exp. pose proof (exp_pos (- z)).
  apply Rmult_lt_reg_r with (1 + exp (- z)); [lra|].
  unfold Rdiv. rewrite Rmult_assoc, Rinv_l; lra.
Qed.

Lemma sigmoid_0 : sigmoid 0 = 1 / 2.
Proof.
  rewrite sigmoid_exp. replace (- 0) with 0 by lra. rewrite exp_0. lra.
Qed.

Lemma sigmoid_increasing (z1 z2 : R) : z1 < z2 -> sigmoid z1 < sigmoid z2.
Proof.
  intros Hlt. rewrite !sigmoid_exp.
  pose proof (exp_pos (- z1)). pose proof (exp_pos (- z2)).
  assert (exp (- z2) < exp (- z1)) by (apply exp_increasing; lra).
  unfold Rdiv. rewrite !Rmult_1_l.
  apply Rinv_lt_contravar; [|lra].
  apply Rmult_lt_0_compat; lra.
Qed.

(** C7: [sigmoid z] is [1 / (1 + e^-z)]; it lies strictly between 0 and 1,
    is exactly one half at 0 and is strictly increasing. *)
Theorem sigmoid_spec :
  (forall z, sigmoid z = 1 / (1 + exp (- z))) /\
  (forall z, 0 < sigmoid z < 1) /\
  sigmoid 0 = 1 / 2 /\
  (forall z1 z2, z1 < z2 -> sigmoid z1 < sigmoid z2).
Proof.
  split; [exact sigmoid_exp|].
  split; [intros z; split; [apply sigmoid_pos | apply sigmoid_lt_1]|].
  split; [exact sigmoid_0 | exact sigmoid_increasing].
Qed.

Lemma sigmoid_spec_witness : sigmoid 0 < sigmoid 1.
Proof.
  apply (proj2 (proj2 (proj2 sigmoid_spec)) 0 1). lra.
Defined.

(** ** Reshape and ravel *)

Lemma chunks_length (r c : nat) (v : list R) : length (chunks r c v) = r.
Proof.
  revert v. induction r as [|r IH]; intros v; simpl; [reflexivity|].
  now rewrite IH.
Qed.

Lemma chunks_concat (r c : nat) (v : list R) :
  length v = (r * c)%nat -> concat (chunks r c v) = v.
Proof.
  revert v. induction r as [|r IH]; intros v Hlen; simpl in *.
  - symmetry. now apply nil_length_inv.
  - rewrite IH; [apply take_drop|].
    rewrite length_drop. lia.
Qed.

Lemma chunks_wf (r c : nat) (v : list R) :
  length v = (r * c)%nat -> Forall (fun x => length x = c) (chunks r c v).
Proof.
  revert v. induction r as [|r IH]; intros v Hlen; simpl in *; constructor.
  - rewrite length_take. lia.
  - apply IH. rewrite length_drop. lia.
Qed.

Lemma chunks_of_concat (c : nat) (l : list (list R)) (w : list R) :
  Forall (fun x => length x = c) l ->
  chunks (length l) c (concat l ++ w) = l.
Proof.
  induction 1 as [|x l Hx _ IH]; simpl; [reflexivity|].
  rewrite <- app_assoc.
  rewrite take_app_length' by done.
  rewrite drop_app_length' by done.
  now rewrite IH.
Qed.

Lemma concat_length_wf (c : nat) (l : list (list R)) :
  Forall (fun x => length x = c) l -> length (concat l) = (length l * c)%nat.
Proof.
  induction 1 as [|x l Hx _ IH]; simpl; [reflexivity|].
  rewrite length_app. lia.
Qed.

Lemma reshape_ok (v : list R) (r c : nat) :
  length v = (r * c)%nat ->
  reshape v r c = Ok (Mat c (chunks r c v)).
Proof.
  intros Hlen. unfold reshape.
  now rewrite (proj2 (Nat.eqb_eq _ _) Hlen).
Qed.

(** C6: unflattening a flat vector of length [r1*c1 + r2*c2] succeeds, gives
    matrices of shapes [(r1, c1)] and [(r2, c2)], and flattening them gives
    the vector back. *)
Theorem flatten_unflatten (v : list R) (r1 c1 r2 c2 : nat) :
  length v = (r1 * c1 + r2 * c2)%nat ->
  exists T1 T2,
    unflatten v (r1, c1) (r2, c2) = Ok (T1, T2) /\
    has_shape r1 c1 T1 /\ has_shape r2 c2 T2 /\
    flatten T1 T2 = v.
Proof.
  intros Hlen.
  assert (H1 : length (take (r1 * c1) v) = (r1 * c1)%nat)
    by (rewrite length_take; lia).
  assert (H2 : length (drop (r1 * c1) v) = (r2 * c2)%nat)
    by (rewrite length_drop; lia).
  exists (Mat c1 (chunks r1 c1 (take (r1 * c1) v))),
         (Mat c2 (chunks r2 c2 (drop (r1 * c1) v))).
  split.
  - unfold unflatten; simpl.
    rewrite (reshape_ok _ _ _ H1), (reshape_ok _ _ _ H2). reflexivity.
  - unfold has_shape, nrows, wf, flatten, ravel; simpl.
    rewrite !chunks_length, !chunks_concat by done.
    repeat split; auto using chunks_wf, take_drop.
Qed.

Lemma flatten_unflatten_witness :
  exists T1 T2,
    unflatten [1; 2; 3; 4; 5] (1%nat, 2%nat) (3%nat, 1%nat) = Ok (T1, T2) /\
    has_shape 1 2 T1 /\ has_shape 3 1 T2 /\
    flatten T1 T2 = [1; 2; 3; 4; 5].
Proof.
  apply (flatten_unflatten [1; 2; 3; 4; 5] 1 2 3 1). reflexivity.
Defined.

(** The other direction: cutting the flattened pair back gives the pair. *)
Lemma unflatten_flatten (T1 T2 : matrix) (r1 c1 r2 c2 : nat) :
  has_shape r1 c1 T1 -> has_shape r2 c2 T2 ->
  unflatten (flatten T1 T2) (r1, c1) (r2, c2) = Ok (T1, T2).
Proof.
  intros (Hr1 & Hc1 & Hw1) (Hr2 & Hc2 & Hw2).
  destruct T1 as [n1 l1], T2 as [n2 l2].
  unfold nrows, wf, flatten, ravel, unflatten in *; simpl in *. subst.
  pose proof (concat_length_wf _ _ Hw1) as L1.
  pose proof (concat_length_wf _ _ Hw2) as L2.
  rewrite <- L1, take_app_length, drop_app_length.
  rewrite (reshape_ok _ _ _ L1), (reshape_ok _ _ _ L2). simpl.
  pose proof (chunks_of_concat _ _ [] Hw1) as E1.
  pose proof (chunks_of_concat _ _ [] Hw2) as E2.
  rewrite app_nil_r in E1, E2. now rewrite E1, E2.
Qed.

(** ** Shapes of the array operations *)

Lemma has_shape_intro (r c : nat) (l : list (list R)) :
  length l = r -> Forall (fun x => length x = c) l -> has_shape r c (Mat c l).
Proof. intros; repeat split; assumption. Qed.

Lemma mmap_shape (f : R -> R) (r c : nat) (A : matrix) :
  has_shape r c A -> has_shape r c (mmap f A).
Proof.
  intros (Hr & Hc & Hw). unfold has_shape, nrows, wf, mmap in *; simpl.
  rewrite length_map. repeat split; try assumption.
  apply Forall_map. eapply Forall_impl; [exact Hw|].
  intros x Hx; simpl. now rewrite length_map.
Qed.

Lemma prepend_ones_shape (r c : nat) (A : matrix) :
  has_shape r c A -> has_shape r (S c) (prepend_ones_spec A).
Proof.
  intros (Hr & Hc & Hw). unfold has_shape, nrows, wf in *; simpl.
  rewrite length_map. repeat split; try congruence.
  apply Forall_map. eapply Forall_impl; [exact Hw|].
  intros x Hx; simpl. now rewrite Hx.
Qed.

Lemma matmul_T_shape (r k : nat) (A B : matrix) :
  nrows A = r -> nrows B = k -> has_shape r k (matmul_T_spec A B).
Proof.
  intros Hr Hk. unfold has_shape, nrows, wf in *; simpl.
  rewrite length_map. repeat split; try assumption.
  apply Forall_map, Forall_forall. intros x _; simpl. now rewrite length_map.
Qed.

Lemma zip_with_app_ones (l : list (list R)) :
  zip_with app (replicate (length l) [1]) l = map (fun r => 1 :: r) l.
Proof. induction l as [|x l IH]; simpl; [reflexivity | now rewrite IH]. Qed.

Lemma column_stack_ones (A : matrix) :
  column_stack (np_ones_col (nrows A)) A = Ok (prepend_ones_spec A).
Proof.
  unfold column_stack, np_ones_col, nrows, prepend_ones_spec; simpl.
  rewrite length_replicate, Nat.eqb_refl, zip_with_app_ones. reflexivity.
Qed.

Lemma map_nth_seq (r : list R) :
  map (fun j => nth j r 0) (seq 0 (length r)) = r.
Proof.
  induction r as [|x r IH]; simpl; [reflexivity|].
  f_equal. rewrite <- seq_shift, map_map. exact IH.
Qed.

Lemma nth_col (j i : nat) (A : matrix) :
  nth i (col j A) 0 = nth j (nth i (rows A) []) 0.
Proof.
  unfold col.
  replace 0 with ((fun r : list R => nth j r 0) []) at 1
    by (destruct j; reflexivity).
  exact (map_nth (fun r : list R => nth j r 0) (rows A) [] i).
Qed.

Lemma col_transpose (A : matrix) (i : nat) (r : list R) :
  wf A -> rows A !! i = Some r -> col i (transpose A) = r.
Proof.
  intros Hw Hi. unfold col at 1, transpose; simpl. rewrite map_map.
  assert (Hlen : length r = ncols A).
  { unfold wf in Hw. rewrite Forall_lookup in Hw. exact (Hw _ _ Hi). }
  rewrite <- Hlen.
  transitivity (map (fun j => nth j r 0) (seq 0 (length r)));
    [|apply map_nth_seq].
  apply map_ext. intros j. rewrite nth_col.
  now rewrite (nth_lookup_Some _ _ _ _ Hi).
Qed.

Lemma map_seq_lookup {B} (g : nat -> B) (f : list R -> B) (l : list (list R)) :
  (forall i r, l !! i = Some r -> g i = f r) ->
  map g (seq 0 (length l)) = map f l.
Proof.
  revert g. induction l as [|x l IH]; intros g Hg; simpl; [reflexivity|].
  f_equal; [exact (Hg 0%nat x eq_refl)|].
  rewrite <- seq_shift, map_map. apply IH.
  intros i r Hi. exact (Hg (S i) r Hi).
Qed.

Lemma matmul_transpose (A B : matrix) :
  wf B -> ncols A = ncols B ->
  matmul A (transpose B) = Ok (matmul_T_spec A B).
Proof.
  intros Hw Hc. unfold matmul, matmul_val, matmul_T_spec.
  replace (nrows (transpose B)) with (ncols B)
    by (unfold nrows, transpose; simpl; now rewrite length_map, length_seq).
  rewrite (proj2 (Nat.eqb_eq _ _) Hc). simpl. do 2 f_equal.
  apply map_ext. intros a. unfold nrows.
  apply map_seq_lookup. intros i r Hi. now rewrite (col_transpose _ _ _ Hw Hi).
Qed.

(** ** Forward propagation *)

Section forward.

Variable sg : R -> R.

Lemma feed_forward_ok (theta1 theta2 X : matrix) (h n k m : nat) :
  has_shape h (S n) theta1 -> has_shape k (S h) theta2 -> has_shape m n X ->
  feed_forward sg theta1 theta2 X =
    Ok (mmap sg (matmul_T_spec
                   (prepend_ones_spec
                      (mmap sg (matmul_T_spec (prepend_ones_spec X) theta1)))
                   theta2),
        prepend_ones_spec (mmap sg (matmul_T_spec (prepend_ones_spec X) theta1)),
        prepend_ones_spec X).
Proof.
  intros (Hr1 & Hc1 & Hw1) (Hr2 & Hc2 & Hw2) (HrX & HcX & HwX).
  unfold feed_forward.
  rewrite column_stack_ones. simpl.
  rewrite matmul_transpose by (simpl; congruence). simpl.
  replace (nrows X)
    with (nrows (mmap sg (matmul_T_spec (prepend_ones_spec X) theta1)))
    by (unfold nrows; simpl; now rewrite !length_map).
  rewrite column_stack_ones. simpl.
  rewrite matmul_transpose by (simpl; congruence). reflexivity.
Qed.

End forward.

(** C4: on matrices of the stated shapes [feed_forward] returns
    [(a3, a2, a1)] with [a1] the input with a column of ones prepended, [a2]
    the sigmoid of [a1 . theta1^T] with a column of ones prepended and [a3]
    the sigmoid of [a2 . theta2^T], of shapes m x (n+1), m x (h+1), m x k. *)
Theorem feed_forward_spec (sg : R -> R) (theta1 theta2 X : matrix)
    (h n k m : nat) :
  has_shape h (S n) theta1 -> has_shape k (S h) theta2 -> has_shape m n X ->
  exists a3 a2 a1,
    feed_forward sg theta1 theta2 X = Ok (a3, a2, a1) /\
    a1 = prepend_ones_spec X /\
    a2 = prepend_ones_spec (mmap sg (matmul_T_spec a1 theta1)) /\
    a3 = mmap sg (matmul_T_spec a2 theta2) /\
    has_shape m (S n) a1 /\ has_shape m (S h) a2 /\ has_shape m k a3.
Proof.
  intros H1 H2 HX. do 3 eexists.
  split; [exact (feed_forward_ok sg _ _ _ _ _ _ _ H1 H2 HX)|].
  assert (Ha1 : has_shape m (S n) (prepend_ones_spec X))
    by now apply prepend_ones_shape.
  assert (Ha2 : has_shape m (S h)
            (prepend_ones_spec
               (mmap sg (matmul_T_spec (prepend_ones_spec X) theta1)))).
  { apply prepend_ones_shape, mmap_shape, matmul_T_shape;
      [apply Ha1 | apply H1]. }
  do 3 (split; [reflexivity|]).
  split; [exact Ha1|]. split; [exact Ha2|].
  apply mmap_shape, matmul_T_shape; [apply Ha2 | apply H2].
Qed.

(** ** Sums over entries *)

Lemma map_nth_seq_gen {A} (d : A) (l : list A) :
  map (fun i => nth i l d) (seq 0 (length l)) = l.
Proof.
  induction l as [|x l IH]; simpl; [reflexivity|].
  f_equal. rewrite <- seq_shift, map_map. exact IH.
Qed.

Lemma sum_n_ext (n : nat) (f g : nat -> R) :
  (forall i, (i < n)%nat -> f i = g i) -> sum_n n f = sum_n n g.
Proof.
  intros Hfg. unfold sum_n. f_equal. apply map_ext_in.
  intros i Hi. apply in_seq in Hi. apply Hfg. lia.
Qed.

Lemma vsum_sum_n (v : list R) : vsum v = sum_n (length v) (fun j => nth j v 0).
Proof. unfold sum_n. now rewrite map_nth_seq_gen. Qed.

Lemma nth_row_length (r c i : nat) (A : matrix) :
  has_shape r c A -> (i < r)%nat -> length (nth i (rows A) []) = c.
Proof.
  intros (Hr & Hc & Hw) Hi. unfold nrows, wf in *.
  rewrite Forall_forall in Hw. rewrite <- Hc.
  apply Hw, list_elem_of_In, nth_In. lia.
Qed.

Lemma np_sum_entries (r c : nat) (A : matrix) :
  has_shape r c A ->
  np_sum A = sum_n r (fun i => sum_n c (fun j => entry A i j)).
Proof.
  intros HA. pose proof HA as (Hr & _ & _). unfold nrows in Hr.
  unfold np_sum.
  rewrite <- (map_nth_seq_gen [] (rows A)) at 1.
  rewrite map_map, Hr. fold (sum_n r (fun i => vsum (nth i (rows A) []))).
  apply sum_n_ext. intros i Hi.
  rewrite vsum_sum_n, (nth_row_length r c i A HA Hi). reflexivity.
Qed.

Lemma nth_zip_with (f : R -> R -> R) (u v : list R) (j : nat) :
  (j < length u)%nat -> (j < length v)%nat ->
  nth j (zip_with f u v) 0 = f (nth j u 0) (nth j v 0).
Proof.
  revert v j. induction u as [|x u IH]; intros [|y v] [|j] Hu Hv;
    simpl in *; try lia; [reflexivity|].
  apply IH; lia.
Qed.

Lemma nth_zip_with_rows (f : list R -> list R -> list R)
    (l1 l2 : list (list R)) (i : nat) :
  (i < length l1)%nat -> (i < length l2)%nat ->
  nth i (zip_with f l1 l2) [] = f (nth i l1 []) (nth i l2 []).
Proof.
  revert l2 i. induction l1 as [|x l1 IH]; intros [|y l2] [|i] H1 H2;
    simpl in *; try lia; [reflexivity|].
  apply IH; lia.
Qed.

Lemma entry_mmap (f : R -> R) (A : matrix) (r c i j : nat) :
  has_shape r c A -> (i < r)%nat -> (j < c)%nat ->
  entry (mmap f A) i j = f (entry A i j).
Proof.
  intros HA Hi Hj. pose proof (nth_row_length r c i A HA Hi) as Hlen.
  destruct HA as (Hr & _ & _). unfold nrows in Hr.
  unfold entry, mmap; simpl.
  rewrite (nth_indep _ [] (map f [])) by (rewrite length_map; lia).
  rewrite map_nth.
  rewrite (nth_indep _ 0 (f 0)) by (rewrite length_map; lia).
  apply map_nth.
Qed.

Lemma mzip_ok (f : R -> R -> R) (A B : matrix) (r c : nat) :
  has_shape r c A -> has_shape r c B -> mzip f A B = Ok (mzip_val f A B).
Proof.
  intros (Hr1 & Hc1 & _) (Hr2 & Hc2 & _). unfold mzip, same_shape.
  rewrite Hr1, Hr2, Hc1, Hc2, !Nat.eqb_refl. reflexivity.
Qed.

Lemma mzip_val_shape (f : R -> R -> R) (A B : matrix) (r c : nat) :
  has_shape r c A -> has_shape r c B -> has_shape r c (mzip_val f A B).
Proof.
  intros (Hr1 & Hc1 & Hw1) (Hr2 & Hc2 & Hw2).
  unfold has_shape, nrows, wf, mzip_val in *; simpl.
  rewrite length_zip_with. repeat split; [lia | assumption |].
  rewrite Forall_lookup. intros i x Hx.
  apply lookup_zip_with_Some in Hx as (a & b & -> & Ha & Hb).
  rewrite Forall_lookup in Hw1, Hw2.
  rewrite length_zip_with, (Hw1 _ _ Ha), (Hw2 _ _ Hb). lia.
Qed.

Lemma entry_mzip_val (f : R -> R -> R) (A B : matrix) (r c i j : nat) :
  has_shape r c A -> has_shape r c B -> (i < r)%nat -> (j < c)%nat ->
  entry (mzip_val f A B) i j = f (entry A i j) (entry B i j).
Proof.
  intros HA HB Hi Hj.
  pose proof (nth_row_length r c i A HA Hi) as HlA.
  pose proof (nth_row_length r c i B HB Hi) as HlB.
  destruct HA as (Hr1 & _ & _), HB as (Hr2 & _ & _). unfold nrows in *.
  unfold entry, mzip_val; simpl.
  rewrite nth_zip_with_rows by lia.
  apply nth_zip_with; lia.
Qed.

Lemma drop_col0_shape (A : matrix) (r c : nat) :
  has_shape r (S c) A -> has_shape r c (drop_col0 A).
Proof.
  intros (Hr & Hc & Hw). unfold has_shape, nrows, wf, drop_col0 in *; simpl.
  rewrite length_map. repeat split; [assumption | lia |].
  apply Forall_map. eapply Forall_impl; [exact Hw|].
  intros x Hx; simpl in *. rewrite length_drop. lia.
Qed.

Lemma entry_drop_col0 (A : matrix) (i j : nat) :
  entry (drop_col0 A) i j = entry A i (S j).
Proof.
  unfold entry, drop_col0; simpl.
  change (@nil R) with (drop 1 (@nil R)) at 1. rewrite map_nth.
  destruct (nth i (rows A) []); [destruct j|]; reflexivity.
Qed.

Lemma sq_nobias_sum (T : matrix) (r c : nat) :
  has_shape r (S c) T ->
  np_sum (mmap (fun t => t ^ 2) (drop_col0 T)) = sq_nobias_spec T r c.
Proof.
  intros HT. pose proof (drop_col0_shape _ _ _ HT) as HD.
  rewrite (np_sum_entries r c) by now apply mmap_shape.
  apply sum_n_ext; intros i Hi. apply sum_n_ext; intros j Hj.
  now rewrite (entry_mmap _ _ r c), entry_drop_col0.
Qed.

Lemma all_pos_true (A : matrix) (r c : nat) :
  has_shape r c A ->
  (forall i j, (i < r)%nat -> (j < c)%nat -> 0 < entry A i j) ->
  all_pos A = true.
Proof.
  intros HA Hpos. unfold all_pos.
  apply forallb_forall. intros x Hx.
  destruct (In_nth _ _ [] Hx) as (i & Hi & <-).
  apply forallb_forall. intros e He.
  destruct (In_nth _ _ 0 He) as (j & Hj & <-).
  apply bool_decide_eq_true_2.
  pose proof HA as (Hr & _ & _). unfold nrows in Hr.
  apply Hpos; [lia|].
  rewrite (nth_row_length r c i A HA) in Hj; lia.
Qed.

(** ** The cost *)

Lemma feed_forward_shape (sg : R -> R) (theta1 theta2 X a3 a2 a1 : matrix)
    (h n k m : nat) :
  has_shape h (S n) theta1 -> has_shape k (S h) theta2 -> has_shape m n X ->
  feed_forward sg theta1 theta2 X = Ok (a3, a2, a1) ->
  has_shape m (S n) a1 /\ has_shape m (S h) a2 /\ has_shape m k a3.
Proof.
  intros H1 H2 HX Hff.
  rewrite (feed_forward_ok sg _ _ _ _ _ _ _ H1 H2 HX) in Hff.
  injection Hff as <- <- <-.
  assert (Ha1 : has_shape m (S n) (prepend_ones_spec X))
    by now apply prepend_ones_shape.
  assert (Ha2 : has_shape m (S h)
            (prepend_ones_spec
               (mmap sg (matmul_T_spec (prepend_ones_spec X) theta1)))).
  { apply prepend_ones_shape, mmap_shape, matmul_T_shape;
      [apply Ha1 | apply H1]. }
  split; [exact Ha1|]. split; [exact Ha2|].
  apply mmap_shape, matmul_T_shape; [apply Ha2 | apply H2].
Qed.

(** The value of [cost] on matrices of the shapes of the specification: the
    formula of the specification where every logarithm has a positive
    argument and the batch is not empty, inf or nan otherwise. *)
Lemma cost_value (sg : R -> R) (theta1 theta2 X Y H a2 a1 : matrix)
    (lambda_ : R) (h n k m : nat) :
  has_shape h (S n) theta1 -> has_shape k (S h) theta2 ->
  has_shape m n X -> has_shape m k Y ->
  feed_forward sg theta1 theta2 X = Ok (H, a2, a1) ->
  cost sg theta1 theta2 X Y lambda_
  = Ok (if all_pos H && all_pos (mmap (fun x => 1 - x) H)
           && negb (m =? 0)%nat
        then fin (cost_spec theta1 theta2 Y H lambda_ h n k m)
        else nonfin).
Proof.
  intros H1 H2 HX HY Hff.
  destruct (feed_forward_shape sg _ _ _ _ _ _ _ _ _ _ H1 H2 HX Hff)
    as (_ & _ & HH).
  pose proof HX as (HmX & _ & _).
  set (H' := mmap (fun x => 1 - x) H).
  assert (HH' : has_shape m k H') by now apply mmap_shape.
  set (t1 := mzip_val Rmult Y (mmap ln H)).
  set (t0 := mzip_val Rmult (mmap (fun v => 1 - v) Y) (mmap ln H')).
  assert (Ht1 : has_shape m k t1)
    by (apply mzip_val_shape; [|apply mmap_shape]; assumption).
  assert (Ht0 : has_shape m k t0)
    by (apply mzip_val_shape; apply mmap_shape; assumption).
  unfold cost. rewrite Hff. simpl. fold H'.
  rewrite (mzip_ok Rmult Y (mmap ln H) m k)
    by (try apply mmap_shape; assumption). simpl. fold t1.
  rewrite (mzip_ok Rmult (mmap (fun v => 1 - v) Y) (mmap ln H') m k)
    by (apply mmap_shape; assumption). simpl. fold t0.
  rewrite (mzip_ok Rplus t1 t0 m k) by assumption. simpl.
  rewrite HmX. f_equal.
  destruct (all_pos H && all_pos H' && negb (m =? 0)%nat) eqn:Eb;
    [|reflexivity].
  assert (Hm : m <> 0%nat).
  { apply andb_prop in Eb as [_ Eb]. apply negb_true_iff in Eb.
    now apply Nat.eqb_neq. }
  f_equal.
  change (fun t : R => t * (t * 1)) with (fun t : R => t ^ 2).
  rewrite (sq_nobias_sum theta1 h n H1), (sq_nobias_sum theta2 k h H2).
  rewrite (np_sum_entries m k) by (apply mzip_val_shape; assumption).
  assert (HCE : sum_n m (fun i => sum_n k (fun j =>
                  entry (mzip_val Rplus t1 t0) i j))
                = cross_entropy_spec Y H m k).
  { apply sum_n_ext; intros i Hi. apply sum_n_ext; intros j Hj.
    rewrite (entry_mzip_val _ _ _ m k) by assumption.
    unfold t1, t0.
    rewrite !(entry_mzip_val _ _ _ m k)
      by (try apply mmap_shape; assumption).
    unfold H'.
    rewrite !(entry_mmap _ _ m k) by (try apply mmap_shape; assumption).
    reflexivity. }
  rewrite HCE. unfold cost_spec.
  assert (INR m <> 0) by (apply not_0_INR; lia).
  field. assumption.
Qed.

(** C2: for m >= 1 examples and a final-layer output with every entry strictly
    between 0 and 1, [cost] returns
    [-(1/m) * sum_ij (Y_ij ln h_ij + (1 - Y_ij) ln (1 - h_ij))
     + (lambda/(2m)) * (sum theta1[:,1:]^2 + sum theta2[:,1:]^2)]. *)
Theorem cost_formula (sg : R -> R) (theta1 theta2 X Y H a2 a1 : matrix)
    (lambda_ : R) (h n k m : nat) :
  has_shape h (S n) theta1 -> has_shape k (S h) theta2 ->
  has_shape m n X -> has_shape m k Y ->
  (1 <= m)%nat ->
  feed_forward sg theta1 theta2 X = Ok (H, a2, a1) ->
  (forall i j, (i < m)%nat -> (j < k)%nat -> 0 < entry H i j < 1) ->
  cost sg theta1 theta2 X Y lambda_
  = Ok (fin (cost_spec theta1 theta2 Y H lambda_ h n k m)).
Proof.
  intros H1 H2 HX HY Hm Hff Hrange.
  destruct (feed_forward_shape sg _ _ _ _ _ _ _ _ _ _ H1 H2 HX Hff)
    as (_ & _ & HH).
  rewrite (cost_value sg _ _ _ _ _ _ _ lambda_ _ _ _ _ H1 H2 HX HY Hff).
  rewrite (all_pos_true H m k HH) by (intros; now apply Hrange).
  rewrite (all_pos_true (mmap (fun x => 1 - x) H) m k)
    by (try (now apply mmap_shape); intros i j Hi Hj;
        rewrite (entry_mmap _ _ m k) by assumption;
        destruct (Hrange i j Hi Hj); lra).
  replace (m =? 0)%nat with false by (symmetry; apply Nat.eqb_neq; lia).
  reflexivity.
Qed.

(** ** Computations on the heap *)

Lemma bind_inv {A B} (c : M A) (k : A -> M B) (σ σ' : heap) (b : B) :
  (c ≫= k) σ = Ok (b, σ') ->
  exists a σ1, c σ = Ok (a, σ1) /\ k a σ1 = Ok (b, σ').
Proof.
  unfold mbind, M_bind. destruct (c σ) as [[a σ1]|e]; [|discriminate].
  intros Hk. now exists a, σ1.
Qed.

Lemma bind_ok {A B} (c : M A) (k : A -> M B) (σ σ1 : heap) (a : A) :
  c σ = Ok (a, σ1) -> (c ≫= k) σ = k a σ1.
Proof. intros Hc. unfold mbind, M_bind. now rewrite Hc. Qed.

Lemma lift_ok {A} (r : result A) (a : A) (σ : heap) :
  r = Ok a -> lift r σ = Ok (a, σ).
Proof. now intros ->. Qed.

Lemma lift_inv {A} (r : result A) (a : A) (σ σ' : heap) :
  lift r σ = Ok (a, σ') -> r = Ok a /\ σ' = σ.
Proof. destruct r; simpl; [|discriminate]. intros [= -> ->]. now split. Qed.

Lemma deref_ok (l : loc) (A : matrix) (σ : heap) :
  σ !! l = Some A -> deref l σ = Ok (A, σ).
Proof. intros H. unfold deref. now rewrite H. Qed.

Lemma deref_inv (l : loc) (A : matrix) (σ σ' : heap) :
  deref l σ = Ok (A, σ') -> σ !! l = Some A /\ σ' = σ.
Proof.
  unfold deref. destruct (σ !! l); [|discriminate].
  intros [= -> ->]. now split.
Qed.

Lemma store_ok (l : loc) (A B : matrix) (σ : heap) :
  σ !! l = Some B -> store l A σ = Ok (tt, <[l := A]> σ).
Proof. intros H. unfold store. now rewrite H. Qed.

Lemma store_inv (l : loc) (A : matrix) (σ σ' : heap) (u : unit) :
  store l A σ = Ok (u, σ') -> is_Some (σ !! l) /\ σ' = <[l := A]> σ.
Proof.
  unfold store. destruct (σ !! l) eqn:E; [|discriminate].
  intros [= _ <-]. split; [now eexists | reflexivity].
Qed.

Lemma alloc_fresh (σ : heap) : σ !! fresh (dom σ) = None.
Proof. apply not_elem_of_dom, is_fresh. Qed.

(** ** Frame: what a computation leaves untouched *)

Lemma keeps_ret {A} (σ0 : heap) (a : A) : keeps σ0 (mret a).
Proof. intros σ b σ' Hsub [= _ <-]. exact Hsub. Qed.

Lemma keeps_raise {A} (σ0 : heap) (e : exn) : keeps σ0 (@raise A e).
Proof. intros σ b σ' _ [=]. Qed.

Lemma keeps_lift {A} (σ0 : heap) (r : result A) : keeps σ0 (lift r).
Proof. intros σ a σ' Hsub H. now apply lift_inv in H as [_ ->]. Qed.

Lemma keeps_deref (σ0 : heap) (l : loc) : keeps σ0 (deref l).
Proof. intros σ a σ' Hsub H. now apply deref_inv in H as [_ ->]. Qed.

Lemma keeps_store (σ0 : heap) (l : loc) (A : matrix) :
  σ0 !! l = None -> keeps σ0 (store l A).
Proof.
  intros Hl σ a σ' Hsub H. apply store_inv in H as [_ ->].
  now apply insert_subseteq_r.
Qed.

Lemma keeps_bind {A B} (σ0 : heap) (c : M A) (k : A -> M B) :
  keeps σ0 c -> (forall a, keeps σ0 (k a)) -> keeps σ0 (c ≫= k).
Proof.
  intros Hc Hk σ b σ' Hsub H.
  apply bind_inv in H as (a & σ1 & H1 & H2).
  exact (Hk a σ1 b σ' (Hc σ a σ1 Hsub H1) H2).
Qed.

(** After an allocation the continuation runs with a location that is not
    one of [σ0]. *)
Lemma keeps_alloc_bind {B} (σ0 : heap) (A : matrix) (k : loc -> M B) :
  (forall l, σ0 !! l = None -> keeps σ0 (k l)) -> keeps σ0 (alloc A ≫= k).
Proof.
  intros Hk σ b σ' Hsub H.
  apply bind_inv in H as (l & σ1 & H1 & H2).
  unfold alloc in H1. injection H1 as <- <-.
  assert (Hl : σ0 !! fresh (dom σ) = None).
  { destruct (σ0 !! fresh (dom σ)) eqn:E; [|reflexivity].
    pose proof (lookup_weaken _ _ _ _ E Hsub) as E'.
    rewrite alloc_fresh in E'. discriminate. }
  refine (Hk _ Hl _ b σ' _ H2). now apply insert_subseteq_r.
Qed.

Lemma keeps_if {A} (σ0 : heap) (b : bool) (c1 c2 : M A) :
  keeps σ0 c1 -> keeps σ0 c2 -> keeps σ0 (if b then c1 else c2).
Proof. now destruct b. Qed.

Lemma keeps_iadd (σ0 : heap) (l : loc) (E : matrix) :
  σ0 !! l = None -> keeps σ0 (iadd l E).
Proof.
  intros Hl. unfold iadd.
  apply keeps_bind; [apply keeps_deref|]. intros A.
  apply keeps_bind; [apply keeps_lift|]. intros A'.
  now apply keeps_store.
Qed.

Lemma keeps_idiv_col0 (σ0 : heap) (l : loc) (m : nat) :
  σ0 !! l = None -> keeps σ0 (idiv_col0 l m).
Proof.
  intros Hl. unfold idiv_col0.
  apply keeps_bind; [apply keeps_deref|]. intros A.
  repeat apply keeps_if; try apply keeps_raise. now apply keeps_store.
Qed.

Lemma keeps_set_cols1 (σ0 : heap) (l : loc) (E : matrix) :
  σ0 !! l = None -> keeps σ0 (set_cols1 l E).
Proof.
  intros Hl. unfold set_cols1.
  apply keeps_bind; [apply keeps_deref|]. intros A.
  apply keeps_if; [now apply keeps_store | apply keeps_raise].
Qed.

Lemma keeps_regularize (σ0 : heap) (a t : loc) (lambda_ : R) (m : nat) :
  σ0 !! a = None -> keeps σ0 (regularize a t lambda_ m).
Proof.
  intros Hl. unfold regularize.
  apply keeps_bind; [apply keeps_deref|]. intros A.
  apply keeps_bind; [apply keeps_deref|]. intros T.
  apply keeps_bind; [apply keeps_lift|]. intros s.
  apply keeps_bind; [apply keeps_lift|]. intros E.
  now apply keeps_set_cols1.
Qed.

Lemma keeps_for_range (σ0 : heap) (body : nat -> M unit) (i n : nat) :
  (forall j, keeps σ0 (body j)) -> keeps σ0 (for_range body i n).
Proof.
  intros Hb. revert i. induction n as [|n IH]; intros i; simpl.
  - apply keeps_ret.
  - apply keeps_bind; [apply Hb | intros _; apply IH].
Qed.

Lemma keeps_backprop_body (σ0 : heap) (theta2 y grad1 grad2 : loc)
    (a3 a2 a1 : matrix) (i : nat) :
  σ0 !! grad1 = None -> σ0 !! grad2 = None ->
  keeps σ0 (backprop_body theta2 y grad1 grad2 a3 a2 a1 i).
Proof.
  intros Hg1 Hg2. unfold backprop_body.
  repeat (first
    [ apply keeps_iadd; assumption
    | apply keeps_bind; [first [apply keeps_lift | apply keeps_deref
                               | apply keeps_iadd; assumption]|]; intros ? ]).
Qed.

Lemma keeps_backprop (sg : R -> R) (σ0 : heap) (theta1 theta2 X y : loc)
    (lambda_ : R) :
  keeps σ0 (backprop sg theta1 theta2 X y lambda_).
Proof.
  unfold backprop.
  do 4 (apply keeps_bind; [apply keeps_deref|]; intros ?).
  apply keeps_bind; [apply keeps_lift|]. intros J.
  apply keeps_alloc_bind. intros grad1 Hg1.
  apply keeps_alloc_bind. intros grad2 Hg2.
  apply keeps_bind; [apply keeps_lift|]. intros [[act3 act2] act1].
  apply keeps_bind.
  { apply keeps_for_range. intros j. now apply keeps_backprop_body. }
  intros _.
  do 2 (apply keeps_bind; [now apply keeps_idiv_col0|]; intros _).
  do 2 (apply keeps_bind; [now apply keeps_regularize|]; intros _).
  apply keeps_ret.
Qed.

(** ** Entries of the array operations *)

Lemma nth_map_seq {B} (g : nat -> B) (d : B) (n i : nat) :
  (i < n)%nat -> nth i (map g (seq 0 n)) d = g i.
Proof.
  intros Hi.
  rewrite (nth_indep _ d (g 0%nat)) by (rewrite length_map, length_seq; lia).
  rewrite map_nth, seq_nth by lia. reflexivity.
Qed.

Lemma mk_matrix_shape (r c : nat) (f : nat -> nat -> R) :
  has_shape r c (mk_matrix r c f).
Proof.
  unfold has_shape, nrows, wf, mk_matrix; simpl.
  rewrite length_map, length_seq. repeat split.
  apply Forall_map, Forall_forall. intros i _; simpl.
  now rewrite length_map, length_seq.
Qed.

Lemma entry_mk_matrix (r c : nat) (f : nat -> nat -> R) (i j : nat) :
  (i < r)%nat -> (j < c)%nat -> entry (mk_matrix r c f) i j = f i j.
Proof.
  intros Hi Hj. unfold entry, mk_matrix; simpl.
  rewrite (nth_map_seq _ _ _ _ Hi). exact (nth_map_seq _ _ _ _ Hj).
Qed.

Lemma list_ext_nth (u v : list R) :
  length u = length v ->
  (forall j, (j < length u)%nat -> nth j u 0 = nth j v 0) -> u = v.
Proof.
  intros Hlen Hnth. rewrite <- (map_nth_seq_gen 0 u), <- (map_nth_seq_gen 0 v).
  rewrite <- Hlen. apply map_ext_in. intros j Hj. apply in_seq in Hj.
  apply Hnth. lia.
Qed.

Lemma matrix_ext (r c : nat) (A B : matrix) :
  has_shape r c A -> has_shape r c B ->
  (forall i j, (i < r)%nat -> (j < c)%nat -> entry A i j = entry B i j) ->
  A = B.
Proof.
  intros HA HB Hent.
  pose proof HA as (HrA & HcA & _). pose proof HB as (HrB & HcB & _).
  destruct A as [cA lA], B as [cB lB]. unfold nrows in *; simpl in *.
  subst cA cB. f_equal.
  rewrite <- (map_nth_seq_gen [] lA), <- (map_nth_seq_gen [] lB).
  rewrite HrA, HrB. apply map_ext_in. intros i Hi. apply in_seq in Hi.
  assert (Hlt : (i < r)%nat) by lia.
  pose proof (nth_row_length r c i _ HA Hlt) as L1.
  pose proof (nth_row_length r c i _ HB Hlt) as L2. simpl in L1, L2.
  apply list_ext_nth; [congruence|].
  intros j Hj. apply (Hent i j Hlt). lia.
Qed.

Lemma row_ok (i r c : nat) (A : matrix) :
  has_shape r c A -> (i < r)%nat ->
  row i A = Ok (nth i (rows A) []) /\ length (nth i (rows A) []) = c.
Proof.
  intros HA Hi. split; [|exact (nth_row_length r c i A HA Hi)].
  destruct HA as (Hr & _ & _). unfold nrows in Hr. unfold row.
  destruct (lookup_lt_is_Some_2 (rows A) i) as [x Hx]; [lia|].
  rewrite Hx. now rewrite (nth_lookup_Some _ _ [] _ Hx).
Qed.

Lemma vzip_ok (f : R -> R -> R) (u v : list R) :
  length u = length v -> vzip f u v = Ok (zip_with f u v).
Proof. intros H. unfold vzip. now rewrite H, Nat.eqb_refl. Qed.

Lemma vsum_app (u v : list R) : vsum (u ++ v) = vsum u + vsum v.
Proof.
  unfold vsum. induction u as [|x u IH]; simpl; [lra|]. rewrite IH. lra.
Qed.

Lemma sum_n_S (n : nat) (f : nat -> R) : sum_n (S n) f = sum_n n f + f n.
Proof.
  unfold sum_n. rewrite seq_S, map_app, vsum_app. simpl. lra.
Qed.

Lemma sum_n_0 (f : nat -> R) : sum_n 0 f = 0.
Proof. reflexivity. Qed.

Lemma dot_sum_n (c : nat) (u v : list R) :
  length u = c -> length v = c ->
  dot u v = sum_n c (fun l => nth l u 0 * nth l v 0).
Proof.
  intros Hu Hv. unfold dot. rewrite vsum_sum_n, length_zip_with, Hu, Hv.
  rewrite Nat.min_id. apply sum_n_ext. intros l Hl.
  apply nth_zip_with; lia.
Qed.

Lemma col_length (j : nat) (A : matrix) : length (col j A) = nrows A.
Proof. unfold col, nrows. now rewrite length_map. Qed.

Lemma matmul_ok (A B : matrix) (r c k : nat) :
  has_shape r c A -> has_shape c k B -> matmul A B = Ok (matmul_val A B).
Proof.
  intros (_ & HcA & _) (HrB & _ & _). unfold matmul.
  now rewrite HcA, HrB, Nat.eqb_refl.
Qed.

Lemma matmul_val_shape (A B : matrix) (r c k : nat) :
  has_shape r c A -> has_shape c k B -> has_shape r k (matmul_val A B).
Proof.
  intros (HrA & _ & _) (_ & HcB & _).
  unfold has_shape, nrows, wf, matmul_val in *; simpl.
  rewrite length_map. repeat split; try assumption.
  apply Forall_map, Forall_forall. intros a _; simpl.
  now rewrite length_map, length_seq.
Qed.

Lemma entry_matmul_val (A B : matrix) (r c k i j : nat) :
  has_shape r c A -> has_shape c k B -> (i < r)%nat -> (j < k)%nat ->
  entry (matmul_val A B) i j = sum_n c (fun l => entry A i l * entry B l j).
Proof.
  intros HA HB Hi Hj.
  pose proof (nth_row_length r c i A HA Hi) as Hlen.
  destruct HA as (HrA & _ & _), HB as (HrB & HcB & _). unfold nrows in HrA.
  unfold entry at 1, matmul_val; simpl.
  rewrite (nth_indep _ [] ((fun a => map (fun j0 => dot a (col j0 B))
                                       (seq 0 (ncols B))) []))
    by (rewrite length_map; lia).
  rewrite (map_nth (fun a => map (fun j0 => dot a (col j0 B))
                               (seq 0 (ncols B)))).
  rewrite nth_map_seq by lia.
  rewrite (dot_sum_n c) by (rewrite ?col_length; congruence).
  apply sum_n_ext. intros l _. now rewrite nth_col.
Qed.

Lemma transpose_shape (A : matrix) (r c : nat) :
  has_shape r c A -> has_shape c r (transpose A).
Proof.
  intros (Hr & Hc & _). unfold has_shape, nrows, wf, transpose in *; simpl.
  rewrite length_map, length_seq. repeat split; try assumption.
  apply Forall_map, Forall_forall. intros j _; simpl.
  now rewrite col_length.
Qed.

Lemma entry_transpose (A : matrix) (c i j : nat) :
  ncols A = c -> (i < c)%nat -> entry (transpose A) i j = entry A j i.
Proof.
  intros Hc Hi. unfold entry at 1, transpose; simpl.
  rewrite nth_map_seq by lia. apply nth_col.
Qed.

Lemma newaxis_shape (v : list R) (c : nat) :
  length v = c -> has_shape 1 c (newaxis v).
Proof.
  intros H. unfold has_shape, nrows, wf, newaxis; simpl.
  repeat split; [assumption|]. now constructor.
Qed.

Lemma entry_newaxis (v : list R) (j : nat) : entry (newaxis v) 0 j = nth j v 0.
Proof. reflexivity. Qed.

Lemma mul_bcast_ok (A : matrix) (v : list R) (c : nat) :
  ncols A = c -> length v = c -> mul_bcast A v = Ok (mul_bcast_val A v).
Proof. intros H1 H2. unfold mul_bcast. now rewrite H1, H2, Nat.eqb_refl. Qed.

Lemma mul_bcast_val_shape (A : matrix) (v : list R) (r c : nat) :
  has_shape r c A -> length v = c -> has_shape r c (mul_bcast_val A v).
Proof.
  intros (Hr & Hc & Hw) Hv.
  unfold has_shape, nrows, wf, mul_bcast_val in *; simpl.
  rewrite length_map. repeat split; try assumption.
  apply Forall_map. eapply Forall_impl; [exact Hw|].
  intros x Hx; simpl in *. rewrite length_zip_with. lia.
Qed.

Lemma entry_mul_bcast_val (A : matrix) (v : list R) (r c i j : nat) :
  has_shape r c A -> length v = c -> (i < r)%nat -> (j < c)%nat ->
  entry (mul_bcast_val A v) i j = entry A i j * nth j v 0.
Proof.
  intros HA Hv Hi Hj.
  pose proof (nth_row_length r c i A HA Hi) as Hlen.
  destruct HA as (Hr & _ & _). unfold nrows in Hr.
  unfold entry, mul_bcast_val; simpl.
  rewrite (nth_indep _ [] ((fun r0 => zip_with Rmult r0 v) []))
    by (rewrite length_map; lia).
  rewrite (map_nth (fun r0 => zip_with Rmult r0 v)).
  apply nth_zip_with; lia.
Qed.

Lemma zeros_like_shape (A : matrix) (r c : nat) :
  has_shape r c A -> has_shape r c (np_zeros_like A).
Proof.
  intros (Hr & Hc & _). unfold has_shape, nrows, wf, np_zeros_like in *; simpl.
  rewrite length_replicate. repeat split; try assumption.
  apply Forall_replicate. now rewrite length_replicate.
Qed.

Lemma entry_zeros_like (A : matrix) (i j : nat) :
  entry (np_zeros_like A) i j = 0.
Proof.
  unfold entry, np_zeros_like; simpl.
  destruct (decide (i < nrows A)%nat) as [Hi|Hi].
  - rewrite (nth_lookup_Some _ _ _ (replicate (ncols A) 0)).
    + destruct (decide (j < ncols A)%nat) as [Hj|Hj].
      * apply nth_lookup_Some. now apply lookup_replicate_2.
      * apply nth_overflow. rewrite length_replicate. lia.
    + now apply lookup_replicate_2.
  - rewrite (nth_overflow (replicate _ _)) by (rewrite length_replicate; lia).
    now destruct j.
Qed.

Lemma div_col0_val_shape (A : matrix) (m r c : nat) :
  has_shape r c A -> has_shape r c (div_col0_val A m).
Proof.
  intros (Hr & Hc & Hw). unfold has_shape, nrows, wf, div_col0_val in *; simpl.
  rewrite length_map. repeat split; try assumption.
  apply Forall_map. eapply Forall_impl; [exact Hw|].
  intros [|x t] Hx; simpl in *; assumption.
Qed.

Lemma entry_div_col0_val (A : matrix) (m r c i j : nat) :
  has_shape r (S c) A -> (i < r)%nat ->
  entry (div_col0_val A m) i j
  = match j with
    | O => entry A i 0 / INR m
    | S _ => entry A i j
    end.
Proof.
  intros HA Hi. pose proof (nth_row_length r (S c) i A HA Hi) as Hlen.
  unfold entry, div_col0_val; simpl.
  rewrite (map_nth (fun r0 : list R => match r0 with
                                       | x :: t => x / INR m :: t
                                       | [] => []
                                       end) (rows A) [] i).
  destruct (nth i (rows A) []) as [|x t]; [discriminate|].
  now destruct j.
Qed.

Lemma set_cols1_val_shape (A E : matrix) (r c : nat) :
  has_shape r (S c) A -> has_shape r c E ->
  has_shape r (S c) (set_cols1_val A E).
Proof.
  intros (HrA & HcA & HwA) (HrE & HcE & HwE).
  unfold has_shape, nrows, wf, set_cols1_val in *; simpl.
  rewrite length_zip_with. repeat split; [lia | assumption |].
  rewrite Forall_lookup. intros i x Hx.
  apply lookup_zip_with_Some in Hx as (a & e & -> & Ha & He).
  rewrite Forall_lookup in HwA, HwE.
  pose proof (HwA _ _ Ha) as La. pose proof (HwE _ _ He) as Le.
  simpl in *. rewrite length_app, length_take. lia.
Qed.

Lemma entry_set_cols1_val (A E : matrix) (r c i j : nat) :
  has_shape r (S c) A -> has_shape r c E -> (i < r)%nat ->
  entry (set_cols1_val A E) i j
  = match j with
    | O => entry A i 0
    | S j' => entry E i j'
    end.
Proof.
  intros HA HE Hi. pose proof (nth_row_length r (S c) i A HA Hi) as Hlen.
  destruct HA as (HrA & _ & _), HE as (HrE & _ & _). unfold nrows in *.
  unfold entry, set_cols1_val; simpl.
  rewrite nth_zip_with_rows by lia.
  destruct (nth i (rows A) []) as [|x t]; [discriminate|].
  now destruct j.
Qed.

Lemma div_scalar_ok (A : matrix) (m : nat) :
  (1 <= m)%nat -> div_scalar A m = Ok (mmap (fun x => x / INR m) A).
Proof.
  intros Hm. unfold div_scalar.
  replace (m =? 0)%nat with false by (symmetry; apply Nat.eqb_neq; lia).
  reflexivity.
Qed.

Lemma iadd_ok (l : loc) (G E : matrix) (r c : nat) (σ : heap) :
  σ !! l = Some G -> has_shape r c G -> has_shape r c E ->
  iadd l E σ = Ok (tt, <[l := mzip_val Rplus G E]> σ).
Proof.
  intros Hl HG HE. unfold iadd.
  rewrite (bind_ok _ _ _ _ _ (deref_ok _ _ _ Hl)).
  rewrite (bind_ok _ _ _ _ _ (lift_ok _ _ _ (mzip_ok Rplus G E r c HG HE))).
  exact (store_ok _ _ _ _ Hl).
Qed.

Lemma isub_ok (l : loc) (T E : matrix) (r c : nat) (σ : heap) :
  σ !! l = Some T -> has_shape r c T -> has_shape r c E ->
  isub l E σ = Ok (tt, <[l := mzip_val Rminus T E]> σ).
Proof.
  intros Hl HT HE. unfold isub.
  rewrite (bind_ok _ _ _ _ _ (deref_ok _ _ _ Hl)).
  rewrite (bind_ok _ _ _ _ _ (lift_ok _ _ _ (mzip_ok Rminus T E r c HT HE))).
  exact (store_ok _ _ _ _ Hl).
Qed.

Lemma idiv_col0_ok (l : loc) (G : matrix) (m r c : nat) (σ : heap) :
  σ !! l = Some G -> has_shape r (S c) G -> (1 <= m)%nat ->
  idiv_col0 l m σ = Ok (tt, <[l := div_col0_val G m]> σ).
Proof.
  intros Hl (_ & Hc & _) Hm. unfold idiv_col0.
  rewrite (bind_ok _ _ _ _ _ (deref_ok _ _ _ Hl)).
  rewrite Hc.
  replace (m =? 0)%nat with false by (symmetry; apply Nat.eqb_neq; lia).
  simpl. exact (store_ok _ _ _ _ Hl).
Qed.

Lemma set_cols1_ok (l : loc) (G E : matrix) (r c : nat) (σ : heap) :
  σ !! l = Some G -> has_shape r (S c) G -> has_shape r c E ->
  set_cols1 l E σ = Ok (tt, <[l := set_cols1_val G E]> σ).
Proof.
  intros Hl HG HE. unfold set_cols1.
  rewrite (bind_ok _ _ _ _ _ (deref_ok _ _ _ Hl)).
  destruct (drop_col0_shape _ _ _ HG) as (Hr1 & Hc1 & _).
  destruct HE as (Hr2 & Hc2 & _).
  unfold same_shape. rewrite Hr1, Hr2, Hc1, Hc2, !Nat.eqb_refl. simpl.
  exact (store_ok _ _ _ _ Hl).
Qed.

(** ** The heap with the two gradient arrays *)

Section grads.

Variables (σ : heap) (g1 g2 : loc).
Hypothesis Hg1 : σ !! g1 = None.
Hypothesis Hg2 : σ !! g2 = None.
Hypothesis Hne : g1 <> g2.

Lemma with_grads_g1 (G1 G2 : matrix) :
  with_grads σ g1 g2 G1 G2 !! g1 = Some G1.
Proof.
  unfold with_grads. rewrite lookup_insert_ne by congruence.
  apply lookup_insert_eq.
Qed.

Lemma with_grads_g2 (G1 G2 : matrix) :
  with_grads σ g1 g2 G1 G2 !! g2 = Some G2.
Proof. unfold with_grads. apply lookup_insert_eq. Qed.

Lemma with_grads_old (G1 G2 A : matrix) (l : loc) :
  σ !! l = Some A -> with_grads σ g1 g2 G1 G2 !! l = Some A.
Proof.
  intros Hl. unfold with_grads.
  rewrite !lookup_insert_ne by congruence. exact Hl.
Qed.

Lemma with_grads_set1 (G1 G2 G : matrix) :
  <[g1 := G]> (with_grads σ g1 g2 G1 G2) = with_grads σ g1 g2 G G2.
Proof.
  unfold with_grads. rewrite insert_insert_ne by congruence.
  now rewrite insert_insert_eq.
Qed.

Lemma with_grads_set2 (G1 G2 G : matrix) :
  <[g2 := G]> (with_grads σ g1 g2 G1 G2) = with_grads σ g1 g2 G1 G.
Proof. unfold with_grads. now rewrite insert_insert_eq. Qed.

End grads.

(** ** One iteration of the loop of backprop *)

Section body.

Variables (a3 a2 a1 Y T2 : matrix) (h n k m : nat).
Hypothesis Ha3 : has_shape m k a3.
Hypothesis Ha2 : has_shape m (S h) a2.
Hypothesis Ha1 : has_shape m (S n) a1.
Hypothesis HY : has_shape m k Y.
Hypothesis HT2 : has_shape k (S h) T2.

Variable i : nat.
Hypothesis Hi : (i < m)%nat.

Lemma body_d3_shape : has_shape 1 k (body_d3 a3 Y i).
Proof.
  apply newaxis_shape. rewrite length_zip_with.
  rewrite (nth_row_length m k i a3 Ha3 Hi), (nth_row_length m k i Y HY Hi).
  lia.
Qed.

Lemma entry_body_d3 (j : nat) :
  (j < k)%nat -> entry (body_d3 a3 Y i) 0 j = d3_spec a3 Y i j.
Proof.
  intros Hj. unfold body_d3. rewrite entry_newaxis.
  apply nth_zip_with;
    [rewrite (nth_row_length m k i a3 Ha3 Hi)
    |rewrite (nth_row_length m k i Y HY Hi)]; lia.
Qed.

Lemma body_gZ_length : length (body_gZ a2 i) = S h.
Proof.
  unfold body_gZ. rewrite length_zip_with, length_map.
  rewrite (nth_row_length m (S h) i a2 Ha2 Hi). lia.
Qed.

Lemma nth_body_gZ (c : nat) :
  (c < S h)%nat -> nth c (body_gZ a2 i) 0 = gZ_spec a2 i c.
Proof.
  intros Hc. pose proof (nth_row_length m (S h) i a2 Ha2 Hi) as Hlen.
  unfold body_gZ. rewrite nth_zip_with by (rewrite ?length_map; lia).
  rewrite (nth_indep (map _ _) 0 ((fun a => 1 - a) 0))
    by (rewrite length_map; lia).
  rewrite (map_nth (fun a => 1 - a)). reflexivity.
Qed.

Lemma body_p_shape : has_shape 1 (S h) (matmul_val (body_d3 a3 Y i) T2).
Proof. exact (matmul_val_shape _ _ _ _ _ body_d3_shape HT2). Qed.

Lemma body_d2_shape : has_shape 1 h (body_d2 a3 a2 Y T2 i).
Proof.
  apply drop_col0_shape, mul_bcast_val_shape;
    [exact body_p_shape | exact body_gZ_length].
Qed.

Lemma entry_body_d2 (c : nat) :
  (c < h)%nat -> entry (body_d2 a3 a2 Y T2 i) 0 c = d2_spec a3 a2 Y k T2 i c.
Proof.
  intros Hc. unfold body_d2. rewrite entry_drop_col0.
  rewrite (entry_mul_bcast_val _ _ 1 (S h))
    by (try exact body_p_shape; try exact body_gZ_length; lia).
  rewrite (entry_matmul_val _ _ 1 k (S h))
    by (try exact body_d3_shape; try exact HT2; lia).
  rewrite nth_body_gZ by lia. unfold d2_spec. f_equal.
  apply sum_n_ext. intros l Hl. now rewrite entry_body_d3.
Qed.

Lemma body_u1_shape : has_shape h (S n) (body_u1 a3 a2 a1 Y T2 i).
Proof.
  apply (matmul_val_shape _ _ h 1 (S n)).
  - apply transpose_shape, body_d2_shape.
  - apply newaxis_shape, (nth_row_length m (S n) i a1 Ha1 Hi).
Qed.

Lemma entry_body_u1 (r c : nat) :
  (r < h)%nat -> (c < S n)%nat ->
  entry (body_u1 a3 a2 a1 Y T2 i) r c
  = d2_spec a3 a2 Y k T2 i r * entry a1 i c.
Proof.
  intros Hr Hc. unfold body_u1.
  rewrite (entry_matmul_val _ _ h 1 (S n)); try assumption.
  - rewrite sum_n_S, sum_n_0, entry_newaxis.
    rewrite (entry_transpose _ h) by (try apply body_d2_shape; lia).
    rewrite entry_body_d2 by assumption. unfold entry. lra.
  - apply transpose_shape, body_d2_shape.
  - apply newaxis_shape, (nth_row_length m (S n) i a1 Ha1 Hi).
Qed.

Lemma body_u2_shape : has_shape k (S h) (body_u2 a3 a2 Y i).
Proof.
  apply (matmul_val_shape _ _ k 1 (S h)).
  - apply transpose_shape, body_d3_shape.
  - apply newaxis_shape, (nth_row_length m (S h) i a2 Ha2 Hi).
Qed.

Lemma entry_body_u2 (r c : nat) :
  (r < k)%nat -> (c < S h)%nat ->
  entry (body_u2 a3 a2 Y i) r c = d3_spec a3 Y i r * entry a2 i c.
Proof.
  intros Hr Hc. unfold body_u2.
  rewrite (entry_matmul_val _ _ k 1 (S h)); try assumption.
  - rewrite sum_n_S, sum_n_0, entry_newaxis.
    rewrite (entry_transpose _ k) by (try apply body_d3_shape; lia).
    rewrite entry_body_d3 by assumption. unfold entry. lra.
  - apply transpose_shape, body_d3_shape.
  - apply newaxis_shape, (nth_row_length m (S h) i a2 Ha2 Hi).
Qed.

Variables (σ : heap) (theta2 y g1 g2 : loc).
Hypothesis Hg1 : σ !! g1 = None.
Hypothesis Hg2 : σ !! g2 = None.
Hypothesis Hne : g1 <> g2.
Hypothesis Hth2 : σ !! theta2 = Some T2.
Hypothesis Hy : σ !! y = Some Y.

Lemma backprop_body_ok (G1 G2 : matrix) :
  has_shape h (S n) G1 -> has_shape k (S h) G2 ->
  backprop_body theta2 y g1 g2 a3 a2 a1 i (with_grads σ g1 g2 G1 G2)
  = Ok (tt, with_grads σ g1 g2
              (mzip_val Rplus G1 (body_u1 a3 a2 a1 Y T2 i))
              (mzip_val Rplus G2 (body_u2 a3 a2 Y i))).
Proof.
  intros HG1 HG2. unfold backprop_body.
  destruct (row_ok i m k a3 Ha3 Hi) as [R3 L3].
  destruct (row_ok i m k Y HY Hi) as [RY LY].
  destruct (row_ok i m (S h) a2 Ha2 Hi) as [R2 L2].
  destruct (row_ok i m (S n) a1 Ha1 Hi) as [R1 L1].
  rewrite (bind_ok _ _ _ _ _ (lift_ok _ _ _ R3)).
  rewrite (bind_ok _ _ _ _ _
             (deref_ok _ _ _ (with_grads_old σ g1 g2 Hg1 Hg2 _ _ _ _ Hy))).
  rewrite (bind_ok _ _ _ _ _ (lift_ok _ _ _ RY)).
  rewrite (bind_ok _ _ _ _ _
             (lift_ok _ _ _ (vzip_ok Rminus _ _ (eq_trans L3 (eq_sym LY))))).
  rewrite (bind_ok _ _ _ _ _ (lift_ok _ _ _ R2)).
  rewrite (bind_ok _ _ _ _ _ (lift_ok _ _ _ (vzip_ok Rmult _ _
             (eq_sym (length_map (fun a => 1 - a) _))))).
  rewrite (bind_ok _ _ _ _ _
             (deref_ok _ _ _ (with_grads_old σ g1 g2 Hg1 Hg2 _ _ _ _ Hth2))).
  fold (body_d3 a3 Y i). fold (body_gZ a2 i).
  rewrite (bind_ok _ _ _ _ _
             (lift_ok _ _ _ (matmul_ok _ _ _ _ _ body_d3_shape HT2))).
  rewrite (bind_ok _ _ _ _ _ (lift_ok _ _ _
             (mul_bcast_ok _ _ (S h) (proj1 (proj2 body_p_shape))
                body_gZ_length))).
  fold (body_d2 a3 a2 Y T2 i).
  rewrite (bind_ok _ _ _ _ _ (lift_ok _ _ _ R1)).
  rewrite (bind_ok _ _ _ _ _ (lift_ok _ _ _
             (matmul_ok _ _ h 1 (S n) (transpose_shape _ _ _ body_d2_shape)
                (newaxis_shape _ _ L1)))).
  fold (body_u1 a3 a2 a1 Y T2 i).
  rewrite (bind_ok _ _ _ _ _
             (iadd_ok _ _ _ _ _ _ (with_grads_g1 σ g1 g2 Hne G1 G2) HG1
                body_u1_shape)).
  rewrite (with_grads_set1 σ g1 g2 Hne).
  rewrite (bind_ok _ _ _ _ _ (lift_ok _ _ _
             (matmul_ok _ _ k 1 (S h) (transpose_shape _ _ _ body_d3_shape)
                (newaxis_shape _ _ L2)))).
  fold (body_u2 a3 a2 Y i).
  rewrite (iadd_ok _ _ _ _ _ _ (with_grads_g2 σ g1 g2 _ G2) HG2
             body_u2_shape).
  now rewrite with_grads_set2.
Qed.

End body.

Lemma mk_matrix_ext (r c : nat) (f g : nat -> nat -> R) :
  (forall i j, (i < r)%nat -> (j < c)%nat -> f i j = g i j) ->
  mk_matrix r c f = mk_matrix r c g.
Proof.
  intros Hfg. apply (matrix_ext r c); try apply mk_matrix_shape.
  intros i j Hi Hj. rewrite !entry_mk_matrix by assumption. now apply Hfg.
Qed.

(** ** The accumulation loop of backprop *)

Section loop.

Variables (a3 a2 a1 Y T2 : matrix) (h n k m : nat).
Hypothesis Ha3 : has_shape m k a3.
Hypothesis Ha2 : has_shape m (S h) a2.
Hypothesis Ha1 : has_shape m (S n) a1.
Hypothesis HY : has_shape m k Y.
Hypothesis HT2 : has_shape k (S h) T2.

Variables (σ : heap) (theta2 y g1 g2 : loc).
Hypothesis Hg1 : σ !! g1 = None.
Hypothesis Hg2 : σ !! g2 = None.
Hypothesis Hne : g1 <> g2.
Hypothesis Hth2 : σ !! theta2 = Some T2.
Hypothesis Hy : σ !! y = Some Y.

(** The sums over the first [t] examples. *)
Let P1 (t : nat) : matrix :=
  mk_matrix h (S n) (acc1_spec a3 a2 a1 Y k t T2).
Let P2 (t : nat) : matrix :=
  mk_matrix k (S h) (acc2_spec a3 a2 Y t).

Lemma acc1_step (t : nat) :
  (t < m)%nat -> mzip_val Rplus (P1 t) (body_u1 a3 a2 a1 Y T2 t) = P1 (S t).
Proof.
  intros Ht. subst P1. cbv beta.
  pose proof (body_u1_shape a3 a2 a1 Y T2 h n k m Ha3 Ha2 Ha1 HY HT2 t Ht)
    as Hu.
  apply (matrix_ext h (S n)).
  - apply mzip_val_shape; [apply mk_matrix_shape | exact Hu].
  - apply mk_matrix_shape.
  - intros r c Hr Hc.
    rewrite (entry_mzip_val _ _ _ h (S n))
      by (try apply mk_matrix_shape; assumption).
    rewrite !entry_mk_matrix by assumption.
    rewrite (entry_body_u1 a3 a2 a1 Y T2 h n k m) by assumption.
    unfold acc1_spec. now rewrite sum_n_S.
Qed.

Lemma acc2_step (t : nat) :
  (t < m)%nat -> mzip_val Rplus (P2 t) (body_u2 a3 a2 Y t) = P2 (S t).
Proof.
  intros Ht. subst P2. cbv beta.
  pose proof (body_u2_shape a3 a2 Y h k m Ha3 Ha2 HY t Ht) as Hu.
  apply (matrix_ext k (S h)).
  - apply mzip_val_shape; [apply mk_matrix_shape | exact Hu].
  - apply mk_matrix_shape.
  - intros r c Hr Hc.
    rewrite (entry_mzip_val _ _ _ k (S h))
      by (try apply mk_matrix_shape; assumption).
    rewrite !entry_mk_matrix by assumption.
    rewrite (entry_body_u2 a3 a2 Y h k m) by assumption.
    unfold acc2_spec. now rewrite sum_n_S.
Qed.

Lemma for_range_backprop (rem i : nat) :
  (i + rem = m)%nat ->
  for_range (backprop_body theta2 y g1 g2 a3 a2 a1) i rem
    (with_grads σ g1 g2 (P1 i) (P2 i))
  = Ok (tt, with_grads σ g1 g2 (P1 m) (P2 m)).
Proof.
  revert i. induction rem as [|rem IH]; intros i Him; simpl.
  - replace i with m by lia. reflexivity.
  - assert (Hi : (i < m)%nat) by lia.
    rewrite (bind_ok _ _ _ _ _
               (backprop_body_ok a3 a2 a1 Y T2 h n k m Ha3 Ha2 Ha1 HY HT2
                  i Hi σ theta2 y g1 g2 Hg1 Hg2 Hne Hth2 Hy (P1 i) (P2 i)
                  (mk_matrix_shape _ _ _) (mk_matrix_shape _ _ _))).
    rewrite (acc1_step i Hi), (acc2_step i Hi). apply IH. lia.
Qed.

End loop.

(** ** The last four statements of backprop *)

Lemma regularize_ok (a t : loc) (G T : matrix) (lambda_ : R) (m r c : nat)
    (σ : heap) :
  σ !! a = Some G -> σ !! t = Some T ->
  has_shape r (S c) G -> has_shape r (S c) T -> (1 <= m)%nat ->
  regularize a t lambda_ m σ
  = Ok (tt, <[a := set_cols1_val G
                     (mmap (fun x => x / INR m)
                        (mzip_val Rplus (drop_col0 G)
                           (mmap (Rmult lambda_) (drop_col0 T))))]> σ).
Proof.
  intros Ha Ht HG HT Hm. unfold regularize.
  pose proof (drop_col0_shape _ _ _ HG) as HdG.
  pose proof (mmap_shape (Rmult lambda_) _ _ _ (drop_col0_shape _ _ _ HT))
    as HdT.
  rewrite (bind_ok _ _ _ _ _ (deref_ok _ _ _ Ha)).
  rewrite (bind_ok _ _ _ _ _ (deref_ok _ _ _ Ht)).
  rewrite (bind_ok _ _ _ _ _
             (lift_ok _ _ _ (mzip_ok Rplus _ _ r c HdG HdT))).
  rewrite (bind_ok _ _ _ _ _ (lift_ok _ _ _ (div_scalar_ok _ m Hm))).
  apply (set_cols1_ok _ _ _ r c); try assumption.
  now apply mmap_shape, mzip_val_shape.
Qed.

Lemma finalize_val (G T : matrix) (lambda_ : R) (m r c : nat) :
  has_shape r (S c) G -> has_shape r (S c) T ->
  set_cols1_val (div_col0_val G m)
    (mmap (fun x => x / INR m)
       (mzip_val Rplus (drop_col0 (div_col0_val G m))
          (mmap (Rmult lambda_) (drop_col0 T))))
  = mk_matrix r (S c) (finalize_spec m lambda_ (entry G) T).
Proof.
  intros HG HT.
  pose proof (div_col0_val_shape G m _ _ HG) as HD.
  pose proof (drop_col0_shape _ _ _ HD) as HdD.
  pose proof (mmap_shape (Rmult lambda_) _ _ _ (drop_col0_shape _ _ _ HT))
    as HdT.
  pose proof (mzip_val_shape Rplus _ _ _ _ HdD HdT) as Hs.
  pose proof (mmap_shape (fun x => x / INR m) _ _ _ Hs) as HE.
  apply (matrix_ext r (S c)).
  - now apply set_cols1_val_shape.
  - apply mk_matrix_shape.
  - intros i j Hi Hj.
    rewrite (entry_set_cols1_val _ _ r c) by assumption.
    rewrite entry_mk_matrix by assumption.
    destruct j as [|j]; simpl.
    + now rewrite (entry_div_col0_val _ _ r c).
    + rewrite (entry_mmap _ _ r c) by (try assumption; lia).
      rewrite (entry_mzip_val _ _ _ r c) by (try assumption; lia).
      rewrite (entry_mmap _ _ r c)
        by (try apply drop_col0_shape; try assumption; lia).
      rewrite !entry_drop_col0.
      now rewrite (entry_div_col0_val _ _ r c).
Qed.

Lemma zeros_like_mk (A : matrix) (r c : nat) (f : nat -> nat -> R) :
  has_shape r c A -> (forall i j, f i j = 0) ->
  np_zeros_like A = mk_matrix r c f.
Proof.
  intros HA Hf. apply (matrix_ext r c).
  - now apply zeros_like_shape.
  - apply mk_matrix_shape.
  - intros i j Hi Hj. now rewrite entry_zeros_like, entry_mk_matrix, Hf.
Qed.

(** Under the shapes of the specification [cost] raises nothing. *)
Lemma cost_total (sg : R -> R) (theta1 theta2 X Y : matrix) (lambda_ : R)
    (h n k m : nat) :
  has_shape h (S n) theta1 -> has_shape k (S h) theta2 ->
  has_shape m n X -> has_shape m k Y ->
  exists J, cost sg theta1 theta2 X Y lambda_ = Ok J.
Proof.
  intros H1 H2 HX HY.
  destruct (feed_forward sg theta1 theta2 X) as [[[a3 a2] a1]|e] eqn:Hff;
    [|now rewrite (feed_forward_ok sg _ _ _ _ _ _ _ H1 H2 HX) in Hff].
  destruct (feed_forward_shape sg _ _ _ _ _ _ _ _ _ _ H1 H2 HX Hff)
    as (_ & _ & HH).
  unfold cost. rewrite Hff. simpl.
  rewrite (mzip_ok Rmult Y (mmap ln a3) m k)
    by (try apply mmap_shape; assumption).
  simpl.
  rewrite (mzip_ok Rmult (mmap (fun v => 1 - v) Y)
             (mmap ln (mmap (fun x => 1 - x) a3)) m k)
    by (repeat apply mmap_shape; assumption).
  simpl.
  rewrite (mzip_ok Rplus (mzip_val Rmult Y (mmap ln a3))
             (mzip_val Rmult (mmap (fun v => 1 - v) Y)
                (mmap ln (mmap (fun x => 1 - x) a3))) m k)
    by (apply mzip_val_shape; repeat apply mmap_shape; assumption).
  simpl. eexists. reflexivity.
Qed.

(** ** Backpropagation *)

Section backprop_run.

Variables (sg : R -> R) (σ : heap) (theta1 theta2 X y : loc).
Variables (T1 T2 X_ Y a3 a2 a1 : matrix) (lambda_ : R) (h n k m : nat).
Hypothesis Hth1 : σ !! theta1 = Some T1.
Hypothesis Hth2 : σ !! theta2 = Some T2.
Hypothesis HlX : σ !! X = Some X_.
Hypothesis Hly : σ !! y = Some Y.
Hypothesis HT1 : has_shape h (S n) T1.
Hypothesis HT2 : has_shape k (S h) T2.
Hypothesis HX : has_shape m n X_.
Hypothesis HY : has_shape m k Y.
Hypothesis Hm : (1 <= m)%nat.
Hypothesis Hff : feed_forward sg T1 T2 X_ = Ok (a3, a2, a1).

Lemma backprop_ok :
  exists J g1 g2,
    cost sg T1 T2 X_ Y lambda_ = Ok J /\
    σ !! g1 = None /\ σ !! g2 = None /\ g1 <> g2 /\
    backprop sg theta1 theta2 X y lambda_ σ
    = Ok ((J, g1, g2),
          with_grads σ g1 g2
            (grad1_spec a3 a2 a1 Y k m lambda_ T1 T2 h n)
            (grad2_spec a3 a2 Y k m lambda_ T2 h)).
Proof.
  destruct (cost_total sg T1 T2 X_ Y lambda_ h n k m HT1 HT2 HX HY)
    as [J HJ].
  destruct (feed_forward_shape sg _ _ _ _ _ _ _ _ _ _ HT1 HT2 HX Hff)
    as (Ha1 & Ha2 & Ha3).
  set (g1 := fresh (dom σ)).
  set (σ1 := <[g1 := np_zeros_like T1]> σ).
  set (g2 := fresh (dom σ1)).
  assert (Hg1 : σ !! g1 = None) by apply alloc_fresh.
  assert (Hg2' : σ1 !! g2 = None) by apply alloc_fresh.
  assert (Hne : g1 <> g2).
  { intros E. rewrite <- E in Hg2'. unfold σ1 in Hg2'.
    rewrite lookup_insert_eq in Hg2'. discriminate. }
  assert (Hg2 : σ !! g2 = None).
  { unfold σ1 in Hg2'. now rewrite lookup_insert_ne in Hg2' by exact Hne. }
  exists J, g1, g2. repeat (split; [assumption|]).
  pose proof HX as (HmX & _ & _).
  unfold backprop.
  rewrite (bind_ok _ _ _ _ _ (deref_ok _ _ _ HlX)).
  rewrite (bind_ok _ _ _ _ _ (deref_ok _ _ _ Hth1)).
  rewrite (bind_ok _ _ _ _ _ (deref_ok _ _ _ Hth2)).
  rewrite (bind_ok _ _ _ _ _ (deref_ok _ _ _ Hly)).
  rewrite (bind_ok _ _ _ _ _ (lift_ok _ _ _ HJ)).
  rewrite (bind_ok (alloc (np_zeros_like T1)) _ σ σ1 g1 eq_refl).
  rewrite (bind_ok (alloc (np_zeros_like T2)) _ σ1
             (with_grads σ g1 g2 (np_zeros_like T1) (np_zeros_like T2))
             g2 eq_refl).
  rewrite (bind_ok _ _ _ _ _ (lift_ok _ _ _ Hff)). cbv beta iota.
  rewrite HmX.
  rewrite (zeros_like_mk T1 h (S n) (acc1_spec a3 a2 a1 Y k 0 T2) HT1)
    by reflexivity.
  rewrite (zeros_like_mk T2 k (S h) (acc2_spec a3 a2 Y 0) HT2)
    by reflexivity.
  rewrite (bind_ok _ _ _ _ _
             (for_range_backprop a3 a2 a1 Y T2 h n k m Ha3 Ha2 Ha1 HY HT2
                σ theta2 y g1 g2 Hg1 Hg2 Hne Hth2 Hly m 0 eq_refl)).
  rewrite (bind_ok _ _ _ _ _
             (idiv_col0_ok g1 _ m h n _ (with_grads_g1 σ g1 g2 Hne _ _)
                (mk_matrix_shape _ _ _) Hm)).
  rewrite (with_grads_set1 σ g1 g2 Hne).
  rewrite (bind_ok _ _ _ _ _
             (idiv_col0_ok g2 _ m k h _ (with_grads_g2 σ g1 g2 _ _)
                (mk_matrix_shape _ _ _) Hm)).
  rewrite with_grads_set2.
  rewrite (bind_ok _ _ _ _ _
             (regularize_ok g1 theta1 _ T1 lambda_ m h n _
                (with_grads_g1 σ g1 g2 Hne _ _)
                (with_grads_old σ g1 g2 Hg1 Hg2 _ _ _ _ Hth1)
                (div_col0_val_shape _ _ _ _ (mk_matrix_shape _ _ _))
                HT1 Hm)).
  rewrite (with_grads_set1 σ g1 g2 Hne).
  rewrite (bind_ok _ _ _ _ _
             (regularize_ok g2 theta2 _ T2 lambda_ m k h _
                (with_grads_g2 σ g1 g2 _ _)
                (with_grads_old σ g1 g2 Hg1 Hg2 _ _ _ _ Hth2)
                (div_col0_val_shape _ _ _ _ (mk_matrix_shape _ _ _))
                HT2 Hm)).
  rewrite with_grads_set2.
  rewrite (finalize_val _ T1 lambda_ m h n (mk_matrix_shape _ _ _) HT1).
  rewrite (finalize_val _ T2 lambda_ m k h (mk_matrix_shape _ _ _) HT2).
  unfold mret, M_ret. do 3 f_equal.
  - unfold grad1_spec. apply mk_matrix_ext. intros r c Hr Hc.
    destruct c; simpl; rewrite entry_mk_matrix by (assumption || lia);
      reflexivity.
  - unfold grad2_spec. apply mk_matrix_ext. intros r c Hr Hc.
    destruct c; simpl; rewrite entry_mk_matrix by (assumption || lia);
      reflexivity.
Qed.

End backprop_run.

Lemma feed_forward_forward_spec (sg : R -> R) (theta1 theta2 X : matrix)
    (h n k m : nat) :
  has_shape h (S n) theta1 -> has_shape k (S h) theta2 -> has_shape m n X ->
  feed_forward sg theta1 theta2 X = Ok (forward_spec sg theta1 theta2 X).
Proof. exact (feed_forward_ok sg theta1 theta2 X h n k m). Qed.

(** C1: on valid input with m >= 1 examples [backprop] returns, and the two
    arrays it returns hold the gradients of the specification: the sums over
    the examples of the outer products [d2^T . a1[i]] and [d3^T . a2[i]],
    column 0 divided by m, the other columns with [lambda * theta] added and
    then divided by m. *)
Theorem backprop_gradients (sg : R -> R) (σ : heap) (theta1 theta2 X y : loc)
    (T1 T2 X_ Y a3 a2 a1 : matrix) (lambda_ : R) (h n k m : nat) :
  σ !! theta1 = Some T1 -> σ !! theta2 = Some T2 ->
  σ !! X = Some X_ -> σ !! y = Some Y ->
  has_shape h (S n) T1 -> has_shape k (S h) T2 ->
  has_shape m n X_ -> has_shape m k Y ->
  (1 <= m)%nat ->
  feed_forward sg T1 T2 X_ = Ok (a3, a2, a1) ->
  exists J grad1 grad2 σ',
    backprop sg theta1 theta2 X y lambda_ σ = Ok ((J, grad1, grad2), σ') /\
    σ' !! grad1 = Some (grad1_spec a3 a2 a1 Y k m lambda_ T1 T2 h n) /\
    σ' !! grad2 = Some (grad2_spec a3 a2 Y k m lambda_ T2 h).
Proof.
  intros Hth1 Hth2 HlX Hly HT1 HT2 HX HY Hm Hff.
  destruct (backprop_ok sg σ theta1 theta2 X y T1 T2 X_ Y a3 a2 a1 lambda_
              h n k m Hth1 Hth2 HlX Hly HT1 HT2 HX HY Hm Hff)
    as (J & g1 & g2 & _ & Hg1 & Hg2 & Hne & Hrun).
  exists J, g1, g2. eexists. split; [exact Hrun|]. split.
  - now apply with_grads_g1.
  - apply with_grads_g2.
Qed.

Lemma ex_shapes :
  has_shape 2 3 ex_theta1 /\ has_shape 1 3 ex_theta2 /\
  has_shape 1 2 ex_X /\ has_shape 1 1 ex_Y.
Proof. unfold has_shape, nrows, wf; simpl. repeat split; repeat constructor. Qed.

Lemma ex_lookups :
  ex_heap !! 0%nat = Some ex_theta1 /\ ex_heap !! 1%nat = Some ex_theta2 /\
  ex_heap !! 2%nat = Some ex_X /\ ex_heap !! 3%nat = Some ex_Y.
Proof. repeat split. Qed.

Lemma backprop_gradients_witness :
  exists J grad1 grad2 σ',
    backprop sigmoid 0%nat 1%nat 2%nat 3%nat 0 ex_heap
    = Ok ((J, grad1, grad2), σ') /\
    σ' !! grad1
    = Some (let '(a3, a2, a1) := forward_spec sigmoid ex_theta1 ex_theta2 ex_X
            in grad1_spec a3 a2 a1 ex_Y 1 1 0 ex_theta1 ex_theta2 2 2) /\
    σ' !! grad2
    = Some (let '(a3, a2, a1) := forward_spec sigmoid ex_theta1 ex_theta2 ex_X
            in grad2_spec a3 a2 ex_Y 1 1 0 ex_theta2 2).
Proof.
  destruct ex_shapes as (S1 & S2 & SX & SY).
  destruct ex_lookups as (L1 & L2 & LX & LY).
  exact (backprop_gradients sigmoid ex_heap 0%nat 1%nat 2%nat 3%nat
           ex_theta1 ex_theta2 ex_X ex_Y _ _ _ 0 2 2 1 1
           L1 L2 LX LY S1 S2 SX SY (le_n 1)
           (feed_forward_forward_spec sigmoid _ _ _ 2 2 1 1 S1 S2 SX)).
Defined.

Lemma backprop_fresh (sg : R -> R) (theta1 theta2 X y : loc) (lambda_ : R)
    (σ σ' : heap) (J : float) (grad1 grad2 : loc) :
  backprop sg theta1 theta2 X y lambda_ σ = Ok ((J, grad1, grad2), σ') ->
  σ !! grad1 = None /\ σ !! grad2 = None /\ grad1 <> grad2.
Proof.
  unfold backprop. intros H.
  apply bind_inv in H as (X_ & s & H1 & H). apply deref_inv in H1 as [_ ->].
  apply bind_inv in H as (T1 & s & H1 & H). apply deref_inv in H1 as [_ ->].
  apply bind_inv in H as (T2 & s & H1 & H). apply deref_inv in H1 as [_ ->].
  apply bind_inv in H as (Y & s & H1 & H). apply deref_inv in H1 as [_ ->].
  apply bind_inv in H as (J0 & s & H1 & H). apply lift_inv in H1 as [_ ->].
  apply bind_inv in H as (g1 & s1 & H1 & H).
  unfold alloc in H1. injection H1 as <- <-.
  apply bind_inv in H as (g2 & s2 & H1 & H).
  unfold alloc in H1. injection H1 as <- <-.
  apply bind_inv in H as ([[act3 act2] act1] & s & _ & H).
  do 5 (apply bind_inv in H as (? & ? & _ & H)).
  injection H as _ <- <- _.
  pose proof (alloc_fresh σ) as F1.
  pose proof (alloc_fresh (<[fresh (dom σ) := np_zeros_like T1]> σ)) as F2.
  apply lookup_insert_None in F2 as [F2 F3].
  repeat split; assumption.
Qed.

(** C9: whenever [backprop] returns, every array that existed before the call,
    [theta1], [theta2], [X] and [y] among them, has its contents unchanged;
    the two gradient arrays it returns are new objects. *)
Theorem backprop_frame (sg : R -> R) (theta1 theta2 X y : loc) (lambda_ : R)
    (σ σ' : heap) (J : float) (grad1 grad2 : loc) :
  backprop sg theta1 theta2 X y lambda_ σ = Ok ((J, grad1, grad2), σ') ->
  (forall l A, σ !! l = Some A -> σ' !! l = Some A) /\
  σ !! grad1 = None /\ σ !! grad2 = None.
Proof.
  intros H. split.
  - intros l A Hl.
    assert (Hsub : σ ⊆ σ')
      by exact (keeps_backprop sg σ theta1 theta2 X y lambda_ σ _ σ'
                  (reflexivity σ) H).
    exact (lookup_weaken _ _ _ _ Hl Hsub).
  - destruct (backprop_fresh _ _ _ _ _ _ _ _ _ _ _ H) as (F1 & F2 & _).
    now split.
Qed.

Lemma backprop_frame_witness :
  exists J grad1 grad2 σ',
    backprop sigmoid 0%nat 1%nat 2%nat 3%nat 0 ex_heap
    = Ok ((J, grad1, grad2), σ') /\
    (forall l A, ex_heap !! l = Some A -> σ' !! l = Some A) /\
    ex_heap !! grad1 = None /\ ex_heap !! grad2 = None.
Proof.
  destruct ex_shapes as (S1 & S2 & SX & SY).
  destruct ex_lookups as (L1 & L2 & LX & LY).
  destruct (backprop_ok sigmoid ex_heap 0%nat 1%nat 2%nat 3%nat
              ex_theta1 ex_theta2 ex_X ex_Y _ _ _ 0 2 2 1 1
              L1 L2 LX LY S1 S2 SX SY (le_n 1)
              (feed_forward_forward_spec sigmoid _ _ _ 2 2 1 1 S1 S2 SX))
    as (J & g1 & g2 & _ & _ & _ & _ & Hrun).
  exists J, g1, g2. eexists. split; [exact Hrun|].
  exact (backprop_frame _ _ _ _ _ _ _ _ _ _ _ Hrun).
Defined.

(** With an activation that stays strictly between 0 and 1, so does every
    entry of the final-layer output. *)
Lemma forward_range (sg : R -> R) (theta1 theta2 X a3 a2 a1 : matrix)
    (h n k m : nat) :
  (forall z, 0 < sg z < 1) ->
  has_shape h (S n) theta1 -> has_shape k (S h) theta2 -> has_shape m n X ->
  feed_forward sg theta1 theta2 X = Ok (a3, a2, a1) ->
  forall i j, (i < m)%nat -> (j < k)%nat -> 0 < entry a3 i j < 1.
Proof.
  intros Hsg H1 H2 HX Hff i j Hi Hj.
  destruct (feed_forward_shape sg _ _ _ _ _ _ _ _ _ _ H1 H2 HX Hff)
    as (_ & Ha2 & _).
  rewrite (feed_forward_ok sg _ _ _ _ _ _ _ H1 H2 HX) in Hff.
  injection Hff as <- <- <-.
  rewrite (entry_mmap sg _ m k);
    [apply Hsg | apply matmul_T_shape; [apply Ha2 | apply H2]
    | assumption | assumption].
Qed.

Lemma sigmoid_range (z : R) : 0 < sigmoid z < 1.
Proof. split; [apply sigmoid_pos | apply sigmoid_lt_1]. Qed.

Lemma feed_forward_spec_witness :
  exists a3 a2 a1,
    feed_forward sigmoid ex_theta1 ex_theta2 ex_X = Ok (a3, a2, a1) /\
    a1 = prepend_ones_spec ex_X /\
    a2 = prepend_ones_spec (mmap sigmoid (matmul_T_spec a1 ex_theta1)) /\
    a3 = mmap sigmoid (matmul_T_spec a2 ex_theta2) /\
    has_shape 1 3 a1 /\ has_shape 1 3 a2 /\ has_shape 1 1 a3.
Proof.
  destruct ex_shapes as (S1 & S2 & SX & _).
  exact (feed_forward_spec sigmoid ex_theta1 ex_theta2 ex_X 2 2 1 1 S1 S2 SX).
Defined.

Lemma cost_formula_witness :
  cost sigmoid ex_theta1 ex_theta2 ex_X ex_Y 0
  = Ok (fin (cost_spec ex_theta1 ex_theta2 ex_Y
               (forward_spec sigmoid ex_theta1 ex_theta2 ex_X).1.1
               0 2 2 1 1)).
Proof.
  destruct ex_shapes as (S1 & S2 & SX & SY).
  pose proof (feed_forward_forward_spec sigmoid _ _ _ 2 2 1 1 S1 S2 SX)
    as Hff.
  exact (cost_formula sigmoid ex_theta1 ex_theta2 ex_X ex_Y _ _ _ 0 2 2 1 1
           S1 S2 SX SY (le_n 1) Hff
           (forward_range sigmoid _ _ _ _ _ _ 2 2 1 1 sigmoid_range
              S1 S2 SX Hff)).
Defined.

(** ** The gradient-descent loop *)

Section descent.

Variables (sg : R -> R) (theta1 theta2 X y : loc) (X_ Y : matrix).
Variables (alpha lambda_ : R) (h n k m : nat).
Hypothesis HX : has_shape m n X_.
Hypothesis HY : has_shape m k Y.
Hypothesis Hm : (1 <= m)%nat.
Hypothesis H12 : theta1 <> theta2.
Hypothesis H1X : theta1 <> X.
Hypothesis H1y : theta1 <> y.
Hypothesis H2X : theta2 <> X.
Hypothesis H2y : theta2 <> y.

Let step := gd_step sg X_ Y alpha lambda_ h n k m.
Let inv := gd_inv theta1 theta2 X y X_ Y.

Lemma gd_step_shape (P : matrix * matrix) :
  weights_shape h n k P -> weights_shape h n k (step P).
Proof.
  intros [HP1 HP2]. subst step. unfold gd_step, forward_spec, weights_shape.
  simpl. split.
  - apply mzip_val_shape; [exact HP1|]. apply mmap_shape, mk_matrix_shape.
  - apply mzip_val_shape; [exact HP2|]. apply mmap_shape, mk_matrix_shape.
Qed.

(** One iteration: [backprop], then the two in-place updates. *)
Lemma gradient_iter_ok (σ : heap) (P : matrix * matrix) :
  inv σ P -> weights_shape h n k P ->
  exists J g1 g2 σb σ1,
    backprop sg theta1 theta2 X y lambda_ σ = Ok ((J, g1, g2), σb) /\
    cost sg P.1 P.2 X_ Y lambda_ = Ok J /\
    inv σ1 (step P) /\
    forall t Jprev,
      gradient_loop sg (S t) theta1 theta2 X y alpha lambda_ Jprev σ
      = gradient_loop sg t theta1 theta2 X y alpha lambda_ (Some J) σ1.
Proof.
  intros (L1 & L2 & LX & Ly) [HP1 HP2]. destruct P as [T1 T2]. simpl in *.
  pose proof (feed_forward_forward_spec sg T1 T2 X_ h n k m HP1 HP2 HX)
    as Hff.
  destruct (forward_spec sg T1 T2 X_) as [[a3 a2] a1] eqn:Efw.
  destruct (backprop_ok sg σ theta1 theta2 X y T1 T2 X_ Y a3 a2 a1 lambda_
              h n k m L1 L2 LX Ly HP1 HP2 HX HY Hm Hff)
    as (J & g1 & g2 & HJ & Hg1 & Hg2 & Hne & Hrun).
  set (G1 := grad1_spec a3 a2 a1 Y k m lambda_ T1 T2 h n) in *.
  set (G2 := grad2_spec a3 a2 Y k m lambda_ T2 h) in *.
  set (σb := with_grads σ g1 g2 G1 G2) in *.
  set (T1' := mzip_val Rminus T1 (mmap (Rmult alpha) G1)).
  set (T2' := mzip_val Rminus T2 (mmap (Rmult alpha) G2)).
  set (σa := <[theta1 := T1']> σb).
  set (σ1 := <[theta2 := T2']> σa).
  assert (N1 : theta1 <> g1) by congruence.
  assert (N2 : theta1 <> g2) by congruence.
  assert (N3 : theta2 <> g2) by congruence.
  assert (Hb1 : σb !! theta1 = Some T1) by now apply with_grads_old.
  assert (Hbg1 : σb !! g1 = Some G1) by now apply with_grads_g1.
  assert (Hag2 : σa !! g2 = Some G2).
  { unfold σa. rewrite lookup_insert_ne by exact N2. apply with_grads_g2. }
  assert (Ha2 : σa !! theta2 = Some T2).
  { unfold σa. rewrite lookup_insert_ne by exact H12.
    now apply with_grads_old. }
  exists J, g1, g2, σb, σ1. split; [exact Hrun|]. split; [exact HJ|]. split.
  - subst inv step. unfold gd_inv, gd_step. cbn [fst snd]. rewrite Efw.
    cbn [fst snd]. fold G1 G2. fold T1' T2'. unfold σ1, σa.
    repeat split.
    + rewrite lookup_insert_ne by congruence. apply lookup_insert_eq.
    + apply lookup_insert_eq.
    + rewrite !lookup_insert_ne by congruence. now apply with_grads_old.
    + rewrite !lookup_insert_ne by congruence. now apply with_grads_old.
  - intros t Jprev. simpl.
    rewrite (bind_ok _ _ _ _ _ Hrun). cbv beta iota.
    rewrite (bind_ok _ _ _ _ _ (deref_ok _ _ _ Hbg1)).
    rewrite (bind_ok _ _ _ _ _
               (isub_ok theta1 T1 (mmap (Rmult alpha) G1) h (S n) σb Hb1 HP1
                  (mmap_shape _ _ _ _ (mk_matrix_shape _ _ _)))).
    fold T1' σa.
    rewrite (bind_ok _ _ _ _ _ (deref_ok _ _ _ Hag2)).
    rewrite (bind_ok _ _ _ _ _
               (isub_ok theta2 T2 (mmap (Rmult alpha) G2) k (S h) σa Ha2 HP2
                  (mmap_shape _ _ _ _ (mk_matrix_shape _ _ _)))).
    reflexivity.
Qed.

(** The whole loop.  After [t] iterations the weights are the [t]-fold
    update of the initial ones; for [t >= 1] the local [J] is the one the
    last call of [backprop] returned, the cost of the weights before the last
    update. *)
Lemma gradient_loop_ok (t : nat) :
  forall (σ : heap) (P : matrix * matrix) (Jprev : option float),
    inv σ P -> weights_shape h n k P ->
    exists Jout σ',
      gradient_loop sg t theta1 theta2 X y alpha lambda_ Jprev σ
      = Ok (Jout, σ') /\
      inv σ' (Nat.iter t step P) /\
      match t with
      | O => Jout = Jprev /\ σ' = σ
      | S t' =>
          exists J σp g1 g2 σb,
            Jout = Some J /\
            inv σp (Nat.iter t' step P) /\
            backprop sg theta1 theta2 X y lambda_ σp = Ok ((J, g1, g2), σb) /\
            cost sg (Nat.iter t' step P).1 (Nat.iter t' step P).2 X_ Y lambda_
            = Ok J
      end.
Proof.
  induction t as [|t IH]; intros σ P Jprev Hinv Hsh.
  - exists Jprev, σ. simpl. split; [reflexivity|]. split; [exact Hinv|].
    split; reflexivity.
  - destruct (gradient_iter_ok σ P Hinv Hsh)
      as (J & g1 & g2 & σb & σ1 & Hrun & HJ & Hinv1 & Hloop).
    destruct (IH σ1 (step P) (Some J) Hinv1 (gd_step_shape P Hsh))
      as (Jout & σ' & Hrest & Hinv' & Hlast).
    exists Jout, σ'. rewrite Hloop. split; [exact Hrest|].
    rewrite Nat.iter_succ_r. split; [exact Hinv'|].
    destruct t as [|t'].
    + destruct Hlast as [-> _].
      exists J, σ, g1, g2, σb. simpl.
      split; [reflexivity|]. split; [exact Hinv|]. split; assumption.
    + destruct Hlast as (J' & σp & g1' & g2' & σb' & -> & Hp & Hr & Hc).
      exists J', σp, g1', g2', σb'. rewrite Nat.iter_succ_r.
      split; [reflexivity|]. split; [exact Hp|]. split; assumption.
Qed.


(** The last of [t + 1] iterations: it starts in the heap [σp] that the
    first [t] iterations leave, where the weights have had [t] updates. *)
Lemma gradient_loop_last (t : nat) :
  forall (σ : heap) (P : matrix * matrix) (Jprev : option float),
    inv σ P -> weights_shape h n k P ->
    exists Jp σp J g1 g2 σb σ',
      gradient_loop sg t theta1 theta2 X y alpha lambda_ Jprev σ
      = Ok (Jp, σp) /\
      inv σp (Nat.iter t step P) /\
      backprop sg theta1 theta2 X y lambda_ σp = Ok ((J, g1, g2), σb) /\
      gradient_loop sg (S t) theta1 theta2 X y alpha lambda_ Jprev σ
      = Ok (Some J, σ') /\
      inv σ' (Nat.iter (S t) step P).
Proof.
  induction t as [|t IH]; intros σ P Jprev Hinv Hsh.
  - destruct (gradient_iter_ok σ P Hinv Hsh)
      as (J & g1 & g2 & σb & σ1 & Hrun & _ & Hinv1 & Hloop).
    exists Jprev, σ, J, g1, g2, σb, σ1.
    split; [reflexivity|]. split; [exact Hinv|]. split; [exact Hrun|].
    split; [rewrite Hloop; reflexivity | exact Hinv1].
  - destruct (gradient_iter_ok σ P Hinv Hsh)
      as (J0 & g10 & g20 & σb0 & σ1 & _ & _ & Hinv1 & Hloop).
    destruct (IH σ1 (step P) (Some J0) Hinv1 (gd_step_shape P Hsh))
      as (Jp & σp & J & g1 & g2 & σb & σ' & Hpre & Hinvp & Hrun & Hall
          & Hinv').
    exists Jp, σp, J, g1, g2, σb, σ'.
    rewrite !Hloop, !(Nat.iter_succ_r _ step P).
    split; [exact Hpre|]. split; [exact Hinvp|]. split; [exact Hrun|].
    split; [exact Hall | exact Hinv'].
Qed.
End descent.

(** ** Finiteness of the cost *)

Lemma all_pos_entries (A : matrix) (r c : nat) :
  has_shape r c A -> all_pos A = true ->
  forall i j, (i < r)%nat -> (j < c)%nat -> 0 < entry A i j.
Proof.
  intros HA Hall i j Hi Hj.
  pose proof (nth_row_length r c i A HA Hi) as Hlen.
  destruct HA as (Hr & _ & _). unfold nrows in Hr.
  unfold all_pos in Hall. rewrite forallb_forall in Hall.
  assert (Hrow : forallb (fun x => bool_decide (0 < x)) (nth i (rows A) [])
                 = true) by (apply Hall, nth_In; lia).
  rewrite forallb_forall in Hrow.
  assert (Hb : bool_decide (0 < entry A i j) = true)
    by (apply Hrow, nth_In; lia).
  exact (bool_decide_eq_true_1 _ Hb).
Qed.

(** The three cases of [cost] on arrays that fit, told apart by the
    logarithms. *)
Lemma cost_cases (sg : R -> R) (theta1 theta2 X Y H a2 a1 : matrix)
    (lambda_ : R) (h n k m : nat) :
  has_shape h (S n) theta1 -> has_shape k (S h) theta2 ->
  has_shape m n X -> has_shape m k Y ->
  feed_forward sg theta1 theta2 X = Ok (H, a2, a1) ->
  let in_range :=
    (1 <= m)%nat /\
    forall i j, (i < m)%nat -> (j < k)%nat -> 0 < entry H i j < 1 in
  (in_range /\
   cost sg theta1 theta2 X Y lambda_
   = Ok (fin (cost_spec theta1 theta2 Y H lambda_ h n k m))) \/
  (~ in_range /\ cost sg theta1 theta2 X Y lambda_ = Ok nonfin).
Proof.
  intros H1 H2 HX HY Hff in_range.
  destruct (feed_forward_shape sg _ _ _ _ _ _ _ _ _ _ H1 H2 HX Hff)
    as (_ & _ & HH).
  pose proof (mmap_shape (fun x => 1 - x) _ _ _ HH) as HH'.
  rewrite (cost_value sg _ _ _ _ _ _ _ lambda_ _ _ _ _ H1 H2 HX HY Hff).
  destruct (all_pos H && all_pos (mmap (fun x => 1 - x) H)
            && negb (m =? 0)%nat) eqn:Eb.
  - left. split; [|reflexivity].
    apply andb_prop in Eb as [Eb Em]. apply andb_prop in Eb as [Ep Ep'].
    apply negb_true_iff, Nat.eqb_neq in Em.
    split; [lia|]. intros i j Hi Hj.
    pose proof (all_pos_entries _ _ _ HH Ep i j Hi Hj) as P1.
    pose proof (all_pos_entries _ _ _ HH' Ep' i j Hi Hj) as P2.
    rewrite (entry_mmap _ _ m k) in P2 by assumption. lra.
  - right. split; [|reflexivity]. intros [Hm Hrange].
    rewrite (all_pos_true H m k HH) in Eb by (intros; now apply Hrange).
    rewrite (all_pos_true (mmap (fun x => 1 - x) H) m k HH') in Eb.
    2:{ intros i j Hi Hj. rewrite (entry_mmap _ _ m k) by assumption.
        destruct (Hrange i j Hi Hj). lra. }
    replace (m =? 0)%nat with false in Eb
      by (symmetry; apply Nat.eqb_neq; lia).
    discriminate.
Qed.

(** With the sigmoid over the reals every prediction lies strictly between
    0 and 1 and the logarithms are finite. *)
Lemma cost_sigmoid_value (theta1 theta2 X Y : matrix) (lambda_ : R)
    (h n k m : nat) :
  has_shape h (S n) theta1 -> has_shape k (S h) theta2 ->
  has_shape m n X -> has_shape m k Y -> (1 <= m)%nat ->
  cost sigmoid theta1 theta2 X Y lambda_
  = Ok (fin (cost_spec theta1 theta2 Y
               (forward_spec sigmoid theta1 theta2 X).1.1 lambda_ h n k m)).
Proof.
  intros H1 H2 HX HY Hm.
  pose proof (feed_forward_forward_spec sigmoid _ _ _ h n k m H1 H2 HX)
    as Hff.
  destruct (forward_spec sigmoid theta1 theta2 X) as [[H a2] a1].
  pose proof (forward_range sigmoid _ _ _ _ _ _ h n k m sigmoid_range
                H1 H2 HX Hff) as Hr.
  cbn [fst].
  destruct (cost_cases sigmoid _ _ _ Y _ _ _ lambda_ h n k m H1 H2 HX HY Hff)
    as [[_ Hc]|[Hn _]]; [exact Hc|].
  exfalso. apply Hn. now split.
Qed.

(** C3, as the code has it: [cost] does not clamp.  It takes the logarithms
    of [h] and [1 - h] as they are: when a prediction is at 0 or 1, or the
    batch is empty, the cost is inf or nan; whenever the cost is finite,
    m >= 1, every [h_ij] lies strictly between 0 and 1 and the cost is the
    value of the specification's formula on the unclamped [h]. *)
Theorem cost_not_clamped (sg : R -> R) (theta1 theta2 X Y H a2 a1 : matrix)
    (lambda_ : R) (h n k m : nat) :
  has_shape h (S n) theta1 -> has_shape k (S h) theta2 ->
  has_shape m n X -> has_shape m k Y ->
  feed_forward sg theta1 theta2 X = Ok (H, a2, a1) ->
  let in_range :=
    (1 <= m)%nat /\
    forall i j, (i < m)%nat -> (j < k)%nat -> 0 < entry H i j < 1 in
  (~ in_range -> cost sg theta1 theta2 X Y lambda_ = Ok nonfin) /\
  (forall c, cost sg theta1 theta2 X Y lambda_ = Ok (fin c) ->
             in_range /\ c = cost_spec theta1 theta2 Y H lambda_ h n k m).
Proof.
  intros H1 H2 HX HY Hff in_range.
  destruct (cost_cases sg _ _ _ Y _ _ _ lambda_ h n k m H1 H2 HX HY Hff)
    as [[Hin Hc]|[Hn Hc]].
  - split; [intros Hn; exfalso; exact (Hn Hin)|].
    intros c Hfin. rewrite Hc in Hfin. injection Hfin as <-.
    split; [exact Hin | reflexivity].
  - split; [intros _; exact Hc|].
    intros c Hfin. rewrite Hc in Hfin. discriminate.
Qed.

Lemma ex_sat_shape : has_shape 1 3 ex_theta2_sat.
Proof. unfold has_shape, nrows, wf; simpl. repeat split; repeat constructor. Qed.

Lemma sigmoid_fp64_low : sigmoid_fp64 (-1000) = 0.
Proof.
  unfold sigmoid_fp64. destruct (Rlt_dec (-1000) (-710)) as [_|Hn];
    [reflexivity|].
  exfalso. apply Hn. lra.
Qed.

Lemma ex_sat_output :
  (forward_spec sigmoid_fp64 ex_theta1 ex_theta2_sat ex_X).1.1 = Mat 1 [[0]].
Proof.
  unfold forward_spec, matmul_T_spec, prepend_ones_spec, mmap, dot, vsum,
    nrows; simpl.
  do 3 f_equal.
  transitivity (sigmoid_fp64 (-1000)); [f_equal; ring | apply sigmoid_fp64_low].
Qed.

(** The cost is not clamped: with a final-layer output that float64 saturates
    to exactly 0 the cost is not finite. *)
Lemma cost_not_finite_when_saturated :
  entry (forward_spec sigmoid_fp64 ex_theta1 ex_theta2_sat ex_X).1.1 0 0 = 0 /\
  cost sigmoid_fp64 ex_theta1 ex_theta2_sat ex_X ex_Y 0 = Ok nonfin.
Proof.
  destruct ex_shapes as (S1 & _ & SX & SY).
  pose proof (feed_forward_forward_spec sigmoid_fp64 _ _ _ 2 2 1 1
                S1 ex_sat_shape SX) as Hff.
  pose proof ex_sat_output as Hout.
  destruct (forward_spec sigmoid_fp64 ex_theta1 ex_theta2_sat ex_X)
    as [[H a2] a1]. simpl in Hout. subst H.
  split; [reflexivity|].
  rewrite (cost_value sigmoid_fp64 _ _ _ _ _ _ _ 0 2 2 1 1
             S1 ex_sat_shape SX SY Hff).
  unfold all_pos at 1; simpl.
  rewrite bool_decide_eq_false_2 by lra. reflexivity.
Qed.

Lemma cost_not_clamped_witness :
  exists c,
    cost sigmoid ex_theta1 ex_theta2_next ex_X ex_Y 1 = Ok (fin c) /\
    ((1 <= 1)%nat /\
     forall i j, (i < 1)%nat -> (j < 1)%nat ->
       0 < entry (forward_spec sigmoid ex_theta1 ex_theta2_next ex_X).1.1 i j
       < 1) /\
    c = cost_spec ex_theta1 ex_theta2_next ex_Y
          (forward_spec sigmoid ex_theta1 ex_theta2_next ex_X).1.1 1 2 2 1 1.
Proof.
  destruct ex_shapes as (S1 & _ & SX & SY).
  assert (S2 : has_shape 1 3 ex_theta2_next).
  { unfold has_shape, nrows, wf; simpl. repeat split; repeat constructor. }
  pose proof (feed_forward_forward_spec sigmoid _ _ _ 2 2 1 1 S1 S2 SX)
    as Hff.
  pose proof (cost_sigmoid_value ex_theta1 ex_theta2_next ex_X ex_Y 1
                2 2 1 1 S1 S2 SX SY (le_n 1)) as Hc.
  eexists. split; [exact Hc|].
  exact (proj2 (cost_not_clamped sigmoid ex_theta1 ex_theta2_next ex_X ex_Y
                  _ _ _ 1 2 2 1 1 S1 S2 SX SY Hff) _ Hc).
Defined.

(** ** The training loop *)

(** C5: for [num_iters >= 1] the loop runs [num_iters] times, whatever the
    costs are: the weights [gradient] leaves in [theta1] and [theta2], the
    two arrays it returns, are the [num_iters]-fold update
    [theta - alpha * grad] of the initial ones, and the [J] it returns is
    the one that [backprop] returns in the last iteration: called in the
    heap [σp] that the first [num_iters - 1] iterations leave, where the
    weights have had [num_iters - 1] updates and [X], [y] are the data. *)
Theorem gradient_iterations (sg : R -> R) (σ : heap) (theta1 theta2 X y : loc)
    (T1 T2 X_ Y : matrix) (num_iters : Z) (alpha lambda_ : R)
    (h n k m : nat) :
  σ !! theta1 = Some T1 -> σ !! theta2 = Some T2 ->
  σ !! X = Some X_ -> σ !! y = Some Y ->
  has_shape h (S n) T1 -> has_shape k (S h) T2 ->
  has_shape m n X_ -> has_shape m k Y ->
  (1 <= m)%nat ->
  theta1 <> theta2 -> theta1 <> X -> theta1 <> y ->
  theta2 <> X -> theta2 <> y ->
  (1 <= num_iters)%Z ->
  let step := gd_step sg X_ Y alpha lambda_ h n k m in
  let N := Z.to_nat num_iters in
  exists J σ',
    gradient sg theta1 theta2 X y num_iters alpha lambda_ σ
    = Ok ((J, theta1, theta2), σ') /\
    σ' !! theta1 = Some (Nat.iter N step (T1, T2)).1 /\
    σ' !! theta2 = Some (Nat.iter N step (T1, T2)).2 /\
    σ' !! X = Some X_ /\ σ' !! y = Some Y /\
    exists Jp σp grad1 grad2 σb,
      gradient_loop sg (N - 1) theta1 theta2 X y alpha lambda_ None σ
      = Ok (Jp, σp) /\
      σp !! theta1 = Some (Nat.iter (N - 1) step (T1, T2)).1 /\
      σp !! theta2 = Some (Nat.iter (N - 1) step (T1, T2)).2 /\
      σp !! X = Some X_ /\ σp !! y = Some Y /\
      backprop sg theta1 theta2 X y lambda_ σp = Ok ((J, grad1, grad2), σb).
Proof.
  intros L1 L2 LX Ly HT1 HT2 HX HY Hm H12 H1X H1y H2X H2y Hn step N.
  destruct N as [|N'] eqn:EN; [subst N; lia|].
  destruct (gradient_loop_last sg theta1 theta2 X y X_ Y alpha lambda_ h n k m
              HX HY Hm H12 H1X H1y H2X H2y N' σ (T1, T2) None
              (conj L1 (conj L2 (conj LX Ly))) (conj HT1 HT2))
    as (Jp & σp & J & g1 & g2 & σb & σ' & Hpre & (P1 & P2 & PX & Py) & Hrun
        & Hall & (I1 & I2 & IX & Iy)).
  exists J, σ'. unfold gradient. fold N. rewrite EN.
  rewrite (bind_ok _ _ _ _ _ Hall).
  split; [reflexivity|].
  replace (S N' - 1)%nat with N' by lia.
  repeat (split; [assumption|]).
  exists Jp, σp, g1, g2, σb. repeat (split; [assumption|]). assumption.
Qed.

(** C10: for [num_iters >= 1] the [J] that [gradient] returns is the cost of
    the weights after [num_iters - 1] updates, those the last iteration
    started from, while the weights it returns have had [num_iters]
    updates. *)
Theorem gradient_cost_is_stale (sg : R -> R) (σ : heap)
    (theta1 theta2 X y : loc) (T1 T2 X_ Y : matrix) (num_iters : Z)
    (alpha lambda_ : R) (h n k m : nat) :
  σ !! theta1 = Some T1 -> σ !! theta2 = Some T2 ->
  σ !! X = Some X_ -> σ !! y = Some Y ->
  has_shape h (S n) T1 -> has_shape k (S h) T2 ->
  has_shape m n X_ -> has_shape m k Y ->
  (1 <= m)%nat ->
  theta1 <> theta2 -> theta1 <> X -> theta1 <> y ->
  theta2 <> X -> theta2 <> y ->
  (1 <= num_iters)%Z ->
  let step := gd_step sg X_ Y alpha lambda_ h n k m in
  let N := Z.to_nat num_iters in
  exists J σ',
    gradient sg theta1 theta2 X y num_iters alpha lambda_ σ
    = Ok ((J, theta1, theta2), σ') /\
    cost sg (Nat.iter (N - 1) step (T1, T2)).1
      (Nat.iter (N - 1) step (T1, T2)).2 X_ Y lambda_ = Ok J /\
    σ' !! theta1 = Some (Nat.iter N step (T1, T2)).1 /\
    σ' !! theta2 = Some (Nat.iter N step (T1, T2)).2.
Proof.
  intros L1 L2 LX Ly HT1 HT2 HX HY Hm H12 H1X H1y H2X H2y Hn step N.
  destruct (gradient_loop_ok sg theta1 theta2 X y X_ Y alpha lambda_ h n k m
              HX HY Hm H12 H1X H1y H2X H2y N σ (T1, T2) None
              (conj L1 (conj L2 (conj LX Ly))) (conj HT1 HT2))
    as (Jout & σ' & Hloop & (I1 & I2 & _) & Hlast).
  destruct N as [|N'] eqn:EN; [subst N; lia|].
  destruct Hlast as (J & σp & g1 & g2 & σb & -> & _ & _ & Hcost).
  exists J, σ'. unfold gradient. fold N. rewrite EN.
  rewrite (bind_ok _ _ _ _ _ Hloop).
  split; [reflexivity|].
  replace (S N' - 1)%nat with N' by lia.
  repeat (split; [assumption|]). assumption.
Qed.

Lemma ex_distinct :
  (0 <> 1)%nat /\ (0 <> 2)%nat /\ (0 <> 3)%nat /\ (1 <> 2)%nat /\ (1 <> 3)%nat.
Proof. repeat split; discriminate. Qed.

Lemma gradient_iterations_witness :
  let step := gd_step sigmoid ex_X ex_Y 1 0 2 2 1 1 in
  let N := Z.to_nat 2 in
  exists J σ',
    gradient sigmoid 0%nat 1%nat 2%nat 3%nat 2 1 0 ex_heap
    = Ok ((J, 0%nat, 1%nat), σ') /\
    σ' !! 0%nat = Some (Nat.iter N step (ex_theta1, ex_theta2)).1 /\
    σ' !! 1%nat = Some (Nat.iter N step (ex_theta1, ex_theta2)).2 /\
    σ' !! 2%nat = Some ex_X /\ σ' !! 3%nat = Some ex_Y /\
    exists Jp σp grad1 grad2 σb,
      gradient_loop sigmoid (N - 1) 0%nat 1%nat 2%nat 3%nat 1 0 None ex_heap
      = Ok (Jp, σp) /\
      σp !! 0%nat = Some (Nat.iter (N - 1) step (ex_theta1, ex_theta2)).1 /\
      σp !! 1%nat = Some (Nat.iter (N - 1) step (ex_theta1, ex_theta2)).2 /\
      σp !! 2%nat = Some ex_X /\ σp !! 3%nat = Some ex_Y /\
      backprop sigmoid 0%nat 1%nat 2%nat 3%nat 0 σp
      = Ok ((J, grad1, grad2), σb).
Proof.
  destruct ex_shapes as (S1 & S2 & SX & SY).
  destruct ex_lookups as (L1 & L2 & LX & LY).
  destruct ex_distinct as (D01 & D02 & D03 & D12 & D13).
  exact (gradient_iterations sigmoid ex_heap 0%nat 1%nat 2%nat 3%nat
           ex_theta1 ex_theta2 ex_X ex_Y 2 1 0 2 2 1 1
           L1 L2 LX LY S1 S2 SX SY (le_n 1) D01 D02 D03 D12 D13
           ltac:(lia)).
Defined.

Lemma gradient_cost_is_stale_witness :
  let step := gd_step sigmoid ex_X ex_Y 1 0 2 2 1 1 in
  let N := Z.to_nat 2 in
  exists J σ',
    gradient sigmoid 0%nat 1%nat 2%nat 3%nat 2 1 0 ex_heap
    = Ok ((J, 0%nat, 1%nat), σ') /\
    cost sigmoid (Nat.iter (N - 1) step (ex_theta1, ex_theta2)).1
      (Nat.iter (N - 1) step (ex_theta1, ex_theta2)).2 ex_X ex_Y 0 = Ok J /\
    σ' !! 0%nat = Some (Nat.iter N step (ex_theta1, ex_theta2)).1 /\
    σ' !! 1%nat = Some (Nat.iter N step (ex_theta1, ex_theta2)).2.
Proof.
  destruct ex_shapes as (S1 & S2 & SX & SY).
  destruct ex_lookups as (L1 & L2 & LX & LY).
  destruct ex_distinct as (D01 & D02 & D03 & D12 & D13).
  exact (gradient_cost_is_stale sigmoid ex_heap 0%nat 1%nat 2%nat 3%nat
           ex_theta1 ex_theta2 ex_X ex_Y 2 1 0 2 2 1 1
           L1 L2 LX LY S1 S2 SX SY (le_n 1) D01 D02 D03 D12 D13
           ltac:(lia)).
Defined.

(** ** Hyperparameters *)

(** With a non-positive [num_iters] the loop body never runs: the heap is
    left as it is and [J] stays unbound. *)
Lemma gradient_loop_none (sg : R -> R) (theta1 theta2 X y : loc)
    (num_iters : Z) (alpha lambda_ : R) (J : option float) (σ : heap) :
  (num_iters <= 0)%Z ->
  gradient_loop sg (Z.to_nat num_iters) theta1 theta2 X y alpha lambda_ J σ
  = Ok (J, σ).
Proof.
  intros Hn. replace (Z.to_nat num_iters) with 0%nat by lia. reflexivity.
Qed.

(** A negative [lambda_] is not rejected: [backprop] and [gradient] return
    normally with [lambda_ = -1]. *)
Lemma negative_lambda_accepted :
  (exists J grad1 grad2 σ',
     backprop sigmoid 0%nat 1%nat 2%nat 3%nat (-1) ex_heap
     = Ok ((J, grad1, grad2), σ')) /\
  (exists J σ',
     gradient sigmoid 0%nat 1%nat 2%nat 3%nat 1 1 (-1) ex_heap
     = Ok ((J, 0%nat, 1%nat), σ')).
Proof.
  destruct ex_shapes as (S1 & S2 & SX & SY).
  destruct ex_lookups as (L1 & L2 & LX & LY).
  destruct ex_distinct as (D01 & D02 & D03 & D12 & D13).
  split.
  - destruct (backprop_ok sigmoid ex_heap 0%nat 1%nat 2%nat 3%nat
                ex_theta1 ex_theta2 ex_X ex_Y _ _ _ (-1) 2 2 1 1
                L1 L2 LX LY S1 S2 SX SY (le_n 1)
                (feed_forward_forward_spec sigmoid _ _ _ 2 2 1 1 S1 S2 SX))
      as (J & g1 & g2 & _ & _ & _ & _ & Hrun).
    exists J, g1, g2. eexists. exact Hrun.
  - destruct (gradient_loop_ok sigmoid 0%nat 1%nat 2%nat 3%nat ex_X ex_Y
                1 (-1) 2 2 1 1 SX SY (le_n 1) D01 D02 D03 D12 D13 1 ex_heap
                (ex_theta1, ex_theta2) None
                (conj L1 (conj L2 (conj LX LY))) (conj S1 S2))
      as (Jout & σ' & Hloop & _ & (J & _ & _ & _ & _ & -> & _)).
    exists J, σ'. unfold gradient.
    change (Z.to_nat 1) with 1%nat.
    rewrite (bind_ok _ _ _ _ _ Hloop). reflexivity.
Qed.

(** C8, as the code has it: there is no validation of the hyperparameters.
    A negative [lambda_] is accepted: on valid input [backprop] returns the
    gradients of the specification's formula with that [lambda_], and
    [gradient] with [num_iters >= 1] returns the updated weights.  With
    [num_iters <= 0] the loop of [gradient] performs no backpropagation and
    no update (the heap is unchanged), and no result is returned: reading
    the unbound [J] raises. *)
Theorem no_hyperparameter_validation (sg : R -> R) (σ : heap)
    (theta1 theta2 X y : loc) (T1 T2 X_ Y : matrix) (num_iters : Z)
    (alpha lambda_ : R) (h n k m : nat) :
  (σ !! theta1 = Some T1 -> σ !! theta2 = Some T2 ->
   σ !! X = Some X_ -> σ !! y = Some Y ->
   has_shape h (S n) T1 -> has_shape k (S h) T2 ->
   has_shape m n X_ -> has_shape m k Y ->
   (1 <= m)%nat ->
   theta1 <> theta2 -> theta1 <> X -> theta1 <> y ->
   theta2 <> X -> theta2 <> y ->
   lambda_ < 0 ->
   (let '(a3, a2, a1) := forward_spec sg T1 T2 X_ in
    exists J grad1 grad2 σ',
      backprop sg theta1 theta2 X y lambda_ σ = Ok ((J, grad1, grad2), σ') /\
      σ' !! grad1 = Some (grad1_spec a3 a2 a1 Y k m lambda_ T1 T2 h n) /\
      σ' !! grad2 = Some (grad2_spec a3 a2 Y k m lambda_ T2 h)) /\
   ((1 <= num_iters)%Z ->
    exists J σ',
      gradient sg theta1 theta2 X y num_iters alpha lambda_ σ
      = Ok ((J, theta1, theta2), σ') /\
      σ' !! theta1
      = Some (Nat.iter (Z.to_nat num_iters)
                (gd_step sg X_ Y alpha lambda_ h n k m) (T1, T2)).1 /\
      σ' !! theta2
      = Some (Nat.iter (Z.to_nat num_iters)
                (gd_step sg X_ Y alpha lambda_ h n k m) (T1, T2)).2)) /\
  ((num_iters <= 0)%Z ->
   gradient_loop sg (Z.to_nat num_iters) theta1 theta2 X y alpha lambda_
     None σ = Ok (None, σ) /\
   gradient sg theta1 theta2 X y num_iters alpha lambda_ σ
   = Raise UnboundLocalError).
Proof.
  split.
  - intros L1 L2 LX Ly HT1 HT2 HX HY Hm H12 H1X H1y H2X H2y _. split.
    + pose proof (feed_forward_forward_spec sg T1 T2 X_ h n k m HT1 HT2 HX)
        as Hff.
      destruct (forward_spec sg T1 T2 X_) as [[a3 a2] a1].
      destruct (backprop_ok sg σ theta1 theta2 X y T1 T2 X_ Y a3 a2 a1
                  lambda_ h n k m L1 L2 LX Ly HT1 HT2 HX HY Hm Hff)
        as (J & g1 & g2 & _ & Hg1 & Hg2 & Hne & Hrun).
      exists J, g1, g2. eexists. split; [exact Hrun|]. split.
      * now apply with_grads_g1.
      * apply with_grads_g2.
    + intros Hn.
      destruct (gradient_loop_ok sg theta1 theta2 X y X_ Y alpha lambda_
                  h n k m HX HY Hm H12 H1X H1y H2X H2y (Z.to_nat num_iters)
                  σ (T1, T2) None
                  (conj L1 (conj L2 (conj LX Ly))) (conj HT1 HT2))
        as (Jout & σ' & Hloop & (I1 & I2 & _) & Hlast).
      destruct (Z.to_nat num_iters) as [|N'] eqn:EN; [lia|].
      destruct Hlast as (J & _ & _ & _ & _ & -> & _).
      exists J, σ'. unfold gradient. rewrite EN.
      rewrite (bind_ok _ _ _ _ _ Hloop).
      split; [reflexivity|]. split; assumption.
  - intros Hn.
    pose proof (gradient_loop_none sg theta1 theta2 X y num_iters alpha
                  lambda_ None σ Hn) as Hloop.
    split; [exact Hloop|].
    unfold gradient. rewrite (bind_ok _ _ _ _ _ Hloop). reflexivity.
Qed.

Lemma no_hyperparameter_validation_witness :
  (exists J σ',
     gradient sigmoid 0%nat 1%nat 2%nat 3%nat 1 1 (-1) ex_heap
     = Ok ((J, 0%nat, 1%nat), σ') /\
     σ' !! 0%nat
     = Some (Nat.iter (Z.to_nat 1) (gd_step sigmoid ex_X ex_Y 1 (-1) 2 2 1 1)
               (ex_theta1, ex_theta2)).1 /\
     σ' !! 1%nat
     = Some (Nat.iter (Z.to_nat 1) (gd_step sigmoid ex_X ex_Y 1 (-1) 2 2 1 1)
               (ex_theta1, ex_theta2)).2) /\
  gradient sigmoid 0%nat 1%nat 2%nat 3%nat 0 1 (-1) ex_heap
  = Raise UnboundLocalError.
Proof.
  destruct ex_shapes as (S1 & S2 & SX & SY).
  destruct ex_lookups as (L1 & L2 & LX & LY).
  destruct ex_distinct as (D01 & D02 & D03 & D12 & D13).
  split.
  - refine (proj2 (proj1 (no_hyperparameter_validation sigmoid ex_heap
                            0%nat 1%nat 2%nat 3%nat ex_theta1 ex_theta2
                            ex_X ex_Y 1 1 (-1) 2 2 1 1)
                     L1 L2 LX LY S1 S2 SX SY (le_n 1) D01 D02 D03 D12 D13 _)
              _); lra || lia.
  - refine (proj2 (proj2 (no_hyperparameter_validation sigmoid ex_heap
                            0%nat 1%nat 2%nat 3%nat ex_theta1 ex_theta2
                            ex_X ex_Y 0 1 (-1) 2 2 1 1) _)); lia.
Defined.

(** ** The concrete scenario of the specification *)

Section scenario.

(** Any activation with the three properties of the sigmoid. *)
Variable sg : R -> R.
Hypothesis sg_0 : sg 0 = 1 / 2.
Hypothesis sg_range : forall z, 0 < sg z < 1.
Hypothesis sg_incr : forall z1 z2, z1 < z2 -> sg z1 < sg z2.

Lemma ex_forward :
  forward_spec sg ex_theta1 ex_theta2 ex_X
  = (Mat 1 [[1 / 2]], Mat 3 [[1; 1 / 2; 1 / 2]], Mat 3 [[1; 1; 1]]).
Proof.
  unfold forward_spec, matmul_T_spec, prepend_ones_spec, mmap, dot, vsum,
    nrows; simpl.
  assert (E0 : 1 * 0 + (1 * 0 + (1 * 0 + 0)) = 0) by lra.
  rewrite !E0, !sg_0.
  assert (E1 : 1 * 0 + (1 / 2 * 0 + (1 / 2 * 0 + 0)) = 0) by lra.
  now rewrite E1, sg_0.
Qed.

Lemma ex_forward_next :
  forward_spec sg ex_theta1 ex_theta2_next ex_X
  = (Mat 1 [[sg (3 / 4)]], Mat 3 [[1; 1 / 2; 1 / 2]], Mat 3 [[1; 1; 1]]).
Proof.
  unfold forward_spec, matmul_T_spec, prepend_ones_spec, mmap, dot, vsum,
    nrows; simpl.
  assert (E0 : 1 * 0 + (1 * 0 + (1 * 0 + 0)) = 0) by lra.
  rewrite !E0, !sg_0.
  assert (E1 : 1 * (1 / 2) + (1 / 2 * (1 / 4) + (1 / 2 * (1 / 4) + 0)) = 3 / 4)
    by lra.
  now rewrite E1.
Qed.

Lemma ex_next_shape : has_shape 1 3 ex_theta2_next.
Proof. unfold has_shape, nrows, wf; simpl. repeat split; repeat constructor. Qed.

(** "a3 should equal [[0.5]], cost should equal ln(2)" *)
Lemma ex_cost : cost sg ex_theta1 ex_theta2 ex_X ex_Y 0 = Ok (fin (ln 2)).
Proof.
  destruct ex_shapes as (S1 & S2 & SX & SY).
  pose proof (feed_forward_forward_spec sg _ _ _ 2 2 1 1 S1 S2 SX) as Hff.
  rewrite ex_forward in Hff.
  rewrite (cost_value sg _ _ _ _ _ _ _ 0 2 2 1 1 S1 S2 SX SY Hff).
  unfold all_pos; simpl. rewrite !bool_decide_eq_true_2 by lra. simpl.
  do 2 f_equal.
  unfold cost_spec, cross_entropy_spec, sq_nobias_spec, sum_n, vsum, entry.
  simpl. replace (1 / 2) with (/ 2) by lra. rewrite ln_Rinv by lra. lra.
Qed.

Lemma ex_cost_next :
  cost sg ex_theta1 ex_theta2_next ex_X ex_Y 0
  = Ok (fin (- ln (sg (3 / 4)))).
Proof.
  destruct ex_shapes as (S1 & _ & SX & SY).
  pose proof (feed_forward_forward_spec sg _ _ _ 2 2 1 1 S1 ex_next_shape SX)
    as Hff.
  rewrite ex_forward_next in Hff.
  rewrite (cost_value sg _ _ _ _ _ _ _ 0 2 2 1 1 S1 ex_next_shape SX SY Hff).
  destruct (sg_range (3 / 4)) as [Hlo Hhi].
  unfold all_pos; simpl. rewrite !bool_decide_eq_true_2 by lra. simpl.
  do 2 f_equal.
  unfold cost_spec, cross_entropy_spec, sq_nobias_spec, sum_n, vsum, entry.
  simpl. lra.
Qed.

Lemma ex_step :
  gd_step sg ex_X ex_Y 1 0 2 2 1 1 (ex_theta1, ex_theta2)
  = (ex_theta1, ex_theta2_next).
Proof.
  unfold gd_step. cbn [fst snd]. rewrite ex_forward.
  unfold grad1_spec, grad2_spec, mk_matrix, finalize_spec, acc1_spec,
    acc2_spec, d2_spec, d3_spec, gZ_spec, sum_n, vsum, entry, mzip_val,
    mmap, ex_theta1, ex_theta2_next.
  simpl. repeat f_equal; lra.
Qed.

(** After one iteration with [alpha = 1] the returned [J] is [ln 2], the cost
    of the initial weights; the cost of the returned weights is smaller. *)
Lemma ex_gradient_stale :
  exists σ' Jnext,
    gradient sg 0%nat 1%nat 2%nat 3%nat 1 1 0 ex_heap
    = Ok ((fin (ln 2), 0%nat, 1%nat), σ') /\
    σ' !! 0%nat = Some ex_theta1 /\ σ' !! 1%nat = Some ex_theta2_next /\
    cost sg ex_theta1 ex_theta2_next ex_X ex_Y 0 = Ok (fin Jnext) /\
    Jnext < ln 2.
Proof.
  destruct ex_shapes as (S1 & S2 & SX & SY).
  destruct ex_lookups as (L1 & L2 & LX & LY).
  destruct ex_distinct as (D01 & D02 & D03 & D12 & D13).
  destruct (gradient_loop_ok sg 0%nat 1%nat 2%nat 3%nat ex_X ex_Y
              1 0 2 2 1 1 SX SY (le_n 1) D01 D02 D03 D12 D13 1 ex_heap
              (ex_theta1, ex_theta2) None
              (conj L1 (conj L2 (conj LX LY))) (conj S1 S2))
    as (Jout & σ' & Hloop & (I1 & I2 & _) & (J & _ & _ & _ & _ & -> & _ & _
                                             & HJ)).
  unfold Nat.iter in I1, I2, HJ. cbn [nat_rect fst snd] in I1, I2, HJ.
  rewrite ex_step in I1, I2. cbn [fst snd] in I1, I2.
  rewrite ex_cost in HJ. injection HJ as <-.
  exists σ', (- ln (sg (3 / 4))). unfold gradient.
  change (Z.to_nat 1) with 1%nat. rewrite (bind_ok _ _ _ _ _ Hloop).
  split; [reflexivity|]. split; [exact I1|]. split; [exact I2|].
  split; [exact ex_cost_next|].
  assert (Hlt : sg 0 < sg (3 / 4)) by (apply sg_incr; lra).
  rewrite sg_0 in Hlt.
  assert (Hln : ln (1 / 2) < ln (sg (3 / 4))) by (apply ln_increasing; lra).
  replace (1 / 2) with (/ 2) in Hln by lra. rewrite ln_Rinv in Hln by lra.
  lra.
Qed.

End scenario.

(** The scenario with the sigmoid of Practica 4. *)
Lemma ex_gradient_stale_sigmoid :
  exists σ' Jnext,
    gradient sigmoid 0%nat 1%nat 2%nat 3%nat 1 1 0 ex_heap
    = Ok ((fin (ln 2), 0%nat, 1%nat), σ') /\
    σ' !! 0%nat = Some ex_theta1 /\ σ' !! 1%nat = Some ex_theta2_next /\
    cost sigmoid ex_theta1 ex_theta2_next ex_X ex_Y 0 = Ok (fin Jnext) /\
    Jnext < ln 2.
Proof.
  exact (ex_gradient_stale sigmoid sigmoid_0 sigmoid_range
           sigmoid_increasing).
Qed.

(** ** The cost is not clamped, over the reals *)

Lemma ex_sat_forward (sg : R -> R) :
  (forward_spec sg ex_theta1 ex_theta2_sat ex_X).1.1 = Mat 1 [[sg (-1000)]].
Proof.
  unfold forward_spec, matmul_T_spec, prepend_ones_spec, mmap, dot, vsum,
    nrows; simpl.
  do 4 f_equal. ring.
Qed.

(** A cross-entropy term on a prediction clamped to [1e-12, 1 - 1e-12] stays
    below 1000. *)
Lemma clamped_log_bound (p : R) : / 10 ^ 12 <= p -> - ln p < 1000.
Proof.
  intros Hp.
  assert (H10 : 0 < 10 ^ 12) by (apply pow_lt; lra).
  assert (Hinv : 0 < / 10 ^ 12) by now apply Rinv_0_lt_compat.
  assert (Hle : ln (/ 10 ^ 12) <= ln p).
  { destruct Hp as [Hlt | <-]; [|lra]. left. now apply ln_increasing. }
  rewrite ln_Rinv, ln_pow in Hle by lra.
  assert (Hln : ln 10 < 10).
  { rewrite <- (ln_exp 10) at 2. apply ln_increasing; [lra|].
    pose proof (exp_ineq1 10). lra. }
  simpl in Hle. lra.
Qed.

(** With the exact sigmoid the same input has a finite cost, above 1000: more
    than clamping the prediction to [1e-12, 1 - 1e-12] could give. *)
Lemma cost_exceeds_clamped_bound :
  exists c,
    cost sigmoid ex_theta1 ex_theta2_sat ex_X ex_Y 0 = Ok (fin c) /\
    1000 < c.
Proof.
  destruct ex_shapes as (S1 & _ & SX & SY).
  pose proof (feed_forward_forward_spec sigmoid _ _ _ 2 2 1 1
                S1 ex_sat_shape SX) as Hff.
  pose proof (ex_sat_forward sigmoid) as Hout.
  destruct (forward_spec sigmoid ex_theta1 ex_theta2_sat ex_X)
    as [[H a2] a1]. simpl in Hout. subst H.
  destruct (sigmoid_range (-1000)) as [Hlo Hhi].
  exists (- ln (sigmoid (-1000))). split.
  - rewrite (cost_value sigmoid _ _ _ _ _ _ _ 0 2 2 1 1
               S1 ex_sat_shape SX SY Hff).
    unfold all_pos; simpl. rewrite !bool_decide_eq_true_2 by lra. simpl.
    do 2 f_equal.
    unfold cost_spec, cross_entropy_spec, sq_nobias_spec, sum_n, vsum, entry.
    simpl. lra.
  - rewrite sigmoid_exp. replace (- -1000) with 1000 by lra.
    unfold Rdiv. rewrite Rmult_1_l.
    pose proof (exp_pos 1000) as He.
    rewrite ln_Rinv by lra.
    assert (Hln : ln (exp 1000) < ln (1 + exp 1000))
      by (apply ln_increasing; lra).
    rewrite ln_exp in Hln. lra.
Qed.

(** * Further properties of nn.py *)

(** ** Shape errors of feed_forward *)

Lemma transpose_dims (A : matrix) :
  nrows (transpose A) = ncols A /\ ncols (transpose A) = nrows A.
Proof.
  unfold nrows, transpose; simpl. now rewrite length_map, length_seq.
Qed.

Lemma column_stack_ones_dims (A : matrix) :
  nrows (prepend_ones_spec A) = nrows A /\
  ncols (prepend_ones_spec A) = S (ncols A).
Proof. unfold nrows, prepend_ones_spec; simpl. now rewrite length_map. Qed.

Lemma matmul_val_dims (A B : matrix) :
  nrows (matmul_val A B) = nrows A /\ ncols (matmul_val A B) = ncols B.
Proof. unfold nrows, matmul_val; simpl. now rewrite length_map. Qed.

Lemma result_bind_ok {A B} (a : A) (k : A -> result B) : (Ok a ≫= k) = k a.
Proof. reflexivity. Qed.

Lemma matmul_transpose_check (A B : matrix) :
  matmul A (transpose B)
  = if (ncols A =? ncols B)%nat then Ok (matmul_val A (transpose B))
    else Raise ShapeMismatch.
Proof. unfold matmul. now rewrite (proj1 (transpose_dims B)). Qed.

(** [feed_forward] raises exactly when a matrix product has operands that
    do not fit: it returns when [theta1] has one column more than [X] and
    [theta2] one column more than [theta1] has rows, and raises on every
    other input. *)
Theorem feed_forward_shape_error (sg : R -> R) (theta1 theta2 X : matrix) :
  let fits := ncols theta1 = S (ncols X) /\ ncols theta2 = S (nrows theta1) in
  (fits -> exists r, feed_forward sg theta1 theta2 X = Ok r) /\
  (~ fits -> feed_forward sg theta1 theta2 X = Raise ShapeMismatch).
Proof.
  intros fits. unfold feed_forward.
  rewrite column_stack_ones, result_bind_ok, matmul_transpose_check.
  rewrite (proj2 (column_stack_ones_dims X)).
  destruct (S (ncols X) =? ncols theta1)%nat eqn:E1.
  - apply Nat.eqb_eq in E1. rewrite result_bind_ok.
    set (a2 := mmap sg (matmul_val (prepend_ones_spec X) (transpose theta1))).
    assert (Hra2 : nrows a2 = nrows X).
    { unfold a2, nrows; simpl. now rewrite !length_map. }
    assert (Hca2 : ncols a2 = nrows theta1)
      by exact (proj2 (transpose_dims theta1)).
    rewrite <- Hra2, column_stack_ones, result_bind_ok, matmul_transpose_check.
    rewrite (proj2 (column_stack_ones_dims a2)), Hca2.
    destruct (S (nrows theta1) =? ncols theta2)%nat eqn:E2.
    + apply Nat.eqb_eq in E2. split; [intros _; eexists; reflexivity|].
      intros Hn. exfalso. apply Hn. split; congruence.
    + apply Nat.eqb_neq in E2. split; [|reflexivity].
      intros [_ F]. congruence.
  - apply Nat.eqb_neq in E1. split; [|reflexivity].
    intros [F _]. congruence.
Qed.

Lemma feed_forward_shape_error_witness :
  (exists r, feed_forward sigmoid ex_theta1 ex_theta2 ex_X = Ok r) /\
  feed_forward sigmoid ex_theta1 ex_theta2 ex_Y = Raise ShapeMismatch.
Proof.
  split.
  - apply (proj1 (feed_forward_shape_error sigmoid ex_theta1 ex_theta2 ex_X)).
    split; reflexivity.
  - apply (proj2 (feed_forward_shape_error sigmoid ex_theta1 ex_theta2 ex_Y)).
    intros [F _]. discriminate F.
Defined.

(** ** Sign of the cost and the effect of lambda_ *)

Lemma vsum_nonneg (v : list R) : Forall (fun x => 0 <= x) v -> 0 <= vsum v.
Proof.
  unfold vsum. induction 1 as [|x v Hx _ IH]; simpl; lra.
Qed.

Lemma sum_n_nonneg (n : nat) (f : nat -> R) :
  (forall i, (i < n)%nat -> 0 <= f i) -> 0 <= sum_n n f.
Proof.
  intros Hf. unfold sum_n. apply vsum_nonneg, Forall_map, Forall_forall.
  intros i Hi. apply list_elem_of_In, in_seq in Hi. apply Hf. lia.
Qed.

Lemma sum_n_opp (n : nat) (f : nat -> R) :
  sum_n n (fun i => - f i) = - sum_n n f.
Proof.
  induction n as [|n IH]; [unfold sum_n, vsum; simpl; lra|].
  rewrite !sum_n_S, IH. lra.
Qed.

Lemma sq_nobias_nonneg (T : matrix) (r c : nat) : 0 <= sq_nobias_spec T r c.
Proof.
  unfold sq_nobias_spec. apply sum_n_nonneg. intros i _.
  apply sum_n_nonneg. intros j _. apply pow2_ge_0.
Qed.

Lemma cross_entropy_nonpos (Y H : matrix) (m k : nat) :
  (forall i j, (i < m)%nat -> (j < k)%nat -> 0 < entry H i j < 1) ->
  (forall i j, (i < m)%nat -> (j < k)%nat -> 0 <= entry Y i j <= 1) ->
  cross_entropy_spec Y H m k <= 0.
Proof.
  intros HH HY.
  enough (0 <= - cross_entropy_spec Y H m k) by lra.
  unfold cross_entropy_spec. rewrite <- sum_n_opp.
  apply sum_n_nonneg. intros i Hi. rewrite <- sum_n_opp.
  apply sum_n_nonneg. intros j Hj.
  destruct (HH i j Hi Hj) as [H0 H1]. destruct (HY i j Hi Hj) as [Y0 Y1].
  assert (L1 : ln (entry H i j) < 0).
  { rewrite <- ln_1. apply ln_increasing; lra. }
  assert (L0 : ln (1 - entry H i j) < 0).
  { rewrite <- ln_1. apply ln_increasing; lra. }
  nra.
Qed.

(** With targets between 0 and 1 (one-hot targets are) and [lambda_ >= 0],
    a finite cost returned by [cost] is never negative. *)
Theorem cost_nonneg (sg : R -> R) (theta1 theta2 X Y : matrix)
    (lambda_ c : R) (h n k m : nat) :
  has_shape h (S n) theta1 -> has_shape k (S h) theta2 ->
  has_shape m n X -> has_shape m k Y ->
  (forall i j, (i < m)%nat -> (j < k)%nat -> 0 <= entry Y i j <= 1) ->
  0 <= lambda_ ->
  cost sg theta1 theta2 X Y lambda_ = Ok (fin c) ->
  0 <= c.
Proof.
  intros H1 H2 HX HY HYr Hl Hc.
  pose proof (feed_forward_forward_spec sg _ _ _ h n k m H1 H2 HX) as Hff.
  destruct (forward_spec sg theta1 theta2 X) as [[H a2] a1].
  destruct (cost_cases sg _ _ _ Y _ _ _ lambda_ h n k m H1 H2 HX HY Hff)
    as [[[Hm HH] Hv]|[_ Hv]]; rewrite Hv in Hc; [|discriminate].
  injection Hc as <-.
  unfold cost_spec.
  pose proof (cross_entropy_nonpos Y H m k HH HYr) as HCE.
  pose proof (sq_nobias_nonneg theta1 h n) as S1.
  pose proof (sq_nobias_nonneg theta2 k h) as S2.
  assert (HmR : 0 < INR m) by (apply lt_0_INR; lia).
  assert (Hinv : 0 < / INR m) by now apply Rinv_0_lt_compat.
  assert (Hinv2 : 0 < / (2 * INR m)) by (apply Rinv_0_lt_compat; lra).
  unfold Rdiv. rewrite Rmult_1_l.
  assert (0 <= - / INR m * cross_entropy_spec Y H m k) by nra.
  assert (0 <= lambda_ * / (2 * INR m)) by nra.
  assert (0 <= lambda_ * / (2 * INR m)
               * (sq_nobias_spec theta1 h n + sq_nobias_spec theta2 k h))
    by (apply Rmult_le_pos; lra).
  lra.
Qed.

Lemma ex_Y_unit (i j : nat) :
  (i < 1)%nat -> (j < 1)%nat -> 0 <= entry ex_Y i j <= 1.
Proof.
  intros Hi Hj. replace i with 0%nat by lia. replace j with 0%nat by lia.
  unfold entry; simpl. lra.
Qed.

Lemma ex_next_shapes :
  has_shape 2 3 ex_theta1 /\ has_shape 1 3 ex_theta2_next /\
  has_shape 1 2 ex_X /\ has_shape 1 1 ex_Y.
Proof. unfold has_shape, nrows, wf; simpl. repeat split; repeat constructor. Qed.

Lemma cost_nonneg_witness :
  exists c,
    cost sigmoid ex_theta1 ex_theta2_next ex_X ex_Y 1 = Ok (fin c) /\ 0 <= c.
Proof.
  destruct ex_next_shapes as (S1 & S2 & SX & SY).
  pose proof (cost_sigmoid_value ex_theta1 ex_theta2_next ex_X ex_Y 1
                2 2 1 1 S1 S2 SX SY (le_n 1)) as Hc.
  eexists. split; [exact Hc|].
  refine (cost_nonneg sigmoid ex_theta1 ex_theta2_next ex_X ex_Y 1 _
            2 2 1 1 S1 S2 SX SY ex_Y_unit _ Hc).
  lra.
Defined.

(** Two calls of [cost] that differ in [lambda_] only: the finite costs
    differ by [(lambda2 - lambda1) / (2m)] times the sum of the squares of
    the non-bias weights, so the cost does not decrease when [lambda_]
    grows, and equals the unregularized cost at [lambda_ = 0]. *)
Theorem cost_lambda_difference (sg : R -> R) (theta1 theta2 X Y : matrix)
    (lambda1 lambda2 c1 c2 : R) (h n k m : nat) :
  has_shape h (S n) theta1 -> has_shape k (S h) theta2 ->
  has_shape m n X -> has_shape m k Y ->
  cost sg theta1 theta2 X Y lambda1 = Ok (fin c1) ->
  cost sg theta1 theta2 X Y lambda2 = Ok (fin c2) ->
  c2 - c1 = (lambda2 - lambda1) / (2 * INR m)
            * (sq_nobias_spec theta1 h n + sq_nobias_spec theta2 k h) /\
  (lambda1 <= lambda2 -> c1 <= c2).
Proof.
  intros H1 H2 HX HY Hc1 Hc2.
  pose proof (feed_forward_forward_spec sg _ _ _ h n k m H1 H2 HX) as Hff.
  destruct (forward_spec sg theta1 theta2 X) as [[H a2] a1].
  rewrite (cost_value sg _ _ _ _ _ _ _ lambda1 _ _ _ _ H1 H2 HX HY Hff)
    in Hc1.
  rewrite (cost_value sg _ _ _ _ _ _ _ lambda2 _ _ _ _ H1 H2 HX HY Hff)
    in Hc2.
  destruct (all_pos H && all_pos (mmap (fun x => 1 - x) H)
            && negb (m =? 0)%nat) eqn:Eb; [|discriminate].
  injection Hc1 as <-. injection Hc2 as <-.
  assert (Hm : m <> 0%nat).
  { apply andb_prop in Eb as [_ Eb]. apply negb_true_iff in Eb.
    now apply Nat.eqb_neq. }
  assert (HmR : 0 < INR m) by (apply lt_0_INR; lia).
  pose proof (sq_nobias_nonneg theta1 h n) as S1.
  pose proof (sq_nobias_nonneg theta2 k h) as S2.
  assert (E : cost_spec theta1 theta2 Y H lambda2 h n k m
              - cost_spec theta1 theta2 Y H lambda1 h n k m
              = (lambda2 - lambda1) / (2 * INR m)
                * (sq_nobias_spec theta1 h n + sq_nobias_spec theta2 k h)).
  { unfold cost_spec. field. lra. }
  split; [exact E|]. intros Hle.
  assert (Hinv2 : 0 < / (2 * INR m)) by (apply Rinv_0_lt_compat; lra).
  assert (0 <= (lambda2 - lambda1) / (2 * INR m)
               * (sq_nobias_spec theta1 h n + sq_nobias_spec theta2 k h)).
  { apply Rmult_le_pos; [|lra]. unfold Rdiv. nra. }
  lra.
Qed.

Lemma ex_next_sq_nobias :
  sq_nobias_spec ex_theta1 2 2 + sq_nobias_spec ex_theta2_next 1 2 = 1 / 8.
Proof.
  unfold sq_nobias_spec, sum_n, vsum, entry. simpl. field.
Qed.

Lemma cost_lambda_difference_witness :
  exists c1 c2,
    cost sigmoid ex_theta1 ex_theta2_next ex_X ex_Y 0 = Ok (fin c1) /\
    cost sigmoid ex_theta1 ex_theta2_next ex_X ex_Y 1 = Ok (fin c2) /\
    (c2 - c1
     = (1 - 0) / (2 * INR 1)
       * (sq_nobias_spec ex_theta1 2 2 + sq_nobias_spec ex_theta2_next 1 2) /\
     (0 <= 1 -> c1 <= c2)) /\
    c2 - c1 = 1 / 16.
Proof.
  destruct ex_next_shapes as (S1 & S2 & SX & SY).
  pose proof (cost_sigmoid_value ex_theta1 ex_theta2_next ex_X ex_Y 0
                2 2 1 1 S1 S2 SX SY (le_n 1)) as Hc1.
  pose proof (cost_sigmoid_value ex_theta1 ex_theta2_next ex_X ex_Y 1
                2 2 1 1 S1 S2 SX SY (le_n 1)) as Hc2.
  pose proof (cost_lambda_difference sigmoid ex_theta1 ex_theta2_next ex_X
                ex_Y 0 1 _ _ 2 2 1 1 S1 S2 SX SY Hc1 Hc2) as Hd.
  do 2 eexists. split; [exact Hc1|]. split; [exact Hc2|].
  split; [exact Hd|].
  rewrite (proj1 Hd), ex_next_sq_nobias. simpl. field.
Defined.

(** ** The adapter for the external optimizer *)

Lemma unflatten_ok (theta : list R) (r1 c1 r2 c2 : nat) :
  length theta = (r1 * c1 + r2 * c2)%nat ->
  exists T1 T2,
    unflatten theta (r1, c1) (r2, c2) = Ok (T1, T2) /\
    has_shape r1 c1 T1 /\ has_shape r2 c2 T2.
Proof.
  intros Hlen.
  assert (H1 : length (take (r1 * c1) theta) = (r1 * c1)%nat)
    by (rewrite length_take; lia).
  assert (H2 : length (drop (r1 * c1) theta) = (r2 * c2)%nat)
    by (rewrite length_drop; lia).
  exists (Mat c1 (chunks r1 c1 (take (r1 * c1) theta))),
         (Mat c2 (chunks r2 c2 (drop (r1 * c1) theta))).
  split; [|split].
  - unfold unflatten; simpl.
    rewrite (reshape_ok _ _ _ H1), (reshape_ok _ _ _ H2). reflexivity.
  - apply has_shape_intro; [apply chunks_length | now apply chunks_wf].
  - apply has_shape_intro; [apply chunks_length | now apply chunks_wf].
Qed.

Lemma unflatten_bad_length (theta : list R) (r1 c1 r2 c2 : nat) :
  length theta <> (r1 * c1 + r2 * c2)%nat ->
  unflatten theta (r1, c1) (r2, c2) = Raise ShapeMismatch.
Proof.
  intros Hlen. unfold unflatten, reshape; simpl.
  rewrite length_take, length_drop.
  destruct ((r1 * c1) `min` length theta =? r1 * c1)%nat eqn:E1;
    [|reflexivity].
  apply Nat.eqb_eq in E1. rewrite result_bind_ok.
  destruct (length theta - r1 * c1 =? r2 * c2)%nat eqn:E2; [|reflexivity].
  apply Nat.eqb_eq in E2. lia.
Qed.

Lemma fresh_ne_old (σ : heap) (l l' : loc) (A : matrix) :
  σ !! l = Some A -> σ !! l' = None -> l' <> l.
Proof. intros H1 H2 E. rewrite E, H1 in H2. discriminate. Qed.

Lemma ravel_length (A : matrix) (r c : nat) :
  has_shape r c A -> length (ravel A) = (r * c)%nat.
Proof.
  intros (Hr & Hc & Hw). unfold ravel, nrows, wf in *.
  rewrite Hc in Hw. now rewrite (concat_length_wf c _ Hw), Hr.
Qed.

(** A flat vector whose length is not [r1*c1 + r2*c2] makes [backprop_min]
    raise, from the reshapes, before anything is computed or allocated. *)
Theorem backprop_min_bad_length (sg : R -> R) (theta : list R) (X y : loc)
    (r1 c1 r2 c2 : nat) (lambda_ : R) (σ : heap) :
  length theta <> (r1 * c1 + r2 * c2)%nat ->
  backprop_min sg theta X y (r1, c1) (r2, c2) lambda_ σ = Raise ShapeMismatch.
Proof.
  intros Hlen. unfold backprop_min, mbind, M_bind, lift.
  now rewrite (unflatten_bad_length _ _ _ _ _ Hlen).
Qed.

Lemma backprop_min_bad_length_witness :
  backprop_min sigmoid [1; 2; 3] 2%nat 3%nat (2%nat, 3%nat) (1%nat, 3%nat) 0
    ex_heap = Raise ShapeMismatch.
Proof.
  apply backprop_min_bad_length. simpl. lia.
Defined.

Lemma backprop_min_run (sg : R -> R) (σ : heap) (X y : loc) (X_ Y : matrix)
    (theta : list R) (lambda_ : R) (h n k m : nat) :
  σ !! X = Some X_ -> σ !! y = Some Y ->
  length theta = (h * S n + k * S h)%nat ->
  has_shape m n X_ -> has_shape m k Y -> (1 <= m)%nat ->
  exists T1 T2 J g σ',
    unflatten theta (h, S n) (k, S h) = Ok (T1, T2) /\
    backprop_min sg theta X y (h, S n) (k, S h) lambda_ σ = Ok ((J, g), σ') /\
    cost sg T1 T2 X_ Y lambda_ = Ok J /\
    (let '(a3, a2, a1) := forward_spec sg T1 T2 X_ in
     g = flatten (grad1_spec a3 a2 a1 Y k m lambda_ T1 T2 h n)
           (grad2_spec a3 a2 Y k m lambda_ T2 h)) /\
    length g = length theta.
Proof.
  intros LX Ly Hlen HX HY Hm.
  destruct (unflatten_ok theta h (S n) k (S h) Hlen)
    as (T1 & T2 & Hun & HT1 & HT2).
  set (l1 := fresh (dom σ)).
  set (σ1 := <[l1 := T1]> σ).
  set (l2 := fresh (dom σ1)).
  set (σ2 := <[l2 := T2]> σ1).
  assert (F1 : σ !! l1 = None) by apply alloc_fresh.
  assert (F2 : σ1 !! l2 = None) by apply alloc_fresh.
  assert (N12 : l1 <> l2).
  { intros E. rewrite <- E in F2. unfold σ1 in F2.
    rewrite lookup_insert_eq in F2. discriminate. }
  assert (F2' : σ !! l2 = None).
  { unfold σ1 in F2. now rewrite lookup_insert_ne in F2 by exact N12. }
  assert (L1 : σ2 !! l1 = Some T1).
  { unfold σ2, σ1. rewrite lookup_insert_ne by congruence.
    apply lookup_insert_eq. }
  assert (L2 : σ2 !! l2 = Some T2) by apply lookup_insert_eq.
  assert (LX2 : σ2 !! X = Some X_).
  { unfold σ2, σ1.
    rewrite lookup_insert_ne by exact (fresh_ne_old σ _ _ _ LX F2').
    now rewrite lookup_insert_ne by exact (fresh_ne_old σ _ _ _ LX F1). }
  assert (Ly2 : σ2 !! y = Some Y).
  { unfold σ2, σ1.
    rewrite lookup_insert_ne by exact (fresh_ne_old σ _ _ _ Ly F2').
    now rewrite lookup_insert_ne by exact (fresh_ne_old σ _ _ _ Ly F1). }
  pose proof (feed_forward_forward_spec sg T1 T2 X_ h n k m HT1 HT2 HX)
    as Hff.
  destruct (forward_spec sg T1 T2 X_) as [[a3 a2] a1] eqn:Efw.
  destruct (backprop_ok sg σ2 l1 l2 X y T1 T2 X_ Y a3 a2 a1 lambda_
              h n k m L1 L2 LX2 Ly2 HT1 HT2 HX HY Hm Hff)
    as (J & g1 & g2 & HJ & Hg1 & Hg2 & Hne & Hrun).
  exists T1, T2, J. do 2 eexists. split; [exact Hun|]. split; [|split].
  - unfold backprop_min.
    rewrite (bind_ok _ _ _ _ _ (lift_ok _ _ _ Hun)). cbv beta iota.
    rewrite (bind_ok (alloc T1) _ σ σ1 l1 eq_refl).
    rewrite (bind_ok (alloc T2) _ σ1 σ2 l2 eq_refl).
    rewrite (bind_ok _ _ _ _ _ Hrun). cbv beta iota.
    rewrite (bind_ok _ _ _ _ _
               (deref_ok _ _ _ (with_grads_g1 σ2 g1 g2 Hne _ _))).
    rewrite (bind_ok _ _ _ _ _
               (deref_ok _ _ _ (with_grads_g2 σ2 g1 g2 _ _))).
    reflexivity.
  - exact HJ.
  - rewrite Efw. split; [reflexivity|].
    unfold flatten. rewrite length_app.
    rewrite (ravel_length _ h (S n)) by apply mk_matrix_shape.
    rewrite (ravel_length _ k (S h)) by apply mk_matrix_shape.
    now rewrite Hlen.
Qed.

(** On a flat vector of the right length and valid data [backprop_min]
    returns the cost of the two matrices cut out of the vector and, as one
    flat vector of the same length as the input, their two gradients,
    [grad1] first. *)
Theorem backprop_min_ok (sg : R -> R) (σ : heap) (X y : loc) (X_ Y : matrix)
    (theta : list R) (lambda_ : R) (h n k m : nat) :
  σ !! X = Some X_ -> σ !! y = Some Y ->
  length theta = (h * S n + k * S h)%nat ->
  has_shape m n X_ -> has_shape m k Y -> (1 <= m)%nat ->
  exists T1 T2 J g σ',
    unflatten theta (h, S n) (k, S h) = Ok (T1, T2) /\
    backprop_min sg theta X y (h, S n) (k, S h) lambda_ σ = Ok ((J, g), σ') /\
    cost sg T1 T2 X_ Y lambda_ = Ok J /\
    (let '(a3, a2, a1) := forward_spec sg T1 T2 X_ in
     g = flatten (grad1_spec a3 a2 a1 Y k m lambda_ T1 T2 h n)
           (grad2_spec a3 a2 Y k m lambda_ T2 h)) /\
    length g = length theta.
Proof. exact (backprop_min_run sg σ X y X_ Y theta lambda_ h n k m). Qed.

Lemma keeps_backprop_min (sg : R -> R) (σ0 : heap) (theta : list R)
    (X y : loc) (t1_s t2_s : nat * nat) (lambda_ : R) :
  keeps σ0 (backprop_min sg theta X y t1_s t2_s lambda_).
Proof.
  unfold backprop_min.
  apply keeps_bind; [apply keeps_lift|]. intros [T1 T2].
  apply keeps_alloc_bind. intros l1 _.
  apply keeps_alloc_bind. intros l2 _.
  apply keeps_bind; [apply keeps_backprop|]. intros [[J g1] g2].
  do 2 (apply keeps_bind; [apply keeps_deref|]; intros ?).
  apply keeps_ret.
Qed.

(** Whenever [backprop_min] returns, every array that existed before the
    call has its contents unchanged: the matrices it reshapes and the
    gradients are new objects. *)
Theorem backprop_min_frame (sg : R -> R) (theta : list R) (X y : loc)
    (t1_s t2_s : nat * nat) (lambda_ : R) (σ σ' : heap) (J : float)
    (g : list R) :
  backprop_min sg theta X y t1_s t2_s lambda_ σ = Ok ((J, g), σ') ->
  forall l A, σ !! l = Some A -> σ' !! l = Some A.
Proof.
  intros H l A Hl.
  assert (Hsub : σ ⊆ σ')
    by exact (keeps_backprop_min sg σ theta X y t1_s t2_s lambda_ σ _ σ'
                (reflexivity σ) H).
  exact (lookup_weaken _ _ _ _ Hl Hsub).
Qed.

Lemma backprop_min_ok_witness :
  exists T1 T2 J g σ',
    unflatten ex_flat (2%nat, 3%nat) (1%nat, 3%nat) = Ok (T1, T2) /\
    backprop_min sigmoid ex_flat 2%nat 3%nat (2%nat, 3%nat) (1%nat, 3%nat) 0
      ex_heap = Ok ((J, g), σ') /\
    cost sigmoid T1 T2 ex_X ex_Y 0 = Ok J /\
    (let '(a3, a2, a1) := forward_spec sigmoid T1 T2 ex_X in
     g = flatten (grad1_spec a3 a2 a1 ex_Y 1 1 0 T1 T2 2 2)
           (grad2_spec a3 a2 ex_Y 1 1 0 T2 2)) /\
    length g = length ex_flat.
Proof.
  destruct ex_shapes as (_ & _ & SX & SY).
  destruct ex_lookups as (_ & _ & LX & LY).
  exact (backprop_min_ok sigmoid ex_heap 2%nat 3%nat ex_X ex_Y ex_flat 0
           2 2 1 1 LX LY eq_refl SX SY (le_n 1)).
Defined.

Lemma backprop_min_frame_witness :
  exists J g σ',
    backprop_min sigmoid ex_flat 2%nat 3%nat (2%nat, 3%nat) (1%nat, 3%nat) 0
      ex_heap = Ok ((J, g), σ') /\
    forall l A, ex_heap !! l = Some A -> σ' !! l = Some A.
Proof.
  destruct ex_shapes as (_ & _ & SX & SY).
  destruct ex_lookups as (_ & _ & LX & LY).
  destruct (backprop_min_run sigmoid ex_heap 2%nat 3%nat ex_X ex_Y ex_flat 0
              2 2 1 1 LX LY eq_refl SX SY (le_n 1))
    as (T1 & T2 & J & g & σ' & _ & Hrun & _).
  exists J, g, σ'. split; [exact Hrun|].
  exact (backprop_min_frame _ _ _ _ _ _ _ _ _ _ _ Hrun).
Defined.

(** ** What gradient modifies *)

Lemma keeps_isub (σ0 : heap) (l : loc) (E : matrix) :
  σ0 !! l = None -> keeps σ0 (isub l E).
Proof.
  intros Hl. unfold isub.
  apply keeps_bind; [apply keeps_deref|]. intros A.
  apply keeps_bind; [apply keeps_lift|]. intros A'.
  now apply keeps_store.
Qed.

Lemma keeps_gradient_loop (sg : R -> R) (σ0 : heap) (theta1 theta2 X y : loc)
    (alpha lambda_ : R) (t : nat) (J : option float) :
  σ0 !! theta1 = None -> σ0 !! theta2 = None ->
  keeps σ0 (gradient_loop sg t theta1 theta2 X y alpha lambda_ J).
Proof.
  intros H1 H2. revert J. induction t as [|t IH]; intros J; simpl.
  - apply keeps_ret.
  - apply keeps_bind; [apply keeps_backprop|]. intros [[J' g1] g2].
    apply keeps_bind; [apply keeps_deref|]. intros G1.
    apply keeps_bind; [now apply keeps_isub|]. intros _.
    apply keeps_bind; [apply keeps_deref|]. intros G2.
    apply keeps_bind; [now apply keeps_isub|]. intros _.
    apply IH.
Qed.

Lemma gradient_returns_inputs (sg : R -> R) (theta1 theta2 X y : loc)
    (num_iters : Z) (alpha lambda_ : R) (σ σ' : heap) (J : float)
    (r1 r2 : loc) :
  gradient sg theta1 theta2 X y num_iters alpha lambda_ σ
  = Ok ((J, r1, r2), σ') ->
  r1 = theta1 /\ r2 = theta2 /\
  exists σl,
    gradient_loop sg (Z.to_nat num_iters) theta1 theta2 X y alpha lambda_
      None σ = Ok (Some J, σl) /\ σ' = σl.
Proof.
  unfold gradient. intros H.
  apply bind_inv in H as ([J0|] & σl & Hloop & H); [|discriminate].
  injection H as <- <- <- <-. repeat split. now exists σl.
Qed.

(** Whenever [gradient] returns, the two arrays it returns are the very
    objects [theta1] and [theta2] it was given, updated in place, and every
    array that existed before the call and shares no memory with [theta1]
    or [theta2] (in the heap: every other location) has its contents
    unchanged. *)
Theorem gradient_frame (sg : R -> R) (theta1 theta2 X y : loc)
    (num_iters : Z) (alpha lambda_ : R) (σ σ' : heap) (J : float)
    (r1 r2 : loc) :
  gradient sg theta1 theta2 X y num_iters alpha lambda_ σ
  = Ok ((J, r1, r2), σ') ->
  r1 = theta1 /\ r2 = theta2 /\
  forall l A, l <> theta1 -> l <> theta2 ->
              σ !! l = Some A -> σ' !! l = Some A.
Proof.
  intros H.
  destruct (gradient_returns_inputs _ _ _ _ _ _ _ _ _ _ _ _ _ H)
    as (-> & -> & σl & Hloop & ->).
  split; [reflexivity|]. split; [reflexivity|].
  intros l A N1 N2 Hl.
  set (σ0 := delete theta1 (delete theta2 σ)).
  assert (Hsub0 : σ0 ⊆ σ).
  { unfold σ0. etransitivity; apply delete_subseteq. }
  assert (Hsub : σ0 ⊆ σl).
  { refine (keeps_gradient_loop sg σ0 theta1 theta2 X y alpha lambda_ _ None
              _ _ σ _ σl Hsub0 Hloop).
    - unfold σ0. apply lookup_delete_eq.
    - unfold σ0. destruct (decide (theta1 = theta2)) as [->|Hne].
      + apply lookup_delete_eq.
      + rewrite lookup_delete_ne by exact Hne. apply lookup_delete_eq. }
  refine (lookup_weaken σ0 σl l A _ Hsub).
  unfold σ0. now rewrite !lookup_delete_ne by congruence.
Qed.

Lemma gradient_frame_witness :
  exists J σ',
    gradient sigmoid 0%nat 1%nat 2%nat 3%nat 2 1 0 ex_heap
    = Ok ((J, 0%nat, 1%nat), σ') /\
    forall l A, l <> 0%nat -> l <> 1%nat ->
                ex_heap !! l = Some A -> σ' !! l = Some A.
Proof.
  destruct ex_shapes as (S1 & S2 & SX & SY).
  destruct ex_lookups as (L1 & L2 & LX & LY).
  destruct ex_distinct as (D01 & D02 & D03 & D12 & D13).
  destruct (gradient_loop_ok sigmoid 0%nat 1%nat 2%nat 3%nat ex_X ex_Y
              1 0 2 2 1 1 SX SY (le_n 1) D01 D02 D03 D12 D13 2 ex_heap
              (ex_theta1, ex_theta2) None
              (conj L1 (conj L2 (conj LX LY))) (conj S1 S2))
    as (Jout & σ' & Hloop & _ & (J & _ & _ & _ & _ & -> & _)).
  assert (Hrun : gradient sigmoid 0%nat 1%nat 2%nat 3%nat 2 1 0 ex_heap
                 = Ok ((J, 0%nat, 1%nat), σ')).
  { unfold gradient. change (Z.to_nat 2) with 2%nat.
    now rewrite (bind_ok _ _ _ _ _ Hloop). }
  exists J, σ'. split; [exact Hrun|].
  exact (proj2 (proj2 (gradient_frame _ _ _ _ _ _ _ _ _ _ _ _ _ Hrun))).
Defined.

(** ** Regularization leaves the bias column alone *)

(** Two calls of [backprop] on the same arrays that differ in [lambda_]
    only: the gradients agree on column 0, the bias column, and on every
    other column they differ by [(lambda - lambda') * theta / m]. *)
Theorem backprop_bias_unregularized (sg : R -> R) (σ : heap)
    (theta1 theta2 X y : loc) (T1 T2 X_ Y : matrix) (lambda_ lambda' : R)
    (h n k m : nat) :
  σ !! theta1 = Some T1 -> σ !! theta2 = Some T2 ->
  σ !! X = Some X_ -> σ !! y = Some Y ->
  has_shape h (S n) T1 -> has_shape k (S h) T2 ->
  has_shape m n X_ -> has_shape m k Y ->
  (1 <= m)%nat ->
  exists J J' g1 g2 g1' g2' σ1 σ2 G1 G2 G1' G2',
    backprop sg theta1 theta2 X y lambda_ σ = Ok ((J, g1, g2), σ1) /\
    backprop sg theta1 theta2 X y lambda' σ = Ok ((J', g1', g2'), σ2) /\
    σ1 !! g1 = Some G1 /\ σ1 !! g2 = Some G2 /\
    σ2 !! g1' = Some G1' /\ σ2 !! g2' = Some G2' /\
    (forall r, (r < h)%nat -> entry G1 r 0 = entry G1' r 0) /\
    (forall r, (r < k)%nat -> entry G2 r 0 = entry G2' r 0) /\
    (forall r c, (r < h)%nat -> (c < n)%nat ->
       entry G1 r (S c) - entry G1' r (S c)
       = (lambda_ - lambda') * entry T1 r (S c) / INR m) /\
    (forall r c, (r < k)%nat -> (c < h)%nat ->
       entry G2 r (S c) - entry G2' r (S c)
       = (lambda_ - lambda') * entry T2 r (S c) / INR m).
Proof.
  intros L1 L2 LX Ly HT1 HT2 HX HY Hm.
  pose proof (feed_forward_forward_spec sg T1 T2 X_ h n k m HT1 HT2 HX)
    as Hff.
  destruct (forward_spec sg T1 T2 X_) as [[a3 a2] a1].
  destruct (backprop_ok sg σ theta1 theta2 X y T1 T2 X_ Y a3 a2 a1 lambda_
              h n k m L1 L2 LX Ly HT1 HT2 HX HY Hm Hff)
    as (J & g1 & g2 & _ & Hg1 & Hg2 & Hne & Hrun).
  destruct (backprop_ok sg σ theta1 theta2 X y T1 T2 X_ Y a3 a2 a1 lambda'
              h n k m L1 L2 LX Ly HT1 HT2 HX HY Hm Hff)
    as (J' & g1' & g2' & _ & Hg1' & Hg2' & Hne' & Hrun').
  assert (HmR : INR m <> 0) by (apply not_0_INR; lia).
  exists J, J', g1, g2, g1', g2'. do 2 eexists.
  exists (grad1_spec a3 a2 a1 Y k m lambda_ T1 T2 h n),
         (grad2_spec a3 a2 Y k m lambda_ T2 h),
         (grad1_spec a3 a2 a1 Y k m lambda' T1 T2 h n),
         (grad2_spec a3 a2 Y k m lambda' T2 h).
  split; [exact Hrun|]. split; [exact Hrun'|].
  split; [now apply with_grads_g1|]. split; [apply with_grads_g2|].
  split; [now apply with_grads_g1|]. split; [apply with_grads_g2|].
  unfold grad1_spec, grad2_spec. repeat split.
  - intros r Hr. rewrite !entry_mk_matrix by lia. reflexivity.
  - intros r Hr. rewrite !entry_mk_matrix by lia. reflexivity.
  - intros r c Hr Hc. rewrite !entry_mk_matrix by lia.
    unfold finalize_spec. field. exact HmR.
  - intros r c Hr Hc. rewrite !entry_mk_matrix by lia.
    unfold finalize_spec. field. exact HmR.
Qed.

Lemma ex_next_lookups :
  ex_heap_next !! 0%nat = Some ex_theta1 /\
  ex_heap_next !! 1%nat = Some ex_theta2_next /\
  ex_heap_next !! 2%nat = Some ex_X /\ ex_heap_next !! 3%nat = Some ex_Y.
Proof. repeat split. Qed.

Lemma backprop_bias_unregularized_witness :
  exists J J' g1 g2 g1' g2' σ1 σ2 G2 G2',
    backprop sigmoid 0%nat 1%nat 2%nat 3%nat 0 ex_heap_next
    = Ok ((J, g1, g2), σ1) /\
    backprop sigmoid 0%nat 1%nat 2%nat 3%nat 1 ex_heap_next
    = Ok ((J', g1', g2'), σ2) /\
    σ1 !! g2 = Some G2 /\ σ2 !! g2' = Some G2' /\
    entry G2 0 0 = entry G2' 0 0 /\
    entry G2 0 1 - entry G2' 0 1 = - (1 / 4).
Proof.
  destruct ex_next_shapes as (S1 & S2 & SX & SY).
  destruct ex_next_lookups as (L1 & L2 & LX & LY).
  destruct (backprop_bias_unregularized sigmoid ex_heap_next
              0%nat 1%nat 2%nat 3%nat
              ex_theta1 ex_theta2_next ex_X ex_Y 0 1 2 2 1 1
              L1 L2 LX LY S1 S2 SX SY (le_n 1))
    as (J & J' & g1 & g2 & g1' & g2' & σ1 & σ2 & G1 & G2 & G1' & G2'
        & R1 & R2 & _ & HG2 & _ & HG2' & _ & B2 & _ & D2).
  exists J, J', g1, g2, g1', g2', σ1, σ2, G2, G2'.
  split; [exact R1|]. split; [exact R2|].
  split; [exact HG2|]. split; [exact HG2'|].
  split; [exact (B2 0%nat (le_n 1))|].
  rewrite (D2 0%nat 0%nat (le_n 1) ltac:(lia)).
  unfold entry. simpl. field.
Defined.

(** * Properties of logistic_reg.py *)

Module LogRegFacts.
Import LogReg LogRegSpec.

Lemma matvec_ok (X : matrix) (w : list R) :
  ncols X = length w -> matvec X w = Ok (map (fun r => dot r w) (rows X)).
Proof. intros H. unfold matvec. now rewrite H, Nat.eqb_refl. Qed.

Lemma matvec_bad (X : matrix) (w : list R) :
  ncols X <> length w -> matvec X w = Raise ShapeMismatch.
Proof.
  intros H. unfold matvec.
  now rewrite (proj2 (Nat.eqb_neq _ _) H).
Qed.

Lemma vdot_ok (u v : list R) :
  length u = length v -> vdot u v = Ok (dot u v).
Proof. intros H. unfold vdot. now rewrite H, Nat.eqb_refl. Qed.

Lemma forward_eq (X : matrix) (w : list R) (b : R) :
  map (fun t => sigmoid (t + b)) (map (fun r => dot r w) (rows X))
  = f_wb X w b.
Proof. unfold f_wb. now rewrite map_map. Qed.

Lemma f_wb_length (X : matrix) (w : list R) (b : R) :
  length (f_wb X w b) = nrows X.
Proof. unfold f_wb, nrows. now rewrite length_map. Qed.

Lemma dot_map2 {A B} (g : A -> R) (h : B -> R) (u : list A) (v : list B) :
  dot (map g u) (map h v) = vsum (zip_with (fun a b => g a * h b) u v).
Proof.
  unfold dot. f_equal. revert v.
  induction u as [|a u IH]; intros [|c v]; simpl; try reflexivity.
  now rewrite IH.
Qed.

Lemma vsum_zip_minus {A B} (F G : A -> B -> R) (u : list A) (v : list B) :
  vsum (zip_with F u v) - vsum (zip_with G u v)
  = vsum (zip_with (fun a b => F a b - G a b) u v).
Proof.
  unfold vsum. revert v.
  induction u as [|a u IH]; intros [|c v]; simpl; try lra.
  rewrite <- IH. lra.
Qed.

Lemma vsum_zip_ext {A B} (F G : A -> B -> R) (u : list A) (v : list B) :
  (forall a b, F a b = G a b) ->
  vsum (zip_with F u v) = vsum (zip_with G u v).
Proof.
  intros HFG. f_equal. revert v.
  induction u as [|a u IH]; intros [|c v]; simpl; try reflexivity.
  now rewrite IH, HFG.
Qed.

Lemma lnot_IZR (z : Z) : IZR (Z.lnot z) = - (IZR z + 1).
Proof.
  replace (Z.lnot z) with (- z - 1)%Z by (unfold Z.lnot; lia).
  rewrite minus_IZR, opp_IZR. lra.
Qed.

(** The value of [compute_cost] on arrays that fit, whatever the batch. *)
Lemma compute_cost_run (X : matrix) (y : list Z) (w : list R) (b : R)
    (lambda_ : option R) :
  ncols X = length w -> length y = nrows X ->
  compute_cost X y w b lambda_
  = Ok (if (nrows X =? 0)%nat then nonfin
        else fin (xent_int64 y (f_wb X w b) / INR (nrows X))).
Proof.
  intros Hw Hy. unfold compute_cost.
  rewrite (matvec_ok _ _ Hw), result_bind_ok, forward_eq.
  rewrite (vdot_ok (map IZR (map Z.lnot y)) (map ln (f_wb X w b)))
    by (rewrite !length_map, f_wb_length; exact Hy).
  rewrite result_bind_ok.
  rewrite vdot_ok by (rewrite !length_map, f_wb_length; exact Hy).
  rewrite result_bind_ok. unfold mret, result_ret. f_equal.
  destruct (nrows X =? 0)%nat; [reflexivity|]. do 2 f_equal.
  rewrite map_map, !dot_map2, vsum_zip_minus. reflexivity.
Qed.

(** [compute_cost] returns only on arrays that fit. *)
Lemma compute_cost_inv (X : matrix) (y : list Z) (w : list R) (b : R)
    (lambda_ : option R) (r : float) :
  compute_cost X y w b lambda_ = Ok r ->
  ncols X = length w /\ length y = nrows X.
Proof.
  intros H. unfold compute_cost in H.
  destruct (decide (ncols X = length w)) as [Hw|Hw].
  - split; [exact Hw|].
    rewrite (matvec_ok _ _ Hw), result_bind_ok, forward_eq in H.
    destruct (decide (length y = nrows X)) as [Hy|Hy]; [exact Hy|].
    unfold vdot in H. rewrite !length_map, f_wb_length in H.
    rewrite (proj2 (Nat.eqb_neq _ _) Hy) in H. discriminate.
  - rewrite (matvec_bad _ _ Hw) in H. discriminate.
Qed.

Lemma wrap64_small (z : Z) :
  (- 2 ^ 63 <= z < 2 ^ 63)%Z -> wrap64 z = z.
Proof.
  intros Hz. unfold wrap64.
  change (2 ^ 63)%Z with 9223372036854775808%Z in *.
  change (2 ^ 64)%Z with 18446744073709551616%Z.
  rewrite Z.mod_small by lia. lia.
Qed.

(** When [1 - y] does not wrap, [~y] is [-(y + 1)] and [1 - y] is
    itself. *)
Lemma xent_int64_lnot (y : list Z) (f : list R) :
  Forall (fun v => (- 2 ^ 63 + 2 <= v < 2 ^ 63)%Z) y ->
  xent_int64 y f = xent_lnot y f.
Proof.
  intros Hy. unfold xent_int64, xent_lnot. f_equal. revert f.
  induction Hy as [|v y Hv _ IH]; intros [|fi f]; simpl; try reflexivity.
  rewrite IH. f_equal.
  rewrite wrap64_small, lnot_IZR, minus_IZR by lia. lra.
Qed.

Lemma xent_lnot_split (y : list Z) (f : list R) :
  length y = length f ->
  xent_lnot y f = xent y f + vsum (map (fun fi => - ln fi) f).
Proof.
  unfold xent_lnot, xent, vsum. revert f.
  induction y as [|yi y IH]; intros [|fi f] Hlen; simpl in *;
    try discriminate; [lra|].
  rewrite IH by lia. lra.
Qed.

Lemma neg_ln_sum_pos (f : list R) :
  f <> [] -> Forall (fun fi => 0 < fi < 1) f ->
  0 < vsum (map (fun fi => - ln fi) f).
Proof.
  intros Hne Hf.
  assert (Hall : Forall (fun fi => 0 < - ln fi) f).
  { eapply Forall_impl; [exact Hf|]. intros fi [H0 H1]; simpl.
    assert (ln fi < 0) by (rewrite <- ln_1; apply ln_increasing; lra). lra. }
  clear Hf. unfold vsum.
  destruct Hall as [|fi f Hfi Hrest]; [congruence|]. simpl.
  assert (0 <= foldr Rplus 0 (map (fun fi0 => - ln fi0) f)).
  { apply vsum_nonneg, Forall_map. eapply Forall_impl; [exact Hrest|].
    intros x Hx; simpl in *. lra. }
  lra.
Qed.

Lemma f_wb_range (X : matrix) (w : list R) (b : R) :
  Forall (fun fi => 0 < fi < 1) (f_wb X w b).
Proof.
  unfold f_wb. apply Forall_map, Forall_forall. intros r _.
  apply sigmoid_range.
Qed.

(** For int64 targets on which [1 - y] does not wrap (labels 0 and 1 are
    such), a finite cost returned by [compute_cost] is the mean of
    [-(y_i + 1) ln f_i - (1 - y_i) ln (1 - f_i)]: the complement [~y] is
    [-(y + 1)], not [-y].  The value is the mean cross-entropy plus the mean
    of [- ln f_i], and so above the mean cross-entropy. *)
Theorem compute_cost_value (X : matrix) (y : list Z) (w : list R) (b : R)
    (lambda_ : option R) (c : R) :
  Forall (fun v => (- 2 ^ 63 + 2 <= v < 2 ^ 63)%Z) y ->
  compute_cost X y w b lambda_ = Ok (fin c) ->
  let m := INR (nrows X) in
  let f := f_wb X w b in
  c = xent_lnot y f / m /\
  c = xent y f / m + vsum (map (fun fi => - ln fi) f) / m /\
  xent y f / m < c.
Proof.
  intros Hrange Hc m f.
  destruct (compute_cost_inv _ _ _ _ _ _ Hc) as [Hw Hy].
  rewrite (compute_cost_run X y w b lambda_ Hw Hy) in Hc.
  destruct (nrows X =? 0)%nat eqn:Em; [discriminate|].
  apply Nat.eqb_neq in Em. injection Hc as <-.
  rewrite (xent_int64_lnot y _ Hrange). fold f m.
  assert (Hlen : length y = length f) by (unfold f; now rewrite f_wb_length).
  assert (HmR : 0 < m) by (apply lt_0_INR; lia).
  split; [reflexivity|].
  rewrite (xent_lnot_split y f Hlen).
  assert (Hpos : 0 < vsum (map (fun fi => - ln fi) f)).
  { apply neg_ln_sum_pos; [|apply f_wb_range].
    intros E. apply (f_equal length) in E. unfold f in E.
    rewrite f_wb_length in E. simpl in E. lia. }
  split; [unfold Rdiv; lra|].
  assert (0 < vsum (map (fun fi => - ln fi) f) / m)
    by now apply Rdiv_lt_0_compat.
  unfold Rdiv in *. lra.
Qed.

Lemma ex_labels : Forall (fun v => (- 2 ^ 63 + 2 <= v < 2 ^ 63)%Z) [1%Z].
Proof. repeat constructor; lia. Qed.

Lemma ex_logistic_cost (w : list R) (b : R) :
  length w = 2%nat ->
  compute_cost ex_X [1%Z] w b None
  = Ok (fin (xent_int64 [1%Z] (f_wb ex_X w b) / INR (nrows ex_X))).
Proof.
  intros Hw. exact (compute_cost_run ex_X [1%Z] w b None (eq_sym Hw) eq_refl).
Qed.

Lemma compute_cost_value_witness :
  let m := INR (nrows ex_X) in
  let f := f_wb ex_X [1; 2] 0 in
  exists c,
    compute_cost ex_X [1%Z] [1; 2] 0 None = Ok (fin c) /\
    c = xent_lnot [1%Z] f / m /\
    c = xent [1%Z] f / m + vsum (map (fun fi => - ln fi) f) / m /\
    xent [1%Z] f / m < c.
Proof.
  intros m f. eexists. split; [exact (ex_logistic_cost [1; 2] 0 eq_refl)|].
  exact (compute_cost_value ex_X [1%Z] [1; 2] 0 None _ ex_labels
           (ex_logistic_cost [1; 2] 0 eq_refl)).
Defined.

(** [compute_cost] raises exactly when [w] has not one entry per column of
    [X] or [y] not one entry per row: both are operands of [@]. *)
Theorem compute_cost_shape_error (X : matrix) (y : list Z) (w : list R)
    (b : R) (lambda_ : option R) :
  let fits := ncols X = length w /\ length y = nrows X in
  (fits -> exists c, compute_cost X y w b lambda_ = Ok c) /\
  (~ fits -> compute_cost X y w b lambda_ = Raise ShapeMismatch).
Proof.
  intros fits. split.
  - intros [Hw Hy]. rewrite (compute_cost_run X y w b lambda_ Hw Hy).
    now eexists.
  - intros Hn. unfold compute_cost.
    destruct (decide (ncols X = length w)) as [Hw|Hw].
    + rewrite (matvec_ok _ _ Hw), result_bind_ok, forward_eq.
      assert (Hy : length y <> nrows X) by (intros E; apply Hn; now split).
      unfold vdot. rewrite !length_map, f_wb_length.
      now rewrite (proj2 (Nat.eqb_neq _ _) Hy).
    + now rewrite (matvec_bad _ _ Hw).
Qed.

Lemma compute_cost_shape_error_witness :
  (exists c, compute_cost ex_X [1%Z] [0; 0] 0 None = Ok c) /\
  compute_cost ex_X [1%Z; 0%Z] [0; 0] 0 None = Raise ShapeMismatch.
Proof.
  split.
  - apply (proj1 (compute_cost_shape_error ex_X [1%Z] [0; 0] 0 None)).
    split; reflexivity.
  - apply (proj2 (compute_cost_shape_error ex_X [1%Z; 0%Z] [0; 0] 0 None)).
    intros [_ F]. discriminate F.
Defined.

(** ** predict *)

Lemma Int_part_unit (x : R) : 0 <= x < 1 -> Int_part x = 0%Z.
Proof. intros Hx. symmetry. apply Int_part_spec. simpl. lra. Qed.

Lemma np_round_unit (x : R) :
  0 < x < 1 -> np_round x = if Rlt_dec (1 / 2) x then 1 else 0.
Proof.
  intros Hx. unfold np_round, frac_part.
  rewrite (Int_part_unit x) by lra. simpl.
  replace (x - 0) with x by lra.
  destruct (Rlt_dec x (1 / 2)) as [Hlo|Hlo];
    destruct (Rlt_dec (1 / 2) x) as [Hhi|Hhi]; try reflexivity; lra.
Qed.

Lemma sigmoid_above_half (z : R) : 0 < z -> 1 / 2 < sigmoid z.
Proof. intros Hz. rewrite <- sigmoid_0. now apply sigmoid_increasing. Qed.

Lemma sigmoid_below_half (z : R) : z <= 0 -> sigmoid z <= 1 / 2.
Proof.
  intros [Hz| ->]; [|rewrite sigmoid_0; lra].
  rewrite <- sigmoid_0. left. now apply sigmoid_increasing.
Qed.

(** [predict] returns one label per example, each 0 or 1: the label is 1
    exactly when the model output [sigmoid(X_i . w + b)] is above one half;
    an output of exactly one half, as for [X_i . w + b = 0], is labelled 0,
    because [np.round] rounds a tie to the even integer. *)
Theorem predict_threshold (X : matrix) (w : list R) (b : R) :
  ncols X = length w ->
  predict X w b = Ok (map label (f_wb X w b)) /\
  Forall (fun p => p = 0 \/ p = 1) (map label (f_wb X w b)).
Proof.
  intros Hw. split.
  - unfold predict. rewrite (matvec_ok _ _ Hw), result_bind_ok, forward_eq.
    unfold mret, result_ret. f_equal.
    apply map_ext_Forall. eapply Forall_impl; [apply f_wb_range|].
    intros f Hf. exact (np_round_unit f Hf).
  - apply Forall_map, Forall_forall. intros f _. unfold label; simpl.
    destruct (Rlt_dec (1 / 2) f); [now right | now left].
Qed.

Lemma predict_threshold_witness : predict ex_X2 [1; 2] 0 = Ok [1; 0].
Proof.
  rewrite (proj1 (predict_threshold ex_X2 [1; 2] 0 eq_refl)).
  unfold f_wb, ex_X2, dot, vsum, label. simpl.
  assert (H3 : 1 / 2 < sigmoid (1 * 1 + (1 * 2 + 0) + 0))
    by (apply sigmoid_above_half; lra).
  assert (H0 : sigmoid (0 * 1 + (0 * 2 + 0) + 0) = 1 / 2)
    by (rewrite <- sigmoid_0; f_equal; lra).
  rewrite H0.
  destruct (Rlt_dec (1 / 2) (sigmoid (1 * 1 + (1 * 2 + 0) + 0)));
    [|contradiction].
  destruct (Rlt_dec (1 / 2) (1 / 2)); [lra | reflexivity].
Defined.

(** ** Regularized cost and gradient *)

Lemma sum_squares_nonneg (w : list R) : 0 <= vsum (map (fun t => t ^ 2) w).
Proof.
  apply vsum_nonneg, Forall_map, Forall_forall. intros t _. apply pow2_ge_0.
Qed.

(** Whenever [compute_cost] returns a finite cost, [compute_cost_reg]
    returns that cost plus [lambda_ / (2m)] times the sum of the squares of
    [w]: the bias [b] is not penalized, and the result is not below the
    unregularized cost when [lambda_ >= 0]. *)
Theorem compute_cost_reg_value (X : matrix) (y : list Z) (w : list R) (b : R)
    (lambda_ c : R) :
  compute_cost X y w b None = Ok (fin c) ->
  let penalty :=
    lambda_ / (2 * INR (nrows X)) * vsum (map (fun t => t ^ 2) w) in
  compute_cost_reg X y w b lambda_ = Ok (fin (c + penalty)) /\
  (0 <= lambda_ -> c <= c + penalty).
Proof.
  intros Hc penalty. split.
  - unfold compute_cost_reg. rewrite Hc, result_bind_ok. reflexivity.
  - intros Hl. pose proof (sum_squares_nonneg w) as Hs.
    assert (Hinv : 0 <= / (2 * INR (nrows X))).
    { destruct (Nat.eq_dec (nrows X) 0%nat) as [E|E].
      - rewrite E. simpl. rewrite Rmult_0_r, Rinv_0. lra.
      - left. apply Rinv_0_lt_compat.
        assert (0 < INR (nrows X)) by (apply lt_0_INR; lia). lra. }
    assert (0 <= penalty).
    { unfold penalty, Rdiv. apply Rmult_le_pos; [|exact Hs].
      now apply Rmult_le_pos. }
    lra.
Qed.

Lemma compute_cost_reg_value_witness :
  exists c,
    compute_cost ex_X [1%Z] [1; 2] 0 None = Ok (fin c) /\
    (let penalty :=
       1 / (2 * INR (nrows ex_X)) * vsum (map (fun t => t ^ 2) [1; 2]) in
     compute_cost_reg ex_X [1%Z] [1; 2] 0 1 = Ok (fin (c + penalty)) /\
     (0 <= 1 -> c <= c + penalty)) /\
    1 / (2 * INR (nrows ex_X)) * vsum (map (fun t => t ^ 2) [1; 2]) = 5 / 2.
Proof.
  eexists. split; [exact (ex_logistic_cost [1; 2] 0 eq_refl)|].
  split.
  - exact (compute_cost_reg_value ex_X [1%Z] [1; 2] 0 1 _
             (ex_logistic_cost [1; 2] 0 eq_refl)).
  - unfold vsum. simpl. field.
Defined.

(** The value of [compute_gradient] on a non-empty batch that fits. *)
Lemma compute_gradient_run (X : matrix) (y : list Z) (w : list R) (b : R)
    (lambda_ : option R) :
  ncols X = length w -> length y = nrows X -> (1 <= nrows X)%nat ->
  let d := zip_with Rminus (f_wb X w b) (map IZR y) in
  compute_gradient X y w b lambda_
  = Ok (map (fun g => g / INR (nrows X))
          (map (fun c => dot c d) (rows (transpose X))),
        vsum d / INR (nrows X)).
Proof.
  intros Hw Hy Hm d. unfold compute_gradient.
  assert (Hlen : length (f_wb X w b) = length (map IZR y))
    by (rewrite f_wb_length, length_map; now symmetry).
  rewrite (matvec_ok _ _ Hw), !result_bind_ok, forward_eq.
  rewrite (vzip_ok Rminus _ _ Hlen), !result_bind_ok. fold d.
  assert (Hd : ncols (transpose X) = length d).
  { rewrite (proj2 (transpose_dims X)). unfold d.
    rewrite length_zip_with, f_wb_length, length_map. lia. }
  rewrite (matvec_ok _ _ Hd), !result_bind_ok.
  rewrite forward_eq, (vzip_ok Rminus _ _ Hlen), !result_bind_ok. fold d.
  replace (nrows X =? 0)%nat with false
    by (symmetry; apply Nat.eqb_neq; lia).
  reflexivity.
Qed.

Lemma compute_gradient_length (X : matrix) (y : list Z) (w : list R) (b : R)
    (lambda_ : option R) (dj_dw : list R) (dj_db : R) :
  compute_gradient X y w b lambda_ = Ok (dj_dw, dj_db) ->
  length dj_dw = ncols X.
Proof.
  unfold compute_gradient. intros H. cbv zeta in H.
  destruct (matvec X w) as [z|] eqn:Ez; [|discriminate].
  rewrite !result_bind_ok in H.
  destruct (vzip Rminus (map (fun t => sigmoid (t + b)) z) (map IZR y))
    as [d|] eqn:Ed; [|discriminate].
  rewrite !result_bind_ok in H.
  destruct (matvec (transpose X) d) as [g|] eqn:Eg; [|discriminate].
  rewrite !result_bind_ok in H. rewrite Ed, !result_bind_ok in H.
  destruct (nrows X =? 0)%nat; [discriminate|].
  unfold mret, result_ret in H.
  injection H as <- _. rewrite length_map.
  unfold matvec in Eg.
  destruct (ncols (transpose X) =? length d)%nat; [|discriminate].
  injection Eg as <-. rewrite length_map.
  exact (proj1 (transpose_dims X)).
Qed.

(** On a batch of m >= 1 examples that fit, [compute_gradient_reg] returns
    the bias gradient of [compute_gradient] unchanged and adds
    [lambda_ * w_j / m] to entry [j] of the weight gradient. *)
Theorem compute_gradient_reg_value (X : matrix) (y : list Z) (w : list R)
    (b : R) (lambda_ : R) :
  ncols X = length w -> length y = nrows X -> (1 <= nrows X)%nat ->
  exists dj_dw dj_db,
    compute_gradient X y w b None = Ok (dj_dw, dj_db) /\
    length dj_dw = length w /\
    compute_gradient_reg X y w b lambda_
    = Ok (zip_with (fun g t => g + lambda_ * t / INR (nrows X)) dj_dw w,
          dj_db).
Proof.
  intros Hw Hy Hm.
  pose proof (compute_gradient_run X y w b None Hw Hy Hm) as Hg.
  cbv zeta in Hg.
  do 2 eexists. split; [exact Hg|].
  assert (Hlen : length (map (fun g => g / INR (nrows X))
                           (map (fun c => dot c
                                   (zip_with Rminus (f_wb X w b) (map IZR y)))
                              (rows (transpose X)))) = length w).
  { rewrite (compute_gradient_length _ _ _ _ _ _ _ Hg). exact Hw. }
  split; [exact Hlen|].
  unfold compute_gradient_reg. rewrite Hg, result_bind_ok.
  rewrite vzip_ok by (rewrite Hlen, length_map; reflexivity).
  rewrite result_bind_ok. unfold mret, result_ret. do 2 f_equal.
  generalize (map (fun g => g / INR (nrows X))
                (map (fun c => dot c
                        (zip_with Rminus (f_wb X w b) (map IZR y)))
                   (rows (transpose X)))).
  intros l. clear. revert w.
  induction l as [|g l IH]; intros [|t w]; simpl; try reflexivity.
  now rewrite IH.
Qed.

Lemma compute_gradient_reg_value_witness :
  exists dj_dw dj_db,
    compute_gradient ex_X [1%Z] [1; 2] 0 None = Ok (dj_dw, dj_db) /\
    length dj_dw = length [1; 2] /\
    compute_gradient_reg ex_X [1%Z] [1; 2] 0 1
    = Ok (zip_with (fun g t => g + 1 * t / INR (nrows ex_X)) dj_dw [1; 2],
          dj_db).
Proof.
  exact (compute_gradient_reg_value ex_X [1%Z] [1; 2] 0 1
           eq_refl eq_refl (le_n 1)).
Defined.

(** ** gradient_descent *)

Lemma vbind_inv {A B} (c : VM A) (k : A -> VM B) (σ σ' : vheap) (b : B) :
  (c ≫= k) σ = Ok (b, σ') ->
  exists a σ1, c σ = Ok (a, σ1) /\ k a σ1 = Ok (b, σ').
Proof.
  unfold mbind, VM_bind. destruct (c σ) as [[a σ1]|e]; [|discriminate].
  intros Hk. now exists a, σ1.
Qed.

Lemma vbind_ok {A B} (c : VM A) (k : A -> VM B) (σ σ1 : vheap) (a : A) :
  c σ = Ok (a, σ1) -> (c ≫= k) σ = k a σ1.
Proof. intros Hc. unfold mbind, VM_bind. now rewrite Hc. Qed.

Lemma vlift_inv {A} (r : result A) (a : A) (σ σ' : vheap) :
  vlift r σ = Ok (a, σ') -> r = Ok a /\ σ' = σ.
Proof. destruct r; simpl; [|discriminate]. intros [= -> ->]. now split. Qed.

Lemma vlift_ok {A} (r : result A) (a : A) (σ : vheap) :
  r = Ok a -> vlift r σ = Ok (a, σ).
Proof. now intros ->. Qed.

Lemma vderef_inv (l : loc) (v : list R) (σ σ' : vheap) :
  vderef l σ = Ok (v, σ') -> σ !! l = Some v /\ σ' = σ.
Proof.
  unfold vderef. destruct (σ !! l); [|discriminate].
  intros [= -> ->]. now split.
Qed.

Lemma vderef_ok (l : loc) (v : list R) (σ : vheap) :
  σ !! l = Some v -> vderef l σ = Ok (v, σ).
Proof. intros H. unfold vderef. now rewrite H. Qed.

Lemma vstore_inv (l : loc) (v : list R) (σ σ' : vheap) (u : unit) :
  vstore l v σ = Ok (u, σ') -> is_Some (σ !! l) /\ σ' = <[l := v]> σ.
Proof.
  unfold vstore. destruct (σ !! l) eqn:E; [|discriminate].
  intros [= _ <-]. split; [now eexists | reflexivity].
Qed.

Lemma vstore_ok (l : loc) (v v0 : list R) (σ : vheap) :
  σ !! l = Some v0 -> vstore l v σ = Ok (tt, <[l := v]> σ).
Proof. intros H. unfold vstore. now rewrite H. Qed.

Section descent.

Context {XT YT LT : Type}.
Variables (X : XT) (y : YT) (w : loc).
Variable cost_function : XT -> YT -> list R -> R -> result float.
Variable gradient_function :
  XT -> YT -> list R -> R -> LT -> result (list R * R).
Variables (alpha : R) (lambda_ : LT).

(** One iteration of the loop, taken apart. *)
Lemma gd_loop_step_inv (n : nat) (b : R) (J0 : list float) (σ σ' : vheap)
    (b' : R) (J : list float) :
  gd_loop (S n) X y w b cost_function gradient_function alpha lambda_ J0 σ
  = Ok ((b', J), σ') ->
  exists W dj_dw dj_db W' cost,
    σ !! w = Some W /\
    gradient_function X y W b lambda_ = Ok (dj_dw, dj_db) /\
    vzip Rminus W (map (Rmult alpha) dj_dw) = Ok W' /\
    cost_function X y W' (b - alpha * dj_db) = Ok cost /\
    gd_loop n X y w (b - alpha * dj_db) cost_function gradient_function
      alpha lambda_ (J0 ++ [cost]) (<[w := W']> σ) = Ok ((b', J), σ').
Proof.
  simpl. intros H.
  apply vbind_inv in H as (W & s & H1 & H). apply vderef_inv in H1 as [HW ->].
  apply vbind_inv in H as ([dj_dw dj_db] & s & H1 & H).
  apply vlift_inv in H1 as [Hg ->].
  apply vbind_inv in H as (W' & s & H1 & H). apply vlift_inv in H1 as [Hz ->].
  apply vbind_inv in H as (u & s & H1 & H). apply vstore_inv in H1 as [_ ->].
  apply vbind_inv in H as (W2 & s & H1 & H). apply vderef_inv in H1 as [HW2 ->].
  rewrite lookup_insert_eq in HW2. injection HW2 as <-.
  apply vbind_inv in H as (cost & s & H1 & H). apply vlift_inv in H1 as [Hc ->].
  now exists W, dj_dw, dj_db, W', cost.
Qed.

Lemma gd_loop_frame (σ0 : vheap) (n : nat) :
  σ0 !! w = None ->
  forall b J0 σ σ' b' J,
    σ0 ⊆ σ ->
    gd_loop n X y w b cost_function gradient_function alpha lambda_ J0 σ
    = Ok ((b', J), σ') ->
    σ0 ⊆ σ' /\ length J = (length J0 + n)%nat.
Proof.
  intros Hw. induction n as [|n IH]; intros b J0 σ σ' b' J Hsub H.
  - simpl in H. injection H as _ <- <-. split; [exact Hsub | lia].
  - apply gd_loop_step_inv in H
      as (W & dw & db & W' & c & _ & _ & _ & _ & Hrest).
    destruct (IH _ _ _ _ _ _ (insert_subseteq_r _ _ _ _ Hw Hsub) Hrest)
      as [Hs Hl].
    split; [exact Hs|]. rewrite Hl, length_app. simpl. lia.
Qed.

Lemma gd_loop_last (n : nat) :
  forall b J0 σ σ' b' J,
    gd_loop (S n) X y w b cost_function gradient_function alpha lambda_ J0 σ
    = Ok ((b', J), σ') ->
    exists W c,
      σ' !! w = Some W /\ last J = Some c /\
      cost_function X y W b' = Ok c.
Proof.
  induction n as [|n IH]; intros b J0 σ σ' b' J H.
  - apply gd_loop_step_inv in H
      as (W & dw & db & W' & c & _ & _ & _ & Hc & Hrest).
    simpl in Hrest. injection Hrest as <- <- <-.
    exists W', c. split; [apply lookup_insert_eq|].
    split; [apply last_snoc | exact Hc].
  - apply gd_loop_step_inv in H
      as (W & dw & db & W' & c & _ & _ & _ & _ & Hrest).
    exact (IH _ _ _ _ _ _ Hrest).
Qed.

Lemma gradient_descent_inv (w_in : loc) (b_in : R) (num_iters : Z)
    (σ σ' : vheap) (w' : loc) (b' : R) (J : list float) :
  gradient_descent X y w_in b_in cost_function gradient_function alpha
    num_iters lambda_ σ = Ok ((w', b', J), σ') ->
  exists W0,
    σ !! w_in = Some W0 /\ w' = fresh (dom σ) /\
    gd_loop (Z.to_nat num_iters) X y w' b_in cost_function gradient_function
      alpha lambda_ [] (<[w' := W0]> σ) = Ok ((b', J), σ').
Proof.
  unfold gradient_descent. intros H.
  apply vbind_inv in H as (W0 & s & H1 & H). apply vderef_inv in H1 as [HW ->].
  apply vbind_inv in H as (l & s & H1 & H).
  unfold valloc in H1. injection H1 as <- <-.
  apply vbind_inv in H as ([b1 J1] & s & Hloop & H).
  injection H as <- <- <- <-.
  now exists W0.
Qed.

End descent.

(** Whenever [gradient_descent] returns, the array [w] it returns is a new
    object, every array that existed before the call, [w_in] among them, has
    its contents unchanged, and [J_history] has one entry per iteration:
    [num_iters] of them, none for a non-positive [num_iters]. *)
Theorem gradient_descent_frame {XT YT LT : Type} (X : XT) (y : YT)
    (w_in : loc) (b_in : R)
    (cost_function : XT -> YT -> list R -> R -> result float)
    (gradient_function : XT -> YT -> list R -> R -> LT -> result (list R * R))
    (alpha : R) (num_iters : Z) (lambda_ : LT) (σ σ' : vheap) (w : loc)
    (b : R) (J_history : list float) :
  gradient_descent X y w_in b_in cost_function gradient_function alpha
    num_iters lambda_ σ = Ok ((w, b, J_history), σ') ->
  σ !! w = None /\
  (forall l v, σ !! l = Some v -> σ' !! l = Some v) /\
  length J_history = Z.to_nat num_iters.
Proof.
  intros H. apply gradient_descent_inv in H as (W0 & HW0 & -> & Hloop).
  pose proof (not_elem_of_dom_1 σ _ (is_fresh (dom σ))) as Hfresh.
  destruct (gd_loop_frame X y (fresh (dom σ)) cost_function gradient_function
              alpha lambda_ σ (Z.to_nat num_iters) Hfresh _ _ _ _ _ _
              (insert_subseteq_r _ _ _ _ Hfresh (reflexivity σ)) Hloop)
    as [Hsub Hlen].
  split; [exact Hfresh|]. split; [|exact Hlen].
  intros l v Hl. exact (lookup_weaken _ _ _ _ Hl Hsub).
Qed.

(** Whenever [gradient_descent] returns after at least one iteration, the
    last entry of [J_history] is the cost of the parameters it returns: the
    cost is taken after the update. *)
Theorem gradient_descent_last_cost {XT YT LT : Type} (X : XT) (y : YT)
    (w_in : loc) (b_in : R)
    (cost_function : XT -> YT -> list R -> R -> result float)
    (gradient_function : XT -> YT -> list R -> R -> LT -> result (list R * R))
    (alpha : R) (num_iters : Z) (lambda_ : LT) (σ σ' : vheap) (w : loc)
    (b : R) (J_history : list float) :
  (1 <= num_iters)%Z ->
  gradient_descent X y w_in b_in cost_function gradient_function alpha
    num_iters lambda_ σ = Ok ((w, b, J_history), σ') ->
  exists W c,
    σ' !! w = Some W /\ last J_history = Some c /\
    cost_function X y W b = Ok c.
Proof.
  intros Hn H. apply gradient_descent_inv in H as (W0 & _ & _ & Hloop).
  destruct (Z.to_nat num_iters) as [|n] eqn:E; [lia|].
  exact (gd_loop_last X y w cost_function gradient_function alpha lambda_
           n _ _ _ _ _ _ Hloop).
Qed.

(** With a non-positive [num_iters], [gradient_descent] returns a copy of
    [w_in], [b_in] itself and an empty history. *)
Theorem gradient_descent_no_iteration {XT YT LT : Type} (X : XT) (y : YT)
    (w_in : loc) (b_in : R)
    (cost_function : XT -> YT -> list R -> R -> result float)
    (gradient_function : XT -> YT -> list R -> R -> LT -> result (list R * R))
    (alpha : R) (num_iters : Z) (lambda_ : LT) (σ : vheap) (W0 : list R) :
  (num_iters <= 0)%Z -> σ !! w_in = Some W0 ->
  exists w σ',
    gradient_descent X y w_in b_in cost_function gradient_function alpha
      num_iters lambda_ σ = Ok ((w, b_in, []), σ') /\
    w <> w_in /\ σ' !! w = Some W0 /\ σ' !! w_in = Some W0.
Proof.
  intros Hn HW0.
  pose proof (not_elem_of_dom_1 σ _ (is_fresh (dom σ))) as Hfresh.
  assert (Hne : fresh (dom σ) <> w_in).
  { intros E. subst w_in.
    assert (Some W0 = None) as [=].
    transitivity (σ !! fresh (dom σ)); [symmetry; exact HW0 | exact Hfresh]. }
  exists (fresh (dom σ)), (<[fresh (dom σ) := W0]> σ). split; [|split; [|split]].
  - unfold gradient_descent.
    rewrite (vbind_ok _ _ _ _ _ (vderef_ok _ _ _ HW0)).
    rewrite (vbind_ok (valloc W0) _ σ _ _ eq_refl).
    replace (Z.to_nat num_iters) with 0%nat by lia. reflexivity.
  - exact Hne.
  - apply lookup_insert_eq.
  - now rewrite lookup_insert_ne by exact Hne.
Qed.

(** *** Runs of gradient_descent *)

Section descent_total.

Context {XT YT LT : Type}.
Variables (X : XT) (y : YT).
Variable cost_function : XT -> YT -> list R -> R -> result float.
Variable gradient_function :
  XT -> YT -> list R -> R -> LT -> result (list R * R).
Variables (alpha : R) (lambda_ : LT) (n : nat).

Hypothesis gradient_function_ok : forall W b,
  length W = n ->
  exists dj_dw dj_db,
    gradient_function X y W b lambda_ = Ok (dj_dw, dj_db) /\
    length dj_dw = n.
Hypothesis cost_function_ok : forall W b,
  length W = n -> exists c, cost_function X y W b = Ok c.

Lemma gd_loop_total (w : loc) (k : nat) :
  forall b J0 σ W,
    σ !! w = Some W -> length W = n ->
    exists b' J σ' W',
      gd_loop k X y w b cost_function gradient_function alpha lambda_ J0 σ
      = Ok ((b', J), σ') /\
      σ' !! w = Some W' /\ length W' = n.
Proof.
  induction k as [|k IH]; intros b J0 σ W HW Hlen.
  - exists b, J0, σ, W. now split.
  - destruct (gradient_function_ok W b Hlen) as (dw & db & Hg & Hdw).
    assert (Hz : vzip Rminus W (map (Rmult alpha) dw)
                 = Ok (zip_with Rminus W (map (Rmult alpha) dw))).
    { apply vzip_ok. rewrite length_map. congruence. }
    assert (Hlen' : length (zip_with Rminus W (map (Rmult alpha) dw)) = n).
    { rewrite length_zip_with, length_map. lia. }
    destruct (cost_function_ok _ (b - alpha * db) Hlen') as (c & Hc).
    destruct (IH (b - alpha * db) (J0 ++ [c])
                (<[w := zip_with Rminus W (map (Rmult alpha) dw)]> σ) _
                (lookup_insert_eq _ _ _) Hlen')
      as (b' & J & σ' & W' & Hrun & HW' & HlenW').
    exists b', J, σ', W'. split; [|now split].
    simpl.
    rewrite (vbind_ok _ _ _ _ _ (vderef_ok _ _ _ HW)).
    rewrite (vbind_ok _ _ _ _ _ (vlift_ok _ _ σ Hg)).
    rewrite (vbind_ok _ _ _ _ _ (vlift_ok _ _ σ Hz)).
    rewrite (vbind_ok _ _ _ _ _ (vstore_ok _ _ _ _ HW)).
    rewrite (vbind_ok _ _ _ _ _ (vderef_ok _ _ _ (lookup_insert_eq _ _ _))).
    rewrite (vbind_ok _ _ _ _ _ (vlift_ok _ _ _ Hc)).
    exact Hrun.
Qed.

Lemma gradient_descent_total (w_in : loc) (b_in : R) (num_iters : Z)
    (σ : vheap) (W0 : list R) :
  σ !! w_in = Some W0 -> length W0 = n ->
  exists w b J σ' W,
    gradient_descent X y w_in b_in cost_function gradient_function alpha
      num_iters lambda_ σ = Ok ((w, b, J), σ') /\
    σ' !! w = Some W /\ length W = n.
Proof.
  intros HW0 Hlen.
  destruct (gd_loop_total (fresh (dom σ)) (Z.to_nat num_iters) b_in []
              (<[fresh (dom σ) := W0]> σ) W0 (lookup_insert_eq _ _ _) Hlen)
    as (b' & J & σ' & W' & Hrun & HW' & HlenW').
  exists (fresh (dom σ)), b', J, σ', W'. split; [|now split].
  unfold gradient_descent.
  rewrite (vbind_ok _ _ _ _ _ (vderef_ok _ _ _ HW0)).
  rewrite (vbind_ok (valloc W0) _ σ _ _ eq_refl).
  rewrite (vbind_ok _ _ _ _ _ Hrun). reflexivity.
Qed.

End descent_total.

Lemma compute_cost_reg_run (X : matrix) (y : list Z) (w : list R) (b : R)
    (lambda_ : R) :
  ncols X = length w -> length y = nrows X -> (1 <= nrows X)%nat ->
  compute_cost X y w b None
  = Ok (fin (xent_int64 y (f_wb X w b) / INR (nrows X))) /\
  compute_cost_reg X y w b lambda_
  = Ok (fin (xent_int64 y (f_wb X w b) / INR (nrows X)
             + lambda_ / (2 * INR (nrows X))
               * vsum (map (fun t => t ^ 2) w))).
Proof.
  intros Hw Hy Hm.
  assert (Hc : compute_cost X y w b None
               = Ok (fin (xent_int64 y (f_wb X w b) / INR (nrows X)))).
  { rewrite (compute_cost_run X y w b None Hw Hy).
    replace (nrows X =? 0)%nat with false
      by (symmetry; apply Nat.eqb_neq; lia).
    reflexivity. }
  split; [exact Hc|].
  unfold compute_cost_reg. rewrite Hc, result_bind_ok. reflexivity.
Qed.

Lemma compute_gradient_reg_run (X : matrix) (y : list Z) (w : list R)
    (b : R) (lambda_ : R) :
  ncols X = length w -> length y = nrows X -> (1 <= nrows X)%nat ->
  exists dj_dw dj_db,
    compute_gradient_reg X y w b lambda_ = Ok (dj_dw, dj_db) /\
    length dj_dw = length w.
Proof.
  intros Hw Hy Hm.
  pose proof (compute_gradient_run X y w b None Hw Hy Hm) as Hg.
  cbv zeta in Hg.
  pose proof (compute_gradient_length _ _ _ _ _ _ _ Hg) as Hlen.
  unfold compute_gradient_reg. rewrite Hg, result_bind_ok.
  rewrite vzip_ok by (rewrite Hlen, length_map; exact Hw).
  rewrite result_bind_ok. do 2 eexists. split; [reflexivity|].
  rewrite length_zip_with, Hlen, length_map. lia.
Qed.

(** A run of [gradient_descent] with [compute_cost] and
    [compute_gradient]. *)
Lemma gradient_descent_run (X : matrix) (y : list Z) (w_in : loc) (b_in : R)
    (alpha : R) (num_iters : Z) (lambda_ : option R) (σ : vheap)
    (W0 : list R) :
  σ !! w_in = Some W0 -> ncols X = length W0 -> length y = nrows X ->
  (1 <= nrows X)%nat ->
  exists w b J σ' W,
    gradient_descent X y w_in b_in
      (fun X y w b => compute_cost X y w b None) compute_gradient alpha
      num_iters lambda_ σ = Ok ((w, b, J), σ') /\
    σ' !! w = Some W /\ length W = length W0.
Proof.
  intros HW0 Hw Hy Hm. rewrite <- Hw.
  refine (gradient_descent_total X y _ _ alpha lambda_ (ncols X) _ _
            w_in b_in num_iters σ W0 HW0 (eq_sym Hw)).
  - intros W b HW. do 2 eexists. split.
    + exact (compute_gradient_run X y W b lambda_ (eq_sym HW) Hy Hm).
    + rewrite !length_map. exact (proj1 (transpose_dims X)).
  - intros W b HW. eexists.
    exact (compute_cost_run X y W b None (eq_sym HW) Hy).
Qed.

(** A run of [gradient_descent] with [compute_cost_reg], called with its
    default [lambda_ = 1], and [compute_gradient_reg]. *)
Lemma gradient_descent_reg_run (X : matrix) (y : list Z) (w_in : loc)
    (b_in : R) (alpha : R) (num_iters : Z) (lambda_ : R) (σ : vheap)
    (W0 : list R) :
  σ !! w_in = Some W0 -> ncols X = length W0 -> length y = nrows X ->
  (1 <= nrows X)%nat ->
  exists w b J σ' W,
    gradient_descent X y w_in b_in
      (fun X y w b => compute_cost_reg X y w b 1) compute_gradient_reg alpha
      num_iters lambda_ σ = Ok ((w, b, J), σ') /\
    σ' !! w = Some W /\ length W = ncols X.
Proof.
  intros HW0 Hw Hy Hm.
  refine (gradient_descent_total X y _ _ alpha lambda_ (ncols X) _ _
            w_in b_in num_iters σ W0 HW0 (eq_sym Hw)).
  - intros W b HW.
    destruct (compute_gradient_reg_run X y W b lambda_ (eq_sym HW) Hy Hm)
      as (dw & db & Hg & Hl).
    exists dw, db. split; [exact Hg | congruence].
  - intros W b HW. eexists.
    exact (proj2 (compute_cost_reg_run X y W b 1 (eq_sym HW) Hy Hm)).
Qed.

Lemma ex_wheap_lookup : ex_wheap !! 0%nat = Some [0; 0].
Proof. apply lookup_singleton_eq. Qed.

Lemma gradient_descent_frame_witness :
  exists w b J σ',
    gradient_descent ex_X [1%Z] 0%nat 0
      (fun X y w b => compute_cost X y w b None) compute_gradient 1 2 None
      ex_wheap = Ok ((w, b, J), σ') /\
    ex_wheap !! w = None /\
    (forall l v, ex_wheap !! l = Some v -> σ' !! l = Some v) /\
    length J = Z.to_nat 2.
Proof.
  destruct (gradient_descent_run ex_X [1%Z] 0%nat 0 1 2 None ex_wheap [0; 0]
              ex_wheap_lookup eq_refl eq_refl (le_n 1))
    as (w & b & J & σ' & W & Hrun & _).
  exists w, b, J, σ'. split; [exact Hrun|].
  exact (gradient_descent_frame _ _ _ _ _ _ _ _ _ _ _ _ _ _ Hrun).
Defined.

Lemma gradient_descent_last_cost_witness :
  exists w b J σ',
    (1 <= 2)%Z /\
    gradient_descent ex_X [1%Z] 0%nat 0
      (fun X y w b => compute_cost X y w b None) compute_gradient 1 2 None
      ex_wheap = Ok ((w, b, J), σ') /\
    exists W c,
      σ' !! w = Some W /\ last J = Some c /\
      compute_cost ex_X [1%Z] W b None = Ok c.
Proof.
  destruct (gradient_descent_run ex_X [1%Z] 0%nat 0 1 2 None ex_wheap [0; 0]
              ex_wheap_lookup eq_refl eq_refl (le_n 1))
    as (w & b & J & σ' & W & Hrun & _).
  exists w, b, J, σ'. split; [lia|]. split; [exact Hrun|].
  refine (gradient_descent_last_cost _ _ _ _ _ _ _ _ _ _ _ _ _ _ _ Hrun).
  lia.
Defined.

Lemma gradient_descent_no_iteration_witness :
  (0 <= 0)%Z /\ ex_wheap !! 0%nat = Some [0; 0] /\
  exists w σ',
    gradient_descent ex_X [1%Z] 0%nat 0
      (fun X y w b => compute_cost X y w b None) compute_gradient 1 0 None
      ex_wheap = Ok ((w, 0, []), σ') /\
    w <> 0%nat /\ σ' !! w = Some [0; 0] /\ σ' !! 0%nat = Some [0; 0].
Proof.
  split; [lia|]. split; [exact ex_wheap_lookup|].
  refine (gradient_descent_no_iteration _ _ _ _ _ _ _ _ _ _ _ _ ex_wheap_lookup).
  lia.
Defined.

(** On a batch of m >= 1 examples that fit, [gradient_descent] with
    [compute_cost] and [compute_gradient] returns for every [num_iters] and
    every [alpha], and the weights it returns have the length of [w_in]. *)
Theorem gradient_descent_returns (X : matrix) (y : list Z) (w_in : loc)
    (b_in : R) (alpha : R) (num_iters : Z) (lambda_ : option R) (σ : vheap)
    (W0 : list R) :
  σ !! w_in = Some W0 -> ncols X = length W0 -> length y = nrows X ->
  (1 <= nrows X)%nat ->
  exists w b J σ' W,
    gradient_descent X y w_in b_in
      (fun X y w b => compute_cost X y w b None) compute_gradient alpha
      num_iters lambda_ σ = Ok ((w, b, J), σ') /\
    σ' !! w = Some W /\ length W = length W0.
Proof. exact (gradient_descent_run X y w_in b_in alpha num_iters lambda_ σ W0). Qed.

Lemma gradient_descent_returns_witness :
  exists w b J σ' W,
    gradient_descent ex_X [1%Z] 0%nat 0
      (fun X y w b => compute_cost X y w b None) compute_gradient 1 2 None
      ex_wheap = Ok ((w, b, J), σ') /\
    σ' !! w = Some W /\ length W = length [0; 0].
Proof.
  exact (gradient_descent_returns ex_X [1%Z] 0%nat 0 1 2 None ex_wheap [0; 0]
           ex_wheap_lookup eq_refl eq_refl (le_n 1)).
Defined.

(** [gradient_descent] calls [cost_function(X, y, w, b)] without [lambda_]:
    with [compute_cost_reg] and [compute_gradient_reg] on a batch of m >= 1
    examples that fit it returns, and after at least one iteration the last
    entry of [J_history] is the unregularized cost of the returned
    parameters plus [1 / (2m)] times the sum of the squares of [w], the
    penalty of the default [lambda_ = 1], whatever [lambda_] was given. *)
Theorem gradient_descent_reg_history (X : matrix) (y : list Z) (w_in : loc)
    (b_in : R) (alpha : R) (num_iters : Z) (lambda_ : R) (σ : vheap)
    (W0 : list R) :
  σ !! w_in = Some W0 -> ncols X = length W0 -> length y = nrows X ->
  (1 <= nrows X)%nat -> (1 <= num_iters)%Z ->
  exists w b J σ' W c,
    gradient_descent X y w_in b_in
      (fun X y w b => compute_cost_reg X y w b 1) compute_gradient_reg alpha
      num_iters lambda_ σ = Ok ((w, b, J), σ') /\
    σ' !! w = Some W /\
    compute_cost X y W b None = Ok (fin c) /\
    last J
    = Some (fin (c + 1 / (2 * INR (nrows X))
                     * vsum (map (fun t => t ^ 2) W))).
Proof.
  intros HW0 Hw Hy Hm Hn.
  destruct (gradient_descent_reg_run X y w_in b_in alpha num_iters lambda_ σ
              W0 HW0 Hw Hy Hm)
    as (w & b & J & σ' & W & Hrun & HW & HlenW).
  destruct (compute_cost_reg_run X y W b 1 (eq_sym HlenW) Hy Hm) as [Hc Hr].
  exists w, b, J, σ', W. eexists.
  split; [exact Hrun|]. split; [exact HW|]. split; [exact Hc|].
  apply gradient_descent_inv in Hrun as (W0' & _ & _ & Hloop).
  destruct (Z.to_nat num_iters) as [|k] eqn:E; [lia|].
  apply gd_loop_last in Hloop as (W' & c' & HW' & Hlast & Hc').
  rewrite HW in HW'. injection HW' as <-.
  rewrite Hr in Hc'. injection Hc' as <-. exact Hlast.
Qed.

Lemma gradient_descent_reg_history_witness :
  exists w b J σ' W c,
    gradient_descent ex_X [1%Z] 0%nat 0
      (fun X y w b => compute_cost_reg X y w b 1) compute_gradient_reg 1
      2 (1 / 10) ex_wheap = Ok ((w, b, J), σ') /\
    σ' !! w = Some W /\
    compute_cost ex_X [1%Z] W b None = Ok (fin c) /\
    last J
    = Some (fin (c + 1 / (2 * INR (nrows ex_X))
                     * vsum (map (fun t => t ^ 2) W))).
Proof.
  refine (gradient_descent_reg_history ex_X [1%Z] 0%nat 0 1 2 (1 / 10)
            ex_wheap [0; 0] ex_wheap_lookup eq_refl eq_refl (le_n 1) _).
  lia.
Defined.

(** ** sigmoid *)

(** [sigmoid] is symmetric about the point (0, 1/2):
    [sigmoid (-z) = 1 - sigmoid z]. *)
Theorem sigmoid_symmetry (z : R) : sigmoid (- z) = 1 - sigmoid z.
Proof.
  rewrite !sigmoid_exp, Ropp_involutive.
  pose proof (exp_pos z) as Hz. pose proof (exp_pos (- z)) as Hz'.
  assert (He : exp (- z) * exp z = 1).
  { rewrite <- exp_plus. replace (- z + z) with 0 by lra. apply exp_0. }
  apply (Rmult_eq_reg_r ((1 + exp z) * (1 + exp (- z)))); [|nra].
  field_simplify; [|lra|lra]. nra.
Qed.

End LogRegFacts.

(** * Properties of multi_linear_reg.py *)

Module LinRegFacts.
Import LinReg LinRegSpec.

Lemma vsum_map_affine (a s : R) (v : list R) :
  vsum (map (fun x => (x - a) / s) v) = (vsum v - INR (length v) * a) / s.
Proof.
  unfold vsum. induction v as [|x v IH].
  - simpl. unfold Rdiv. lra.
  - cbn [map foldr length]. rewrite IH, S_INR. unfold Rdiv. lra.
Qed.

Lemma vsum_map_scale (c : R) (f : R -> R) (v : list R) :
  vsum (map (fun x => c * f x) v) = c * vsum (map f v).
Proof.
  unfold vsum. induction v as [|x v IH]; simpl; [lra|]. rewrite IH. lra.
Qed.

Lemma ravel_mmap (f : R -> R) (X : matrix) :
  ravel (mmap f X) = map f (ravel X).
Proof. unfold ravel, mmap. simpl. symmetry. apply concat_map. Qed.

Lemma sum_sq_dev_nonneg (a : R) (v : list R) :
  0 <= vsum (map (fun x => (x - a) ^ 2) v).
Proof.
  apply vsum_nonneg, Forall_map, Forall_forall. intros t _. apply pow2_ge_0.
Qed.

Lemma np_mean_sq_dev_nonneg (a : R) (v : list R) :
  0 <= np_mean (map (fun x => (x - a) ^ 2) v).
Proof.
  unfold np_mean. rewrite length_map.
  destruct v as [|x v].
  - simpl. unfold vsum. simpl. unfold Rdiv. rewrite Rinv_0. lra.
  - apply Rmult_le_pos; [apply sum_sq_dev_nonneg|].
    left. apply Rinv_0_lt_compat, lt_0_INR. simpl. lia.
Qed.

(** What [zscore_normalize_features] returns when [X] has an entry and its
    standard deviation is not 0. *)
Lemma zscore_run (X : matrix) :
  ravel X <> [] -> np_std (ravel X) <> 0 ->
  zscore_normalize_features X
  = Ok (mmap (fun x => (x - np_mean (ravel X)) / np_std (ravel X)) X,
        fin (np_mean (ravel X)), fin (np_std (ravel X))).
Proof.
  intros Hne Hs. unfold zscore_normalize_features.
  destruct (ravel X) as [|x v] eqn:E; [contradiction|].
  cbn [length Nat.eqb].
  destruct (Req_dec_T (np_std (x :: v)) 0) as [H0|_]; [contradiction|].
  reflexivity.
Qed.

Lemma zscore_inv (X Xn : matrix) (mu sigma : R) :
  zscore_normalize_features X = Ok (Xn, fin mu, fin sigma) ->
  ravel X <> [] /\ mu = np_mean (ravel X) /\ sigma = np_std (ravel X) /\
  sigma <> 0 /\ Xn = mmap (fun x => (x - mu) / sigma) X.
Proof.
  unfold zscore_normalize_features.
  destruct (ravel X) as [|x v] eqn:E.
  - simpl. discriminate.
  - cbn [length Nat.eqb].
    destruct (Req_dec_T (np_std (x :: v)) 0) as [H0|Hn]; [discriminate|].
    intros [= <- <- <-]. repeat split; try reflexivity; try exact Hn.
    discriminate.
Qed.

Lemma np_std_pos (v : list R) : np_std v <> 0 -> 0 < np_std v.
Proof.
  intros H. unfold np_std in *.
  pose proof (sqrt_pos (np_mean (map (fun x => (x - np_mean v) ^ 2) v))).
  lra.
Qed.

Lemma np_std_sqr (v : list R) :
  np_std v * np_std v = np_mean (map (fun x => (x - np_mean v) ^ 2) v).
Proof. unfold np_std. apply sqrt_sqrt, np_mean_sq_dev_nonneg. Qed.

(** Over the reals, for an array whose entries are not all equal: whenever
    [zscore_normalize_features] returns finite values, [sigma] is positive,
    [X_norm] has the shape of [X], and the entries of [X_norm], taken all
    together, have mean 0 and standard deviation 1. *)
Theorem zscore_standardizes (X Xn : matrix) (mu sigma : R) :
  ~ (exists c, Forall (fun x => x = c) (ravel X)) ->
  zscore_normalize_features X = Ok (Xn, fin mu, fin sigma) ->
  0 < sigma /\ nrows Xn = nrows X /\ ncols Xn = ncols X /\
  np_mean (ravel Xn) = 0 /\ np_std (ravel Xn) = 1.
Proof.
  intros _ H. apply zscore_inv in H as (Hne & Hmu & Hsig & Hs0 & ->).
  assert (Hpos : 0 < sigma) by (subst sigma; now apply np_std_pos).
  assert (Hn : 0 < INR (length (ravel X))).
  { apply lt_0_INR. destruct (ravel X); [contradiction | simpl; lia]. }
  assert (Hmean : np_mean (map (fun x => (x - mu) / sigma) (ravel X)) = 0).
  { unfold np_mean at 1. rewrite vsum_map_affine, length_map.
    rewrite Hmu at 1. unfold np_mean. field. split; lra. }
  split; [exact Hpos|]. split; [unfold nrows, mmap; simpl; apply length_map|].
  split; [reflexivity|]. rewrite ravel_mmap. split; [exact Hmean|].
  unfold np_std. rewrite Hmean.
  replace (np_mean _) with 1; [apply sqrt_1|].
  rewrite map_map. unfold np_mean at 1. rewrite length_map.
  transitivity (vsum (map (fun x => / (sigma * sigma) * (x - mu) ^ 2) (ravel X))
                / INR (length (ravel X))).
  2:{ f_equal. f_equal. apply map_ext. intros x. field. lra. }
  rewrite (vsum_map_scale (/ (sigma * sigma)) (fun x => (x - mu) ^ 2)).
  rewrite Hsig at 1 2. rewrite np_std_sqr, <- Hmu. unfold np_mean.
  rewrite length_map. field. split; [lra|].
  intros Hz.
  assert (Hsq : sigma * sigma = 0).
  { rewrite Hsig, np_std_sqr, <- Hmu. unfold np_mean. rewrite length_map, Hz.
    unfold Rdiv. lra. }
  nra.
Qed.

Lemma ex_features_std : np_std (ravel ex_features) = 1.
Proof.
  unfold np_std, np_mean, ex_features, ravel, vsum. simpl.
  replace ((((0 - (0 + (2 + 0)) / (1 + 1)) * ((0 - (0 + (2 + 0)) / (1 + 1)) * 1)
             + ((2 - (0 + (2 + 0)) / (1 + 1)) * ((2 - (0 + (2 + 0)) / (1 + 1)) * 1)
                + 0)) / (1 + 1))) with 1 by field.
  apply sqrt_1.
Qed.

Lemma ex_features_run :
  zscore_normalize_features ex_features
  = Ok (mmap (fun x => (x - np_mean (ravel ex_features))
                       / np_std (ravel ex_features)) ex_features,
        fin (np_mean (ravel ex_features)), fin (np_std (ravel ex_features))).
Proof.
  apply zscore_run; [discriminate|]. rewrite ex_features_std. lra.
Qed.

Lemma ex_features_not_constant :
  ~ (exists c, Forall (fun x => x = c) (ravel ex_features)).
Proof.
  intros [c Hc]. unfold ex_features, ravel in Hc. simpl in Hc.
  inversion Hc as [|x l H0 Hrest]; subst.
  inversion Hrest as [|x l H2 _]; subst. lra.
Qed.

Lemma zscore_standardizes_witness :
  exists Xn mu sigma,
    zscore_normalize_features ex_features = Ok (Xn, fin mu, fin sigma) /\
    0 < sigma /\ nrows Xn = nrows ex_features /\
    ncols Xn = ncols ex_features /\
    np_mean (ravel Xn) = 0 /\ np_std (ravel Xn) = 1.
Proof.
  do 3 eexists. split; [exact ex_features_run|].
  exact (zscore_standardizes _ _ _ _ ex_features_not_constant
           ex_features_run).
Defined.

Lemma wf_ravel_nonempty (X : matrix) :
  ravel X <> [] -> (1 <= nrows X)%nat.
Proof.
  unfold ravel, nrows. destruct (rows X); simpl; [contradiction | lia].
Qed.

Lemma col_mmap (f : R -> R) (j : nat) (X : matrix) :
  wf X -> (j < ncols X)%nat -> col j (mmap f X) = map f (col j X).
Proof.
  unfold wf, col, mmap. simpl. intros Hw Hj. rewrite !map_map.
  apply map_ext_Forall. eapply Forall_impl; [exact Hw|].
  intros r Hr. cbv beta in *.
  rewrite <- (map_nth f r 0 j).
  apply nth_indep. rewrite length_map. lia.
Qed.

(** [mu] and [sigma] are those of the whole array, not of each column: the
    mean of column [j] of [X_norm] is the mean of column [j] of [X] minus
    [mu], over [sigma], so a column of [X_norm] has mean 0 exactly when the
    column of [X] has the mean of the whole array. *)
Theorem zscore_column_mean (X Xn : matrix) (mu sigma : R) (j : nat) :
  zscore_normalize_features X = Ok (Xn, fin mu, fin sigma) ->
  wf X -> (j < ncols X)%nat ->
  np_mean (col j Xn) = (np_mean (col j X) - mu) / sigma /\
  (np_mean (col j Xn) = 0 <-> np_mean (col j X) = mu).
Proof.
  intros H Hw Hj. apply zscore_inv in H as (Hne & Hmu & Hsig & Hs0 & ->).
  assert (Hpos : 0 < sigma) by (subst sigma; now apply np_std_pos).
  assert (Hn : 0 < INR (length (col j X))).
  { apply lt_0_INR. rewrite col_length.
    exact (wf_ravel_nonempty X Hne). }
  assert (Heq : np_mean (col j (mmap (fun x => (x - mu) / sigma) X))
                = (np_mean (col j X) - mu) / sigma).
  { rewrite (col_mmap _ j X Hw Hj). unfold np_mean.
    rewrite vsum_map_affine, length_map. field. split; lra. }
  split; [exact Heq|]. rewrite Heq. split.
  - intros H0. apply (Rmult_eq_compat_r sigma) in H0.
    unfold Rdiv in H0. rewrite Rmult_assoc, Rinv_l in H0 by lra. lra.
  - intros ->. unfold Rdiv. lra.
Qed.

Lemma ex_features_wf : wf ex_features.
Proof. repeat constructor. Qed.

Lemma zscore_column_mean_witness :
  exists Xn mu sigma,
    zscore_normalize_features ex_features = Ok (Xn, fin mu, fin sigma) /\
    wf ex_features /\ (0 < ncols ex_features)%nat /\
    np_mean (col 0 Xn) = (np_mean (col 0 ex_features) - mu) / sigma /\
    (np_mean (col 0 Xn) = 0 <-> np_mean (col 0 ex_features) = mu).
Proof.
  do 3 eexists. split; [exact ex_features_run|].
  split; [exact ex_features_wf|]. split; [simpl; lia|].
  refine (zscore_column_mean _ _ _ _ 0%nat ex_features_run ex_features_wf _).
  simpl. lia.
Defined.

(** ** compute_cost and compute_gradient *)

Lemma linreg_forward_eq (X : matrix) (w : list R) (b : R) :
  map (fun t => t + b) (map (fun r => dot r w) (rows X)) = f_wb X w b.
Proof. unfold f_wb. now rewrite map_map. Qed.

Lemma linreg_f_wb_length (X : matrix) (w : list R) (b : R) :
  length (f_wb X w b) = nrows X.
Proof. unfold f_wb, nrows. now rewrite length_map. Qed.

Lemma resid_length (X : matrix) (y w : list R) (b : R) :
  length y = nrows X -> length (resid X y w b) = nrows X.
Proof.
  intros Hy. unfold resid.
  rewrite length_zip_with, linreg_f_wb_length. lia.
Qed.

Lemma linreg_cost_run (X : matrix) (y w : list R) (b : R) :
  ncols X = length w -> length y = nrows X ->
  compute_cost X y w b
  = Ok (if (nrows X =? 0)%nat then nonfin
        else fin (vsum (map (fun t => t ^ 2) (resid X y w b))
                  / (2 * INR (nrows X)))).
Proof.
  intros Hw Hy. unfold compute_cost.
  rewrite (LogRegFacts.matvec_ok _ _ Hw), result_bind_ok, linreg_forward_eq.
  rewrite vzip_ok by (rewrite linreg_f_wb_length; now symmetry).
  rewrite result_bind_ok. reflexivity.
Qed.

Lemma linreg_gradient_run (X : matrix) (y w : list R) (b : R) :
  ncols X = length w -> length y = nrows X -> (1 <= nrows X)%nat ->
  compute_gradient X y w b
  = Ok (map (fun g => g / INR (nrows X))
          (map (fun c => dot c (resid X y w b)) (rows (transpose X))),
        vsum (resid X y w b) / INR (nrows X)).
Proof.
  intros Hw Hy Hm. unfold compute_gradient.
  rewrite (LogRegFacts.matvec_ok _ _ Hw), !result_bind_ok, linreg_forward_eq.
  rewrite vzip_ok by (rewrite linreg_f_wb_length; now symmetry).
  rewrite !result_bind_ok. fold (resid X y w b).
  rewrite LogRegFacts.matvec_ok
    by (rewrite (proj2 (transpose_dims X)), resid_length; auto).
  rewrite !result_bind_ok.
  replace (nrows X =? 0)%nat with false
    by (symmetry; apply Nat.eqb_neq; lia).
  reflexivity.
Qed.

Lemma sq_sum_nonneg (e : list R) : 0 <= vsum (map (fun t => t ^ 2) e).
Proof.
  apply vsum_nonneg, Forall_map, Forall_forall. intros t _. apply pow2_ge_0.
Qed.

Lemma dot_nil_r (r : list R) : dot r [] = 0.
Proof. unfold dot. now destruct r. Qed.

Lemma dot_cons (a c : R) (u v : list R) :
  dot (a :: u) (c :: v) = a * c + dot u v.
Proof. reflexivity. Qed.

Lemma dot_add_r (r : list R) :
  forall w dw, length w = length dw ->
    dot r (zip_with Rplus w dw) = dot r w + dot r dw.
Proof.
  induction r as [|a r IH]; intros [|x w] [|d dw] Hl; try discriminate.
  - unfold dot, vsum. simpl. lra.
  - unfold dot, vsum. simpl. lra.
  - cbn [zip_with]. rewrite !dot_nil_r. lra.
  - injection Hl as Hl. cbn [zip_with]. rewrite !dot_cons, (IH w dw Hl). lra.
Qed.

Lemma dot_map_zero {A} (s : list A) (dw : list R) :
  dot (map (fun _ => 0) s) dw = 0.
Proof.
  revert dw. induction s as [|j s IH]; intros [|d dw]; try reflexivity.
  cbn [map]. rewrite dot_cons, IH. lra.
Qed.

Lemma dot_map_add {A} (f g : A -> R) (k : R) (s : list A) (dw : list R) :
  dot (map (fun j => k * f j + g j) s) dw
  = k * dot (map f s) dw + dot (map g s) dw.
Proof.
  revert dw. induction s as [|j s IH]; intros [|d dw];
    try (unfold dot, vsum; simpl; lra).
  cbn [map]. rewrite !dot_cons, IH. lra.
Qed.

Lemma dot_map_div (m : R) (g dw : list R) :
  dot (map (fun t => t / m) g) dw = dot g dw / m.
Proof.
  revert dw. induction g as [|a g IH]; intros [|d dw];
    try (unfold dot, vsum; simpl; unfold Rdiv; lra).
  cbn [map]. rewrite !dot_cons, IH. unfold Rdiv. lra.
Qed.

(** [(X.T @ e) . dw] is the sum over the examples of [e_i (X_i . dw)]. *)
Lemma dot_transpose (n : nat) (dw : list R) (l : list (list R)) :
  length dw = n -> Forall (fun r => length r = n) l ->
  forall e,
    dot (map (fun j => dot (map (fun r => nth j r 0) l) e) (seq 0 n)) dw
    = vsum (zip_with (fun r ei => ei * dot r dw) l e).
Proof.
  intros Hdw Hl. induction Hl as [|r l Hr _ IH]; intros e.
  - transitivity (dot (map (fun _ : nat => 0) (seq 0 n)) dw).
    + f_equal.
    + rewrite dot_map_zero. reflexivity.
  - destruct e as [|ei e].
    + cbn [zip_with].
      transitivity (dot (map (fun _ : nat => 0) (seq 0 n)) dw).
      * f_equal.
      * rewrite dot_map_zero. reflexivity.
    + cbn [map zip_with].
      transitivity (dot (map (fun j => ei * nth j r 0
                                       + dot (map (fun r0 => nth j r0 0) l) e)
                           (seq 0 n)) dw).
      * f_equal. apply map_ext. intros j. rewrite dot_cons. lra.
      * rewrite (dot_map_add (fun j => nth j r 0)), IH.
        rewrite <- Hr, map_nth_seq. unfold vsum. cbn [foldr]. lra.
Qed.

Lemma vsum_zip_split (db : R) (dw : list R) (l : list (list R)) :
  forall e, length e = length l ->
    vsum (zip_with (fun r ei => ei * (dot r dw + db)) l e)
    = vsum (zip_with (fun r ei => ei * dot r dw) l e) + db * vsum e.
Proof.
  induction l as [|r l IH]; intros [|ei e] Hl; try discriminate.
  - unfold vsum. simpl. lra.
  - injection Hl as Hl. cbn [zip_with]. unfold vsum in *. cbn [foldr].
    rewrite (IH e Hl). lra.
Qed.

(** The squared residuals after moving the parameters by [dw] and [db]. *)
Lemma sq_resid_shift (w dw : list R) (b db : R) (l : list (list R)) :
  length w = length dw ->
  forall y, length y = length l ->
    let e := zip_with Rminus (map (fun r => dot r w + b) l) y in
    vsum (map (fun t => t ^ 2)
            (zip_with Rminus
               (map (fun r => dot r (zip_with Rplus w dw) + (b + db)) l) y))
    = vsum (map (fun t => t ^ 2) e)
      + 2 * vsum (zip_with (fun r ei => ei * (dot r dw + db)) l e)
      + vsum (map (fun r => (dot r dw + db) ^ 2) l).
Proof.
  intros Hw. induction l as [|r l IH]; intros [|yi y] Hl; try discriminate.
  - unfold vsum. simpl. lra.
  - injection Hl as Hl. specialize (IH y Hl). cbv zeta in *.
    cbn [map zip_with]. unfold vsum in *. cbn [foldr].
    rewrite IH, (dot_add_r r w dw Hw). simpl. lra.
Qed.

(** [compute_gradient] returns the gradient of [compute_cost]: moving the
    parameters by [dw] and [db] changes the cost by
    [dj_dw . dw + dj_db * db] plus [1 / (2m)] times the sum of the squares
    of [X_i . dw + db], so the cost at any other parameters is not below its
    first-order approximation. *)
Theorem linreg_cost_expansion (X : matrix) (y w dw : list R) (b db : R) :
  wf X -> ncols X = length w -> length dw = length w ->
  length y = nrows X -> (1 <= nrows X)%nat ->
  exists c dj_dw dj_db c',
    compute_cost X y w b = Ok (fin c) /\
    compute_gradient X y w b = Ok (dj_dw, dj_db) /\
    compute_cost X y (zip_with Rplus w dw) (b + db) = Ok (fin c') /\
    c' = c + dot dj_dw dw + dj_db * db
         + vsum (map (fun r => (dot r dw + db) ^ 2) (rows X))
           / (2 * INR (nrows X)) /\
    c + dot dj_dw dw + dj_db * db <= c'.
Proof.
  intros Hwf Hw Hdw Hy Hm.
  assert (HmR : 0 < INR (nrows X)) by (apply lt_0_INR; lia).
  assert (Hw' : ncols X = length (zip_with Rplus w dw))
    by (rewrite length_zip_with; lia).
  do 4 eexists. split; [|split; [|split]].
  - rewrite (linreg_cost_run X y w b Hw Hy).
    replace (nrows X =? 0)%nat with false
      by (symmetry; apply Nat.eqb_neq; lia).
    reflexivity.
  - exact (linreg_gradient_run X y w b Hw Hy Hm).
  - rewrite (linreg_cost_run X y _ (b + db) Hw' Hy).
    replace (nrows X =? 0)%nat with false
      by (symmetry; apply Nat.eqb_neq; lia).
    reflexivity.
  - assert (Hexp :
      vsum (map (fun t => t ^ 2) (resid X y (zip_with Rplus w dw) (b + db)))
      / (2 * INR (nrows X))
      = vsum (map (fun t => t ^ 2) (resid X y w b)) / (2 * INR (nrows X))
        + dot (map (fun g => g / INR (nrows X))
                 (map (fun c => dot c (resid X y w b)) (rows (transpose X))))
            dw
        + vsum (resid X y w b) / INR (nrows X) * db
        + vsum (map (fun r => (dot r dw + db) ^ 2) (rows X))
          / (2 * INR (nrows X))).
    { unfold resid at 1, f_wb at 1.
      rewrite (sq_resid_shift w dw b db (rows X) (eq_sym Hdw) y Hy).
      cbv zeta. fold (f_wb X w b). fold (resid X y w b).
      rewrite (vsum_zip_split db dw (rows X) (resid X y w b)
                 (resid_length X y w b Hy)).
      rewrite dot_map_div. unfold transpose. cbn [rows]. rewrite map_map.
      unfold col.
      rewrite (dot_transpose (ncols X) dw (rows X)
                 (eq_trans Hdw (eq_sym Hw)) Hwf (resid X y w b)).
      field. lra. }
    split; [exact Hexp|].
    rewrite Hexp.
    pose proof (sq_sum_nonneg (map (fun r => dot r dw + db) (rows X))) as Hq.
    rewrite map_map in Hq.
    assert (0 <= vsum (map (fun r => (dot r dw + db) ^ 2) (rows X))
                 / (2 * INR (nrows X))).
    { apply Rmult_le_pos; [exact Hq|].
      left. apply Rinv_0_lt_compat. lra. }
    lra.
Qed.

Lemma ex_X_wf : wf ex_X.
Proof. repeat constructor. Qed.

Lemma linreg_cost_expansion_witness :
  exists c dj_dw dj_db c',
    compute_cost ex_X [1] [0; 0] 0 = Ok (fin c) /\
    compute_gradient ex_X [1] [0; 0] 0 = Ok (dj_dw, dj_db) /\
    compute_cost ex_X [1] (zip_with Rplus [0; 0] [1; 1]) (0 + 1)
    = Ok (fin c') /\
    c' = c + dot dj_dw [1; 1] + dj_db * 1
         + vsum (map (fun r => (dot r [1; 1] + 1) ^ 2) (rows ex_X))
           / (2 * INR (nrows ex_X)) /\
    c + dot dj_dw [1; 1] + dj_db * 1 <= c'.
Proof.
  exact (linreg_cost_expansion ex_X [1] [0; 0] [1; 1] 0 1 ex_X_wf eq_refl
           eq_refl eq_refl (le_n 1)).
Defined.

(** ** gradient_descent *)

(** The loop is the loop of logistic_reg.py without [lambda_]. *)
Lemma linreg_gd_loop_eq {XT YT : Type} (X : XT) (y : YT) (w : loc)
    (cost_function : XT -> YT -> list R -> R -> result float)
    (gradient_function : XT -> YT -> list R -> R -> result (list R * R))
    (alpha : R) (n : nat) :
  forall b J σ,
    gd_loop n X y w b cost_function gradient_function alpha J σ
    = LogReg.gd_loop n X y w b cost_function
        (fun X y w b (_ : unit) => gradient_function X y w b) alpha tt J σ.
Proof.
  induction n as [|n IH]; intros b J σ; [reflexivity|].
  cbn [gd_loop LogReg.gd_loop]. unfold mbind, LogReg.VM_bind.
  destruct (LogReg.vderef w σ) as [[W s1]|]; [|reflexivity].
  destruct (LogReg.vlift (gradient_function X y W b) s1)
    as [[[dw db] s2]|]; [|reflexivity].
  destruct (LogReg.vlift (vzip Rminus W (map (Rmult alpha) dw)) s2)
    as [[W' s3]|]; [|reflexivity].
  destruct (LogReg.vstore w W' s3) as [[u s4]|]; [|reflexivity].
  destruct (LogReg.vderef w s4) as [[W2 s5]|]; [|reflexivity].
  destruct (LogReg.vlift (cost_function X y W2 (b - alpha * db)) s5)
    as [[c s6]|]; [|reflexivity].
  apply IH.
Qed.

Lemma linreg_gradient_descent_eq {XT YT : Type} (X : XT) (y : YT)
    (w_in : loc) (b_in : R)
    (cost_function : XT -> YT -> list R -> R -> result float)
    (gradient_function : XT -> YT -> list R -> R -> result (list R * R))
    (alpha : R) (num_iters : Z) (σ : LogReg.vheap) :
  gradient_descent X y w_in b_in cost_function gradient_function alpha
    num_iters σ
  = LogReg.gradient_descent X y w_in b_in cost_function
      (fun X y w b (_ : unit) => gradient_function X y w b) alpha num_iters
      tt σ.
Proof.
  unfold gradient_descent, LogReg.gradient_descent.
  unfold mbind, LogReg.VM_bind.
  destruct (LogReg.vderef w_in σ) as [[W s1]|]; [|reflexivity].
  destruct (LogReg.valloc W s1) as [[w s2]|]; [|reflexivity].
  now rewrite linreg_gd_loop_eq.
Qed.

(** On a batch of m >= 1 examples that fit, [gradient_descent] with
    [compute_cost] and [compute_gradient] returns for every [num_iters] and
    [alpha]: [w] is a new array of the length of [w_in], every array that
    existed before the call, [w_in] among them, is unchanged, and
    [J_history] has [num_iters] entries (none when [num_iters <= 0]). *)
Theorem linreg_gradient_descent_returns (X : matrix) (y : list R)
    (w_in : loc) (b_in : R) (alpha : R) (num_iters : Z) (σ : LogReg.vheap)
    (W0 : list R) :
  σ !! w_in = Some W0 -> ncols X = length W0 -> length y = nrows X ->
  (1 <= nrows X)%nat ->
  exists w b J σ' W,
    gradient_descent X y w_in b_in compute_cost compute_gradient alpha
      num_iters σ = Ok ((w, b, J), σ') /\
    σ !! w = None /\ σ' !! w = Some W /\ length W = length W0 /\
    (forall l v, σ !! l = Some v -> σ' !! l = Some v) /\
    length J = Z.to_nat num_iters.
Proof.
  intros HW0 Hw Hy Hm.
  destruct (LogRegFacts.gradient_descent_total X y compute_cost
              (fun X y w b (_ : unit) => compute_gradient X y w b) alpha tt
              (ncols X)) with (w_in := w_in) (b_in := b_in)
              (num_iters := num_iters) (σ := σ) (W0 := W0)
    as (w & b & J & σ' & W & Hrun & HW & HlenW).
  - intros W b HW. do 2 eexists. split.
    + exact (linreg_gradient_run X y W b (eq_sym HW) Hy Hm).
    + rewrite !length_map. exact (proj1 (transpose_dims X)).
  - intros W b HW. eexists.
    exact (linreg_cost_run X y W b (eq_sym HW) Hy).
  - exact HW0.
  - now symmetry.
  - exists w, b, J, σ', W.
    split; [rewrite linreg_gradient_descent_eq; exact Hrun|].
    apply LogRegFacts.gradient_descent_inv in Hrun as (W0' & _ & -> & Hloop).
    pose proof (not_elem_of_dom_1 σ _ (is_fresh (dom σ))) as Hfresh.
    destruct (LogRegFacts.gd_loop_frame X y (fresh (dom σ)) compute_cost
                (fun X y w b (_ : unit) => compute_gradient X y w b) alpha tt
                σ (Z.to_nat num_iters) Hfresh _ _ _ _ _ _
                (insert_subseteq_r _ _ _ _ Hfresh (reflexivity σ)) Hloop)
      as [Hsub Hlen].
    split; [exact Hfresh|]. split; [exact HW|].
    split; [congruence|]. split; [|exact Hlen].
    intros l v Hl. exact (lookup_weaken _ _ _ _ Hl Hsub).
Qed.

Lemma linreg_gradient_descent_returns_witness :
  exists w b J σ' W,
    gradient_descent ex_X [1] 0%nat 0 compute_cost compute_gradient 1 2
      ex_wheap = Ok ((w, b, J), σ') /\
    ex_wheap !! w = None /\ σ' !! w = Some W /\
    length W = length [0; 0] /\
    (forall l v, ex_wheap !! l = Some v -> σ' !! l = Some v) /\
    length J = Z.to_nat 2.
Proof.
  exact (linreg_gradient_descent_returns ex_X [1] 0%nat 0 1 2 ex_wheap [0; 0]
           LogRegFacts.ex_wheap_lookup eq_refl eq_refl (le_n 1)).
Defined.

End LinRegFacts.
